(** * tbtree: a shallow embedding of embedded/tbtree/tbtree.go

    The development follows the Go file top-down: errors and results,
    byte-level helpers (encoding/binary, hash/crc32), the commit entry
    codec, the append log, the page layer the tree consumes, the tree
    itself (open and recovery, insert, advance, snapshots, flush), and
    then the properties established about them. *)

From Stdlib Require Import ZArith Lia Bool Ascii String Sorted.
From stdpp Require Import base list strings.

Local Open Scope Z_scope.

(** ** Errors and results *)

(** The sentinel errors the tree returns.  Wrapped errors
    ([fmt.Errorf("%w: ...", ErrX)]) are identified with the sentinel they
    wrap, as [errors.Is] does. *)
Inductive error : Type :=
  | ErrActiveSnapshots
  | ErrCompactionInProgress
  | ErrStaleRootTimestamp
  | ErrInvalidTimestamp
  | ErrNoValidPageFound
  | ErrTreeLocked
  | ErrIllegalArguments
  | ErrCorruptedTreeLog
  | ErrCorruptedEntry
  | ErrCorruptedPage
  | ErrInvalidPageID
  | ErrWriteBufferFull
  | ErrPageFull
  | ErrKeyNotFound
  | ErrKeyRevisionNotFound
  | ErrNoSnapshotAvailable
  | ErrShortRead
  | ErrAlreadyClosed
  | ErrNotInMemPage
  | ErrCacheExhausted
  | ErrIO (msg : string).

#[global] Instance error_eq_dec : EqDecision error.
Proof. solve_decision. Defined.

(** What a Go call can do: return a value, return an error, or panic.
    [Diverged] is a call that does not return: a model loop whose fuel
    ran out, or a blocking lock that is held elsewhere. *)
Inductive result (A : Type) : Type :=
  | Ok (a : A)
  | Err (e : error)
  | Panic (msg : string)
  | Diverged.

Arguments Ok {A} a.
Arguments Err {A} e.
Arguments Panic {A} msg.
Arguments Diverged {A}.

Definition rbind {A B} (r : result A) (k : A -> result B) : result B :=
  match r with
  | Ok a => k a
  | Err e => Err e
  | Panic m => Panic m
  | Diverged => Diverged
  end.

Notation "x <- r ;; k" := (rbind r (fun x => k))
  (at level 100, r at next level, right associativity, only parsing).

(** ** Fixed-width integers *)

Definition wrap32 (v : Z) : Z := v mod 2 ^ 32.
Definition wrap64 (v : Z) : Z := v mod 2 ^ 64.

(** [int64(x)] of a [uint64]. *)
Definition to_int64 (v : Z) : Z :=
  let w := wrap64 v in if w <? 2 ^ 63 then w else w - 2 ^ 64.

Definition is_uint (bits : Z) (v : Z) : Prop := 0 <= v < 2 ^ bits.

(** ** encoding/binary, big endian *)

(** The [n] low bytes of [v], most significant first:
    [b[0] = byte(v >> 8(n-1)), ..., b[n-1] = byte(v)]. *)
Fixpoint be_bytes (n : nat) (v : Z) : list Z :=
  match n with
  | O => []
  | S k => Z.land (Z.shiftr v (8 * Z.of_nat k)) 255 :: be_bytes k v
  end.

(** [uint(b[n-1]) | uint(b[n-2])<<8 | ...], folded from the left. *)
Definition be_value (bs : list Z) : Z :=
  fold_left (fun acc b => Z.lor (Z.shiftl acc 8) b) bs 0.

(** Writing [bs] over [buf] at offset [off]; [None] is Go's index out of
    range panic. *)
Definition write_at (buf : list Z) (off : nat) (bs : list Z) : option (list Z) :=
  if (off + length bs <=? length buf)%nat
  then Some (take off buf ++ bs ++ drop (off + length bs) buf)
  else None.

(** [buf[off:off+n]], [None] when out of range. *)
Definition read_at (buf : list Z) (off n : nat) : option (list Z) :=
  if (off + n <=? length buf)%nat then Some (take n (drop off buf)) else None.

Definition PutUint16 (buf : list Z) (off : nat) (v : Z) := write_at buf off (be_bytes 2 v).
Definition PutUint32 (buf : list Z) (off : nat) (v : Z) := write_at buf off (be_bytes 4 v).
Definition PutUint64 (buf : list Z) (off : nat) (v : Z) := write_at buf off (be_bytes 8 v).

Definition Uint16 (buf : list Z) (off : nat) : option Z := be_value <$> read_at buf off 2.
Definition Uint32 (buf : list Z) (off : nat) : option Z := be_value <$> read_at buf off 4.
Definition Uint64 (buf : list Z) (off : nat) : option Z := be_value <$> read_at buf off 8.

(** ** hash/crc32 with the Castagnoli polynomial *)

Definition Castagnoli : Z := 0x82f63b78.

(** One entry of [crc32.MakeTable(poly)]. *)
Definition crcTableEntry (poly : Z) (i : Z) : Z :=
  Nat.iter 8 (fun crc =>
    if Z.testbit crc 0 then Z.lxor (Z.shiftr crc 1) poly else Z.shiftr crc 1) i.

(** [simpleUpdate]: one table step per byte. *)
Definition crcUpdate (poly : Z) (crc : Z) (data : list Z) : Z :=
  fold_left (fun crc b =>
    Z.lxor (crcTableEntry poly (Z.land (Z.lxor crc b) 255)) (Z.shiftr crc 8))
    data crc.

(** [crc := crc32.New(MakeTable(Castagnoli)); crc.Write(data); crc.Sum32()] *)
Definition computeChecksum (data : list Z) : Z :=
  Z.lxor (crcUpdate Castagnoli (Z.lxor 0 0xffffffff) data) 0xffffffff.

(** *** CRC-32C as the specification names it *)

(** The specification's "CRC32-Castagnoli", written as the checksum is
    defined, without a table: the register starts at all ones; every
    byte is xored into its low bits and the register is then shifted
    right eight times, the reflected Castagnoli polynomial being xored
    in whenever a one is shifted out; the checksum is the complement of
    the register.  [computeChecksum] above is compared with it. *)
Definition crc32cShift (crc : Z) : Z :=
  if Z.odd crc then Z.lxor (Z.div2 crc) 0x82f63b78 else Z.div2 crc.

Definition crc32cByte (crc b : Z) : Z := Nat.iter 8 crc32cShift (Z.lxor crc b).

Definition CRC32_Castagnoli (data : list Z) : Z :=
  Z.lxor (fold_left crc32cByte data 0xffffffff) 0xffffffff.

Definition isByte (b : Z) : Prop := 0 <= b < 256.

(** ** Constants of the package declared outside tbtree.go *)

(** Modelled from the spec: [PageSize] is declared with the page codec,
    which lives outside tbtree.go; "Page fixed at PageSize
    (4096)". *)
Definition PageSize : Z := 4096.

(** Modelled from the spec: [ChecksumSize] is declared with the commit
    entry type; the checksum is a [u32]. *)
Definition ChecksumSize : nat := 4.

(** Modelled from the spec: [CommitMagicSize] is declared with the commit
    entry type; "40 bytes + 2-byte magic". *)
Definition CommitMagicSize : nat := 2.

Definition MaxEntrySize : Z := 2 * 1024.

Definition HistoryLogFileName : string := "history".
Definition TreeLogFileName : string := "tree".

Definition CommitEntrySize : nat := 40 + CommitMagicSize.

(** ** Commit entries *)

Record CommitEntry : Type := mkCommitEntry {
  Checksum : Z;
  CTs : Z;
  HLogLastEntryOff : Z;
  HLogLastEntryChecksum : Z;
  TotalPages : Z;
  StalePages : Z;
  IndexedEntryCount : Z;
}.

Definition emptyCommitEntry : CommitEntry := mkCommitEntry 0 0 0 0 0 0 0.

(** The field types of the Go struct. *)
Definition CommitEntry_wf (e : CommitEntry) : Prop :=
  is_uint 64 (CTs e) /\ is_uint 64 (HLogLastEntryOff e) /\
  is_uint 32 (HLogLastEntryChecksum e) /\ is_uint 64 (TotalPages e) /\
  is_uint 32 (StalePages e) /\ is_uint 32 (IndexedEntryCount e).

Section Commit.

(** The commit magic is a 16-bit constant declared outside tbtree.go;
    the functions below take it as a parameter. *)
Variable CommitMagic : Z.

Definition putCommitEntry (e : CommitEntry) (buf : list Z) : option (list Z) :=
  let off := 0%nat in
  buf ← PutUint32 buf off 0;
  let off := (off + 4)%nat in
  buf ← PutUint64 buf off (CTs e);
  let off := (off + 8)%nat in
  buf ← PutUint64 buf off (HLogLastEntryOff e);
  let off := (off + 8)%nat in
  buf ← PutUint32 buf off (HLogLastEntryChecksum e);
  let off := (off + 4)%nat in
  buf ← PutUint64 buf off (TotalPages e);
  let off := (off + 8)%nat in
  buf ← PutUint32 buf off (StalePages e);
  let off := (off + 4)%nat in
  buf ← PutUint32 buf off (IndexedEntryCount e);
  let off := (off + 4)%nat in
  buf ← PutUint16 buf off CommitMagic;
  let checksum := computeChecksum (drop ChecksumSize buf) in
  PutUint32 buf 0 checksum.

(** [assert(len(buf) == CommitEntrySize)] panics; a checksum mismatch
    returns the entry read so far together with [ErrCorruptedEntry]. *)
Definition readCommitEntry (buf : list Z) : result CommitEntry :=
  if negb (length buf =? CommitEntrySize)%nat then Panic "buf is too small" else
  let get (o : option Z) := default 0 o in
  let off := 0%nat in
  let checksum := get (Uint32 buf off) in
  let off := (off + 4)%nat in
  let ts := get (Uint64 buf off) in
  let off := (off + 8)%nat in
  let hoff := get (Uint64 buf off) in
  let off := (off + 8)%nat in
  let hck := get (Uint32 buf off) in
  let off := (off + 4)%nat in
  let total := get (Uint64 buf off) in
  let off := (off + 8)%nat in
  let stale := get (Uint32 buf off) in
  let off := (off + 4)%nat in
  let idx := get (Uint32 buf off) in
  if negb (computeChecksum (drop ChecksumSize buf) =? checksum)
  then Err ErrCorruptedEntry
  else Ok (mkCommitEntry checksum ts hoff hck total stale idx).

Definition findMagic (buf : list Z) : Z :=
  if (length buf <? 2)%nat then -1 else
  let m0 := Z.land (Z.shiftr CommitMagic 8) 255 in
  let m1 := Z.land CommitMagic 255 in
  let at_ (i : nat) := default 0 (buf !! i) in
  (* for i := len(buf)-2; i >= 1; i-- *)
  let fix scan (i : nat) : option nat :=
    match i with
    | O => None
    | S j => if (at_ i =? m1) && (at_ j =? m0) then Some i else scan j
    end in
  match scan (length buf - 2)%nat with
  | Some i => Z.of_nat i
  | None => if at_ 0%nat =? m1 then 0 else -1
  end.

End Commit.

(** ** The append log *)

(** Modelled from the spec: the appendable package lives outside
    tbtree.go.  "A file abstraction providing Append(bytes) ->
    (offset, n), Flush, Sync, ReadAt(buf, off), Size, SetOffset(off)
    (truncates logical size for recovery), Close ... Fails with
    AlreadyClosed on use after close; ReadAt beyond logical end fails with
    ShortRead."  The log is its byte content; buffering is not observable
    by the tree and is left out. *)
Record Appendable : Type := mkApp {
  appData : list Z;
  appClosed : bool;
}.

Definition emptyApp : Appendable := mkApp [] false.

Definition app_Size (a : Appendable) : result Z :=
  if appClosed a then Err ErrAlreadyClosed else Ok (Z.of_nat (length (appData a))).

(** Returns the offset the bytes were written at and their number. *)
Definition app_Append (a : Appendable) (bs : list Z) : result (Z * Z) * Appendable :=
  if appClosed a then (Err ErrAlreadyClosed, a)
  else (Ok (Z.of_nat (length (appData a)), Z.of_nat (length bs)),
        mkApp (appData a ++ bs) false).

Definition app_Flush (a : Appendable) : result unit :=
  if appClosed a then Err ErrAlreadyClosed else Ok tt.

Definition app_Sync (a : Appendable) : result unit :=
  if appClosed a then Err ErrAlreadyClosed else Ok tt.

(** [ReadAt(buf, off)] with [len(buf) = n]. *)
Definition app_ReadAt (a : Appendable) (n : Z) (off : Z) : result (list Z) :=
  if appClosed a then Err ErrAlreadyClosed
  else if (off <? 0) || (n <? 0) then Err ErrIllegalArguments
  else if Z.of_nat (length (appData a)) <? off + n then Err ErrShortRead
  else Ok (take (Z.to_nat n) (drop (Z.to_nat off) (appData a))).

Definition app_SetOffset (a : Appendable) (off : Z) : result unit * Appendable :=
  if appClosed a then (Err ErrAlreadyClosed, a)
  else if (off <? 0) || (Z.of_nat (length (appData a)) <? off) then (Err ErrIllegalArguments, a)
  else (Ok tt, mkApp (take (Z.to_nat off) (appData a)) false).

(** ** The page layer consumed by the tree *)

Definition PageID : Type := Z.

(** Modelled from the spec: page ids are declared with the page codec.
    "Two disjoint ranges: in-memory ids (a high bit or reserved range)
    pointing into the write buffer, and persistent ids equal to the file
    offset of the page's end-of-write in the tree log.  A reserved value
    PageNone means absent."  The high bit marks in-memory ids; the arena
    slot is the rest of the id. *)
Definition memPageBit : Z := 2 ^ 63.
Definition PageNone : PageID := 2 ^ 64 - 1.
Definition isMemPage (id : PageID) : bool := Z.testbit id 63.
Definition memPageID (slot : nat) : PageID := memPageBit + Z.of_nat slot.
Definition memSlot (id : PageID) : nat := Z.to_nat (id - memPageBit).

(** Modelled from the spec: "a sentinel OffsetNone when none". *)
Definition OffsetNone : Z := 2 ^ 64 - 1.

Record Entry : Type := mkEntry {
  Key : string;
  Value : string;
  Ts : Z;
  HOff : Z;
  HC : Z;
}.

Record HistoryEntry : Type := mkHistoryEntry {
  PrevOffset : Z;
  HTs : Z;
  HValue : string;
}.

(** Modelled from the spec: the page type is declared with the page
    codec.  "Leaf page: ordered sequence of entries ... Inner page:
    ordered sequence of (separator-key, child-pageID) plus a left-most
    child, producing n+1 children for n keys ... header: type tag, flags
    (root bit, copied bit), numEntries."  [children] lists the left-most
    child first; [keys] is the slot directory of an inner page, of which
    the first [NumEntries] are live. *)
Record Page : Type := mkPage {
  IsLeaf : bool;
  IsRoot : bool;
  IsCopied : bool;
  NumEntries : nat;
  entries : list Entry;
  keys : list string;
  children : list PageID;
}.

Definition emptyLeaf : Page := mkPage true false false 0 [] [] [].
(** A fresh inner page has no separator and its left-most child slot. *)
Definition emptyInner : Page := mkPage false false false 0 [] [] [PageNone].

Definition SetAsRoot (pg : Page) : Page :=
  mkPage (IsLeaf pg) true (IsCopied pg) (NumEntries pg) (entries pg) (keys pg) (children pg).
Definition SetCopied (pg : Page) : Page :=
  mkPage (IsLeaf pg) (IsRoot pg) true (NumEntries pg) (entries pg) (keys pg) (children pg).
Definition withEntries (pg : Page) (es : list Entry) : Page :=
  mkPage (IsLeaf pg) (IsRoot pg) (IsCopied pg) (length es) es (keys pg) (children pg).
Definition withInner (pg : Page) (n : nat) (ks : list string) (cs : list PageID) : Page :=
  mkPage (IsLeaf pg) (IsRoot pg) (IsCopied pg) n (entries pg) ks cs.

(** Modelled from the spec: child [i] of an inner page, [0 <= i <=
    NumEntries], the left-most child being child 0. *)
Definition ChildPageAt (pg : Page) (i : nat) : PageID := default PageNone (children pg !! i).
Definition SetPageID (pg : Page) (i : nat) (id : PageID) : Page :=
  withInner pg (NumEntries pg) (keys pg) (<[i := id]> (children pg)).

Definition firstKey (pg : Page) : string := default "" (Key <$> head (entries pg)).
Definition keyAt (pg : Page) (i : nat) : string := default "" (keys pg !! i).

(** Modelled from the spec: a history page.  "History page: append-only
    chain of HistoryEntry records.  Each history page holds a nextPageID
    link forming a singly-linked chain during a write batch." *)
Record HistoryPage : Type := mkHistoryPage {
  hpData : list Z;
  hpNext : PageID;
}.

Definition emptyHistoryPage : HistoryPage := mkHistoryPage [] PageNone.

Definition bytes_of_string (s : string) : list Z :=
  (fun a => Z.of_nat (Ascii.nat_of_ascii a)) <$> String.list_ascii_of_string s.

(** "HistoryEntry: prevOffset:u64 | ts:u64 | valueLen:u16 | value" *)
Definition encodeHistoryEntry (he : HistoryEntry) : list Z :=
  be_bytes 8 (PrevOffset he) ++ be_bytes 8 (HTs he) ++
  be_bytes 2 (Z.of_nat (String.length (HValue he))) ++ bytes_of_string (HValue he).

(** What the page codec and the page buffer, declared outside
    tbtree.go, decide: the byte image of a page, the capacity of the
    fixed-size page, and whether the page buffer has a slot to give.  The
    tree is modelled over any such layout. *)
Class Layout : Type := {
  (** the 16-bit commit magic *)
  CommitMagic : Z;
  (** [pg.Put(buf)]: the bytes of [buf] after the call and the written length *)
  Put : Page -> list Z -> Z * list Z;
  (** [expandToFixedPage(buf)]: the buffer after the call, [None] on a malformed page *)
  expandToFixedPage : list Z -> option (list Z);
  (** [PageFromBytes(buf)] *)
  PageFromBytes : list Z -> Page;
  (** whether these entries fit a leaf, these separators an inner page,
      this payload a history page *)
  leafFits : list Entry -> bool;
  innerFits : list string -> bool;
  historyFits : list Z -> bool;
  (** whether the page buffer, asked for this page, finds every slot
      pinned *)
  pgBufExhausted : PageID -> bool;
}.

Section Pages.
Context `{Layout}.

(** *** Leaf pages *)

Fixpoint insertSorted (e : Entry) (es : list Entry) : list Entry :=
  match es with
  | [] => [e]
  | x :: rest =>
      if String.ltb (Key e) (Key x) then e :: es else x :: insertSorted e rest
  end.

Definition hasKey (key : string) (e : Entry) : bool := String.eqb (Key e) key.

Definition GetEntry (pg : Page) (key : string) : result Entry :=
  match find (hasKey key) (entries pg) with
  | Some e => Ok e
  | None => Err ErrKeyNotFound
  end.

Definition replaceEntry (e : Entry) (es : list Entry) : list Entry :=
  (fun x => if hasKey (Key e) x then e else x) <$> es.

(** Modelled from the spec: "Inserted new key: page records (ts,
    hOff=OffsetNone, hC=0, value).  Replaced existing key: ... update the
    leaf entry" (the history fields are set by [UpdateHistory] once the
    prior entry is archived); [ErrPageFull] when the page cannot hold
    the result.  Returns the page, the prior entry and whether one was
    replaced. *)
Definition InsertEntry (pg : Page) (e : Entry) : result (Page * (Entry * bool)) :=
  match find (hasKey (Key e)) (entries pg) with
  | Some prev =>
      let es := replaceEntry (mkEntry (Key e) (Value e) (Ts e) (HOff prev) (HC prev)) (entries pg) in
      if leafFits es then Ok (withEntries pg es, (prev, true)) else Err ErrPageFull
  | None =>
      let es := insertSorted (mkEntry (Key e) (Value e) (Ts e) OffsetNone 0) (entries pg) in
      if leafFits es then Ok (withEntries pg es, (e, false)) else Err ErrPageFull
  end.

(** Modelled from the spec: "update the leaf entry to (ts,
    hOff=archivedOffset, hC=prevHC+1, value)". *)
Definition UpdateHistory (pg : Page) (key : string) (hoff : Z) : Page :=
  withEntries pg
    ((fun x => if hasKey key x
               then mkEntry (Key x) (Value x) (Ts x) hoff (wrap64 (HC x + 1)) else x)
       <$> entries pg).

Definition Remove (pg : Page) (key : string) : result (Page * Entry) :=
  match find (hasKey key) (entries pg) with
  | Some prev => Ok (withEntries pg (filter (fun x => negb (hasKey key x)) (entries pg)), prev)
  | None => Err ErrKeyNotFound
  end.

(** Modelled from the spec: "Allocate a new leaf; move the upper half to
    it"; the new entry goes to the half its key belongs to, and a key
    with no prior version is recorded with hOff=OffsetNone.  Returns the
    page and its new right sibling. *)
Definition Page_splitLeafPage (pg splitPage : Page) (e : Entry) : Page * Page :=
  let e := if HC e =? 0 then mkEntry (Key e) (Value e) (Ts e) OffsetNone 0 else e in
  let es := insertSorted e (entries pg) in
  let m := (length es / 2)%nat in
  (withEntries pg (take m es), withEntries splitPage (drop m es)).

(** *** Inner pages *)

(** The child a key belongs to: the number of separators not above it
    ("child i contains only keys k with s_i <= k < s_(i+1)"). *)
Definition childIndex (pg : Page) (key : string) : nat :=
  length (filter (fun s => String.leb s key) (take (NumEntries pg) (keys pg))).

Definition Find (pg : Page) (key : string) : result (nat * PageID) :=
  let idx := childIndex pg key in
  match children pg !! idx with
  | Some id => Ok (idx, id)
  | None => Err ErrCorruptedPage
  end.

Definition insertAt {A} (i : nat) (x : A) (l : list A) : list A :=
  take i l ++ x :: drop i l.

(** Modelled from the spec: the separator is inserted in key order and
    the given child becomes the child to its right. *)
Definition InsertKey (pg : Page) (key : string) (id : PageID) : result (Page * nat) :=
  let live := take (NumEntries pg) (keys pg) in
  let idx := childIndex pg key in
  let ks := insertAt idx key live in
  if innerFits ks
  then Ok (withInner pg (length ks) ks (insertAt (S idx) id (children pg)), idx)
  else Err ErrPageFull.

(** Modelled from the spec: "on inner-page overflow, allocate a new
    inner page, move the right half ... the middle separator lifted
    out".  The lifted separator stays in slot [NumEntries] of the left
    page, where [sepKey] reads it. *)
Definition Page_splitInnerPage (pg splitPage : Page) (sepKey : string)
    (splitPageID newPageID : PageID) : Page * Page :=
  let live := take (NumEntries pg) (keys pg) in
  let idx := childIndex pg sepKey in
  let ks := insertAt idx sepKey live in
  let cs := insertAt (S idx) splitPageID (<[idx := newPageID]> (children pg)) in
  let m := (length ks / 2)%nat in
  (withInner pg m (take (S m) ks) (take (S m) cs),
   withInner splitPage (length ks - S m) (drop (S m) ks) (drop (S m) cs)).

(** *** History pages *)

(** Returns the page and the number of bytes appended. *)
Definition HistoryPage_Append (hp : HistoryPage) (he : HistoryEntry) : result (HistoryPage * Z) :=
  let bs := encodeHistoryEntry he in
  if historyFits (hpData hp ++ bs)
  then Ok (mkHistoryPage (hpData hp ++ bs) (hpNext hp), Z.of_nat (length bs))
  else Err ErrPageFull.

Definition SetNextPageID (hp : HistoryPage) (id : PageID) : HistoryPage :=
  mkHistoryPage (hpData hp) id.

End Pages.

(** *** The write buffer *)

Inductive MemPage : Type :=
  | TreePage (pg : Page)
  | HistPage (hp : HistoryPage).

(** Modelled from the spec: the write buffer is declared outside
    tbtree.go.  "The write buffer vends three kinds of fresh mem-pages:
    leaf, inner, history.  Each vended page is addressable by an in-memory
    PageID and may be mutated in place ... GetOrDup(pgID, loader) returns
    the mem-page for pgID if it is already in-memory, or allocates a new
    mem-page, copies the on-disk page into it via loader, marks the
    original id as stale on next flush, and returns the new id.  Grow(n)
    requests that n additional free pages be reservable; returns false
    when the arena is exhausted.  Reset() frees all mem-pages."  The arena
    is the list of vended pages, slot [i] having id [memPageID i], and a
    bound on their number. *)
Record WriteBuffer : Type := mkWriteBuffer {
  wbPages : list MemPage;
  wbMaxPages : nat;
}.

Definition wb_Grow (wb : WriteBuffer) (n : Z) : bool :=
  Z.of_nat (length (wbPages wb)) + n <=? Z.of_nat (wbMaxPages wb).

Definition wb_alloc (wb : WriteBuffer) (mp : MemPage) : result PageID * WriteBuffer :=
  if (length (wbPages wb) <? wbMaxPages wb)%nat
  then (Ok (memPageID (length (wbPages wb))), mkWriteBuffer (wbPages wb ++ [mp]) (wbMaxPages wb))
  else (Err ErrWriteBufferFull, wb).

Definition wb_AllocLeafPage (wb : WriteBuffer) := wb_alloc wb (TreePage emptyLeaf).
Definition wb_AllocInnerPage (wb : WriteBuffer) := wb_alloc wb (TreePage emptyInner).
Definition wb_AllocHistoryPage (wb : WriteBuffer) := wb_alloc wb (HistPage emptyHistoryPage).

Definition wb_Get (wb : WriteBuffer) (id : PageID) : result Page :=
  if negb (isMemPage id) then Err ErrNotInMemPage else
  match wbPages wb !! memSlot id with
  | Some (TreePage pg) => Ok pg
  | _ => Err ErrInvalidPageID
  end.

Definition wb_GetHistoryPage (wb : WriteBuffer) (id : PageID) : result HistoryPage :=
  if negb (isMemPage id) then Err ErrNotInMemPage else
  match wbPages wb !! memSlot id with
  | Some (HistPage hp) => Ok hp
  | _ => Err ErrInvalidPageID
  end.

(** Writing through the pointer [wb.Get] returned. *)
Definition wb_store (wb : WriteBuffer) (id : PageID) (mp : MemPage) : WriteBuffer :=
  mkWriteBuffer (<[memSlot id := mp]> (wbPages wb)) (wbMaxPages wb).

Definition wb_GetOrDup (wb : WriteBuffer) (id : PageID) (loader : PageID -> result Page)
    : result (Page * PageID) * WriteBuffer :=
  if isMemPage id then
    match wb_Get wb id with
    | Ok pg => (Ok (pg, id), wb)
    | Err e => (Err e, wb)
    | Panic m => (Panic m, wb)
    | Diverged => (Diverged, wb)
    end
  else if negb (length (wbPages wb) <? wbMaxPages wb)%nat then (Err ErrWriteBufferFull, wb)
  else
    match loader id with
    | Ok pg =>
        let pg := SetCopied pg in
        (Ok (pg, memPageID (length (wbPages wb))),
         mkWriteBuffer (wbPages wb ++ [TreePage pg]) (wbMaxPages wb))
    | Err e => (Err e, wb)
    | Panic m => (Panic m, wb)
    | Diverged => (Diverged, wb)
    end.

Definition wb_Reset (wb : WriteBuffer) : WriteBuffer := mkWriteBuffer [] (wbMaxPages wb).

(** ** The tree *)

(** What the logger receives: level, format string and arguments. *)
Inductive LogLevel : Type := LInfo | LWarning.
Inductive LogArg : Type := AStr (s : string) | AInt (z : Z) | AErr (e : error).
Record LogMsg : Type := mkLogMsg {
  logLevel : LogLevel;
  logFormat : string;
  logArgs : list LogArg;
}.

(** The fields of the Go struct the functions below read or write.
    [mtx] tells whether the write lock is held; the atomics are plain
    fields; the page buffer is a read-through cache of the tree log and
    has no state of its own here; [logged] collects what went to the
    logger. *)
Record TBTree : Type := mkTBTree {
  mtx : bool;
  path : string;
  id : Z;
  mutated : bool;
  logged : list LogMsg;
  wb : WriteBuffer;
  rootID : PageID;
  lastSnapshotID : PageID;
  rootTs : Z;
  lastSnapshotTs : Z;
  indexedEntryCount : Z;
  headHistoryPageID : PageID;
  tailHistoryPageID : PageID;
  bufferedHistoryData : Z;
  treeApp : Appendable;
  historyApp : Appendable;
  numPages : Z;
  stalePages : Z;
  nSplits : Z;
  depth : Z;
  snapshotCount : Z;
  maxActiveSnapshots : Z;
  syncThld : Z;
  unsyncedBytes : Z;
  readOnly : bool;
}.

(** Field updates. *)
Definition set_mtx (v : bool) (t : TBTree) : TBTree :=
  mkTBTree v (path t) (id t) (mutated t) (logged t) (wb t) (rootID t) (lastSnapshotID t) (rootTs t) (lastSnapshotTs t) (indexedEntryCount t) (headHistoryPageID t) (tailHistoryPageID t) (bufferedHistoryData t) (treeApp t) (historyApp t) (numPages t) (stalePages t) (nSplits t) (depth t) (snapshotCount t) (maxActiveSnapshots t) (syncThld t) (unsyncedBytes t) (readOnly t).
Definition set_path (v : string) (t : TBTree) : TBTree :=
  mkTBTree (mtx t) v (id t) (mutated t) (logged t) (wb t) (rootID t) (lastSnapshotID t) (rootTs t) (lastSnapshotTs t) (indexedEntryCount t) (headHistoryPageID t) (tailHistoryPageID t) (bufferedHistoryData t) (treeApp t) (historyApp t) (numPages t) (stalePages t) (nSplits t) (depth t) (snapshotCount t) (maxActiveSnapshots t) (syncThld t) (unsyncedBytes t) (readOnly t).
Definition set_id (v : Z) (t : TBTree) : TBTree :=
  mkTBTree (mtx t) (path t) v (mutated t) (logged t) (wb t) (rootID t) (lastSnapshotID t) (rootTs t) (lastSnapshotTs t) (indexedEntryCount t) (headHistoryPageID t) (tailHistoryPageID t) (bufferedHistoryData t) (treeApp t) (historyApp t) (numPages t) (stalePages t) (nSplits t) (depth t) (snapshotCount t) (maxActiveSnapshots t) (syncThld t) (unsyncedBytes t) (readOnly t).
Definition set_mutated (v : bool) (t : TBTree) : TBTree :=
  mkTBTree (mtx t) (path t) (id t) v (logged t) (wb t) (rootID t) (lastSnapshotID t) (rootTs t) (lastSnapshotTs t) (indexedEntryCount t) (headHistoryPageID t) (tailHistoryPageID t) (bufferedHistoryData t) (treeApp t) (historyApp t) (numPages t) (stalePages t) (nSplits t) (depth t) (snapshotCount t) (maxActiveSnapshots t) (syncThld t) (unsyncedBytes t) (readOnly t).
Definition set_logged (v : list LogMsg) (t : TBTree) : TBTree :=
  mkTBTree (mtx t) (path t) (id t) (mutated t) v (wb t) (rootID t) (lastSnapshotID t) (rootTs t) (lastSnapshotTs t) (indexedEntryCount t) (headHistoryPageID t) (tailHistoryPageID t) (bufferedHistoryData t) (treeApp t) (historyApp t) (numPages t) (stalePages t) (nSplits t) (depth t) (snapshotCount t) (maxActiveSnapshots t) (syncThld t) (unsyncedBytes t) (readOnly t).
Definition set_wb (v : WriteBuffer) (t : TBTree) : TBTree :=
  mkTBTree (mtx t) (path t) (id t) (mutated t) (logged t) v (rootID t) (lastSnapshotID t) (rootTs t) (lastSnapshotTs t) (indexedEntryCount t) (headHistoryPageID t) (tailHistoryPageID t) (bufferedHistoryData t) (treeApp t) (historyApp t) (numPages t) (stalePages t) (nSplits t) (depth t) (snapshotCount t) (maxActiveSnapshots t) (syncThld t) (unsyncedBytes t) (readOnly t).
Definition set_rootID (v : PageID) (t : TBTree) : TBTree :=
  mkTBTree (mtx t) (path t) (id t) (mutated t) (logged t) (wb t) v (lastSnapshotID t) (rootTs t) (lastSnapshotTs t) (indexedEntryCount t) (headHistoryPageID t) (tailHistoryPageID t) (bufferedHistoryData t) (treeApp t) (historyApp t) (numPages t) (stalePages t) (nSplits t) (depth t) (snapshotCount t) (maxActiveSnapshots t) (syncThld t) (unsyncedBytes t) (readOnly t).
Definition set_lastSnapshotID (v : PageID) (t : TBTree) : TBTree :=
  mkTBTree (mtx t) (path t) (id t) (mutated t) (logged t) (wb t) (rootID t) v (rootTs t) (lastSnapshotTs t) (indexedEntryCount t) (headHistoryPageID t) (tailHistoryPageID t) (bufferedHistoryData t) (treeApp t) (historyApp t) (numPages t) (stalePages t) (nSplits t) (depth t) (snapshotCount t) (maxActiveSnapshots t) (syncThld t) (unsyncedBytes t) (readOnly t).
Definition set_rootTs (v : Z) (t : TBTree) : TBTree :=
  mkTBTree (mtx t) (path t) (id t) (mutated t) (logged t) (wb t) (rootID t) (lastSnapshotID t) v (lastSnapshotTs t) (indexedEntryCount t) (headHistoryPageID t) (tailHistoryPageID t) (bufferedHistoryData t) (treeApp t) (historyApp t) (numPages t) (stalePages t) (nSplits t) (depth t) (snapshotCount t) (maxActiveSnapshots t) (syncThld t) (unsyncedBytes t) (readOnly t).
Definition set_lastSnapshotTs (v : Z) (t : TBTree) : TBTree :=
  mkTBTree (mtx t) (path t) (id t) (mutated t) (logged t) (wb t) (rootID t) (lastSnapshotID t) (rootTs t) v (indexedEntryCount t) (headHistoryPageID t) (tailHistoryPageID t) (bufferedHistoryData t) (treeApp t) (historyApp t) (numPages t) (stalePages t) (nSplits t) (depth t) (snapshotCount t) (maxActiveSnapshots t) (syncThld t) (unsyncedBytes t) (readOnly t).
Definition set_indexedEntryCount (v : Z) (t : TBTree) : TBTree :=
  mkTBTree (mtx t) (path t) (id t) (mutated t) (logged t) (wb t) (rootID t) (lastSnapshotID t) (rootTs t) (lastSnapshotTs t) v (headHistoryPageID t) (tailHistoryPageID t) (bufferedHistoryData t) (treeApp t) (historyApp t) (numPages t) (stalePages t) (nSplits t) (depth t) (snapshotCount t) (maxActiveSnapshots t) (syncThld t) (unsyncedBytes t) (readOnly t).
Definition set_headHistoryPageID (v : PageID) (t : TBTree) : TBTree :=
  mkTBTree (mtx t) (path t) (id t) (mutated t) (logged t) (wb t) (rootID t) (lastSnapshotID t) (rootTs t) (lastSnapshotTs t) (indexedEntryCount t) v (tailHistoryPageID t) (bufferedHistoryData t) (treeApp t) (historyApp t) (numPages t) (stalePages t) (nSplits t) (depth t) (snapshotCount t) (maxActiveSnapshots t) (syncThld t) (unsyncedBytes t) (readOnly t).
Definition set_tailHistoryPageID (v : PageID) (t : TBTree) : TBTree :=
  mkTBTree (mtx t) (path t) (id t) (mutated t) (logged t) (wb t) (rootID t) (lastSnapshotID t) (rootTs t) (lastSnapshotTs t) (indexedEntryCount t) (headHistoryPageID t) v (bufferedHistoryData t) (treeApp t) (historyApp t) (numPages t) (stalePages t) (nSplits t) (depth t) (snapshotCount t) (maxActiveSnapshots t) (syncThld t) (unsyncedBytes t) (readOnly t).
Definition set_bufferedHistoryData (v : Z) (t : TBTree) : TBTree :=
  mkTBTree (mtx t) (path t) (id t) (mutated t) (logged t) (wb t) (rootID t) (lastSnapshotID t) (rootTs t) (lastSnapshotTs t) (indexedEntryCount t) (headHistoryPageID t) (tailHistoryPageID t) v (treeApp t) (historyApp t) (numPages t) (stalePages t) (nSplits t) (depth t) (snapshotCount t) (maxActiveSnapshots t) (syncThld t) (unsyncedBytes t) (readOnly t).
Definition set_treeApp (v : Appendable) (t : TBTree) : TBTree :=
  mkTBTree (mtx t) (path t) (id t) (mutated t) (logged t) (wb t) (rootID t) (lastSnapshotID t) (rootTs t) (lastSnapshotTs t) (indexedEntryCount t) (headHistoryPageID t) (tailHistoryPageID t) (bufferedHistoryData t) v (historyApp t) (numPages t) (stalePages t) (nSplits t) (depth t) (snapshotCount t) (maxActiveSnapshots t) (syncThld t) (unsyncedBytes t) (readOnly t).
Definition set_historyApp (v : Appendable) (t : TBTree) : TBTree :=
  mkTBTree (mtx t) (path t) (id t) (mutated t) (logged t) (wb t) (rootID t) (lastSnapshotID t) (rootTs t) (lastSnapshotTs t) (indexedEntryCount t) (headHistoryPageID t) (tailHistoryPageID t) (bufferedHistoryData t) (treeApp t) v (numPages t) (stalePages t) (nSplits t) (depth t) (snapshotCount t) (maxActiveSnapshots t) (syncThld t) (unsyncedBytes t) (readOnly t).
Definition set_numPages (v : Z) (t : TBTree) : TBTree :=
  mkTBTree (mtx t) (path t) (id t) (mutated t) (logged t) (wb t) (rootID t) (lastSnapshotID t) (rootTs t) (lastSnapshotTs t) (indexedEntryCount t) (headHistoryPageID t) (tailHistoryPageID t) (bufferedHistoryData t) (treeApp t) (historyApp t) v (stalePages t) (nSplits t) (depth t) (snapshotCount t) (maxActiveSnapshots t) (syncThld t) (unsyncedBytes t) (readOnly t).
Definition set_stalePages (v : Z) (t : TBTree) : TBTree :=
  mkTBTree (mtx t) (path t) (id t) (mutated t) (logged t) (wb t) (rootID t) (lastSnapshotID t) (rootTs t) (lastSnapshotTs t) (indexedEntryCount t) (headHistoryPageID t) (tailHistoryPageID t) (bufferedHistoryData t) (treeApp t) (historyApp t) (numPages t) v (nSplits t) (depth t) (snapshotCount t) (maxActiveSnapshots t) (syncThld t) (unsyncedBytes t) (readOnly t).
Definition set_nSplits (v : Z) (t : TBTree) : TBTree :=
  mkTBTree (mtx t) (path t) (id t) (mutated t) (logged t) (wb t) (rootID t) (lastSnapshotID t) (rootTs t) (lastSnapshotTs t) (indexedEntryCount t) (headHistoryPageID t) (tailHistoryPageID t) (bufferedHistoryData t) (treeApp t) (historyApp t) (numPages t) (stalePages t) v (depth t) (snapshotCount t) (maxActiveSnapshots t) (syncThld t) (unsyncedBytes t) (readOnly t).
Definition set_depth (v : Z) (t : TBTree) : TBTree :=
  mkTBTree (mtx t) (path t) (id t) (mutated t) (logged t) (wb t) (rootID t) (lastSnapshotID t) (rootTs t) (lastSnapshotTs t) (indexedEntryCount t) (headHistoryPageID t) (tailHistoryPageID t) (bufferedHistoryData t) (treeApp t) (historyApp t) (numPages t) (stalePages t) (nSplits t) v (snapshotCount t) (maxActiveSnapshots t) (syncThld t) (unsyncedBytes t) (readOnly t).
Definition set_snapshotCount (v : Z) (t : TBTree) : TBTree :=
  mkTBTree (mtx t) (path t) (id t) (mutated t) (logged t) (wb t) (rootID t) (lastSnapshotID t) (rootTs t) (lastSnapshotTs t) (indexedEntryCount t) (headHistoryPageID t) (tailHistoryPageID t) (bufferedHistoryData t) (treeApp t) (historyApp t) (numPages t) (stalePages t) (nSplits t) (depth t) v (maxActiveSnapshots t) (syncThld t) (unsyncedBytes t) (readOnly t).
Definition set_maxActiveSnapshots (v : Z) (t : TBTree) : TBTree :=
  mkTBTree (mtx t) (path t) (id t) (mutated t) (logged t) (wb t) (rootID t) (lastSnapshotID t) (rootTs t) (lastSnapshotTs t) (indexedEntryCount t) (headHistoryPageID t) (tailHistoryPageID t) (bufferedHistoryData t) (treeApp t) (historyApp t) (numPages t) (stalePages t) (nSplits t) (depth t) (snapshotCount t) v (syncThld t) (unsyncedBytes t) (readOnly t).
Definition set_syncThld (v : Z) (t : TBTree) : TBTree :=
  mkTBTree (mtx t) (path t) (id t) (mutated t) (logged t) (wb t) (rootID t) (lastSnapshotID t) (rootTs t) (lastSnapshotTs t) (indexedEntryCount t) (headHistoryPageID t) (tailHistoryPageID t) (bufferedHistoryData t) (treeApp t) (historyApp t) (numPages t) (stalePages t) (nSplits t) (depth t) (snapshotCount t) (maxActiveSnapshots t) v (unsyncedBytes t) (readOnly t).
Definition set_unsyncedBytes (v : Z) (t : TBTree) : TBTree :=
  mkTBTree (mtx t) (path t) (id t) (mutated t) (logged t) (wb t) (rootID t) (lastSnapshotID t) (rootTs t) (lastSnapshotTs t) (indexedEntryCount t) (headHistoryPageID t) (tailHistoryPageID t) (bufferedHistoryData t) (treeApp t) (historyApp t) (numPages t) (stalePages t) (nSplits t) (depth t) (snapshotCount t) (maxActiveSnapshots t) (syncThld t) v (readOnly t).
Definition set_readOnly (v : bool) (t : TBTree) : TBTree :=
  mkTBTree (mtx t) (path t) (id t) (mutated t) (logged t) (wb t) (rootID t) (lastSnapshotID t) (rootTs t) (lastSnapshotTs t) (indexedEntryCount t) (headHistoryPageID t) (tailHistoryPageID t) (bufferedHistoryData t) (treeApp t) (historyApp t) (numPages t) (stalePages t) (nSplits t) (depth t) (snapshotCount t) (maxActiveSnapshots t) (syncThld t) (unsyncedBytes t) v.

(** *** The monad of tree methods: a state, and a Go outcome *)

Definition ST (S A : Type) : Type := S -> result A * S.
Definition M (A : Type) : Type := ST TBTree A.

Definition ret {S A} (a : A) : ST S A := fun s => (Ok a, s).
Definition failWith {S A} (e : error) : ST S A := fun s => (Err e, s).
Definition panic {S A} (msg : string) : ST S A := fun s => (Panic msg, s).
Definition diverge {S A} : ST S A := fun s => (Diverged, s).
Definition lift {S A} (r : result A) : ST S A := fun s => (r, s).
Definition gets {S A} (f : S -> A) : ST S A := fun s => (Ok (f s), s).
Definition modify {S} (f : S -> S) : ST S unit := fun s => (Ok tt, f s).

Definition bind {S A B} (m : ST S A) (k : A -> ST S B) : ST S B := fun s =>
  match m s with
  | (Ok a, s') => k a s'
  | (Err e, s') => (Err e, s')
  | (Panic msg, s') => (Panic msg, s')
  | (Diverged, s') => (Diverged, s')
  end.

(** [x, err := m; if err != nil { h(err) }]: the continuation sees the error. *)
Definition attempt {S A} (m : ST S A) : ST S (result A) := fun s =>
  match m s with
  | (Panic msg, s') => (Panic msg, s')
  | (Diverged, s') => (Diverged, s')
  | (r, s') => (Ok r, s')
  end.

Notation "x <~ m ;; k" := (bind m (fun x => k))
  (at level 100, m at next level, right associativity, only parsing).
Notation "m ;;; k" := (bind m (fun _ => k))
  (at level 100, right associativity, only parsing).

Definition logf (lvl : LogLevel) (fmt : string) (args : list LogArg) : M unit :=
  modify (fun t => set_logged (logged t ++ [mkLogMsg lvl fmt args]) t).

(** [t.mtx.TryLock()] *)
Definition TryLock : M bool := fun t =>
  if mtx t then (Ok false, t) else (Ok true, set_mtx true t).

(** [t.mtx.Lock()]: with the lock held elsewhere the call does not
    return in a sequential run. *)
Definition Lock : M unit := fun t =>
  if mtx t then (Diverged, t) else (Ok tt, set_mtx true t).

Definition Unlock : M unit := modify (set_mtx false).

(** [defer f()]: [f] runs however the body ends. *)
Definition defer {A} (f : TBTree -> TBTree) (body : M A) : M A := fun t =>
  let '(r, t') := body t in (r, f t').

Definition rootPageID : M PageID := gets rootID.
Definition lastSnapshotRootID : M PageID := gets lastSnapshotID.

(** *** Options and the environment of [Open] *)

Record DirEntry : Type := mkDirEntry {
  Name : string;
  IsDir : bool;
}.

(** The options [Open] and [OpenWith] read.  [Validate] is declared
    with the options type, outside tbtree.go; [optInvalid] is the error
    it returns, if any.  [appFactory path subPath ext] and [readDir path]
    are the consumed interfaces. *)
Record Options : Type := mkOptions {
  optInvalid : option error;
  optReadOnly : bool;
  optID : Z;
  optWB : WriteBuffer;
  optMaxActiveSnapshots : Z;
  optSyncThld : Z;
  appFactory : string -> string -> string -> result Appendable;
  readDir : string -> result (list DirEntry);
}.

(** What [Open] does to its environment: messages to [opts.logger] and
    the directories handed to [opts.appRemove]. *)
Record World : Type := mkWorld {
  wLogged : list LogMsg;
  wRemoved : list (string * string);
}.

Definition emptyWorld : World := mkWorld [] [].

(** *** strings and strconv *)

(** [strings.Split(s, sep)] for a one-character separator. *)
Fixpoint Split (sep : Ascii.ascii) (s : string) : list string :=
  match s with
  | EmptyString => [EmptyString]
  | String c rest =>
      if Ascii.eqb c sep then EmptyString :: Split sep rest
      else match Split sep rest with
           | h :: tl => String c h :: tl
           | [] => [String c EmptyString]
           end
  end.

Fixpoint parseDigits (s : string) (acc : Z) : option Z :=
  match s with
  | EmptyString => Some acc
  | String c rest =>
      match Ascii.is_nat c with
      | Some d => parseDigits rest (acc * 10 + Z.of_nat d)
      | None => None
      end
  end.

(** [strconv.ParseUint(s, 10, 64)]; [None] is a syntax or range error. *)
Definition ParseUint (s : string) : option Z :=
  if String.eqb s "" then None else
  match parseDigits s 0 with
  | Some v => if v <? 2 ^ 64 then Some v else None
  | None => None
  end.

(** The test the loop of [recoverLatestValidTreeSnapshot] applies to a
    directory entry: the snapshot timestamp when the entry is a
    directory named [tree_<ts>]. *)
Definition snapshotTs (e : DirEntry) : option Z :=
  if negb (IsDir e) || negb (String.prefix TreeLogFileName (Name e)) then None else
  match Split "_"%char (Name e) with
  | [p0; p1] =>
      match ParseUint p1 with
      | Some snapTs => if negb (String.eqb p0 TreeLogFileName) then None else Some snapTs
      | None => None
      end
  | _ => None
  end.

(** The loop over the directory entries, in the order [readDir] gave
    them.  [recoverSnap] runs in a state of its own (the variables its
    closure captures). *)
Fixpoint recoverLoop {S} (recoverSnap : string -> Z -> ST S unit)
    (entries : list DirEntry) (recoveryAttempts : Z) : ST S Z :=
  match entries with
  | [] => ret recoveryAttempts
  | e :: rest =>
      match snapshotTs e with
      | None => recoverLoop recoverSnap rest recoveryAttempts
      | Some snapTs =>
          r <~ attempt (recoverSnap (Name e) snapTs) ;;
          match r with
          | Ok _ => ret 0
          | _ => recoverLoop recoverSnap rest (recoveryAttempts + 1)
          end
      end
  end.

Definition recoverLatestValidTreeSnapshot {S} (dir : string)
    (readDir : string -> result (list DirEntry))
    (recoverSnap : string -> Z -> ST S unit) : ST S Z :=
  entries <~ lift (readDir dir) ;;
  recoverLoop recoverSnap entries 0.

Section Tree.
Context `{Layout}.

(** *** Reading pages from the tree log *)

Definition zeros (n : Z) : list Z := replicate (Z.to_nat n) 0.

Definition readPageToBuf (pgBuf : list Z) (r : Appendable) (off : Z) : result (list Z) :=
  if off <? 0 then
    if Z.of_nat (length pgBuf) <? - off then Panic "slice bounds out of range" else
    bs <- app_ReadAt r (Z.of_nat (length pgBuf) + off) 0 ;;
    Ok (take (Z.to_nat (- off)) pgBuf ++ bs)
  else
    app_ReadAt r (Z.of_nat (length pgBuf)) off.

Definition readPage (t : TBTree) (dst : list Z) (pgID : PageID) : result (list Z) :=
  let off := to_int64 (to_int64 pgID - PageSize) in
  if to_int64 (off + PageSize - 1) <? 0 then Err ErrInvalidPageID else
  dst <- readPageToBuf dst (treeApp t) off ;;
  match expandToFixedPage dst with
  | Some dst => Ok dst
  | None => Err ErrCorruptedPage
  end.

(** Modelled from the spec: the page buffer is declared outside
    tbtree.go.  "Get(treeID, pgID, loader): pins and returns; on miss,
    evicts an unpinned slot using CLOCK and invokes loader(dst) to fill
    it ... If all slots are pinned, Get fails with CacheExhausted."  The
    buffer is shared by the whole process, so whether a slot is free
    when the tree asks for a page is for its other users to decide:
    [pgBufExhausted] is a parameter of the layout.  The tree log is
    append-only, so a cached page is the page the loader reads, and a
    [Get] that finds a slot is taken as a miss. *)
Definition pgBuf_Get (t : TBTree) (pgID : PageID) : result Page :=
  if pgBufExhausted pgID then Err ErrCacheExhausted else
  bs <- readPage t (zeros PageSize) pgID ;;
  Ok (PageFromBytes bs).

(** [copy(dst, pg.Bytes())]: the page the destination buffer then holds. *)
Definition dupPage (t : TBTree) (pgID : PageID) : result Page := pgBuf_Get t pgID.

(** *** Recovery *)

Fixpoint findLastValidPage_from (fuel : nat) (a : Appendable) (off : Z)
    : result (CommitEntry * Z) :=
  if off <? 0 then Err ErrNoValidPageFound else
  match fuel with
  | O => Diverged
  | S fuel =>
      buf <- app_ReadAt a (Z.of_nat CommitEntrySize) off ;;
      match readCommitEntry buf with
      | Ok e => Ok (e, off)
      | Err _ =>
          let i := findMagic CommitMagic buf in
          if i >=? 0
          then findLastValidPage_from fuel a (off - (Z.of_nat CommitEntrySize - i - 1))
          else findLastValidPage_from fuel a (off - Z.of_nat CommitEntrySize)
      | Panic m => Panic m
      | Diverged => Diverged
      end
  end.

(** Every round lowers [off] by at least one, so [size] rounds are
    enough fuel. *)
Definition findLastValidPage (t : TBTree) : result (CommitEntry * Z) :=
  size <- app_Size (treeApp t) ;;
  findLastValidPage_from (S (Z.to_nat size)) (treeApp t) (size - Z.of_nat CommitEntrySize).

Definition treeApp_SetOffset (off : Z) : M unit := fun t =>
  let '(r, a) := app_SetOffset (treeApp t) off in (r, set_treeApp a t).
Definition historyApp_SetOffset (off : Z) : M unit := fun t =>
  let '(r, a) := app_SetOffset (historyApp t) off in (r, set_historyApp a t).

Definition recoverRootPage : M unit :=
  t <~ gets (fun t => t) ;;
  match findLastValidPage t with
  | Err ErrNoValidPageFound =>
      historyApp_SetOffset 0 ;;;
      failWith ErrNoValidPageFound
  | Err e => failWith e
  | Panic m => panic m
  | Diverged => diverge
  | Ok (commitEntry, rootPageOff) =>
      pgBuf <~ lift (readPage t (zeros PageSize) (wrap64 rootPageOff)) ;;
      let pg := PageFromBytes pgBuf in
      if negb (IsRoot pg) then failWith ErrCorruptedTreeLog else
      treeApp_SetOffset (rootPageOff + Z.of_nat CommitEntrySize) ;;;
      historyApp_SetOffset (to_int64 (HLogLastEntryOff commitEntry)) ;;;
      let rootPageID := wrap64 rootPageOff in
      modify (set_rootTs (CTs commitEntry)) ;;;
      modify (set_rootID rootPageID) ;;;
      modify (set_lastSnapshotID rootPageID) ;;;
      modify (set_lastSnapshotTs (CTs commitEntry)) ;;;
      modify (set_indexedEntryCount (IndexedEntryCount commitEntry)) ;;;
      modify (set_numPages (TotalPages commitEntry)) ;;;
      modify (set_stalePages (StalePages commitEntry))
  end.

(** [tApp] and [hApp] are the arguments [treeApp] and [historyApp],
    [None] for a nil interface.  The history log is shared with the
    caller, so the log as the call left it is returned next to the
    outcome. *)
Definition OpenWith (path : string) (tApp hApp : option Appendable)
    (opts : Options) : result TBTree * option Appendable :=
  match tApp, hApp with
  | Some ta, Some ha =>
      match optInvalid opts with
      | Some e => (Err e, hApp)
      | None =>
          let t := {|
            mtx := false; path := path; id := optID opts; mutated := false;
            logged := []; wb := optWB opts;
            rootID := 0; lastSnapshotID := 0; rootTs := 0; lastSnapshotTs := 0;
            indexedEntryCount := 0;
            headHistoryPageID := PageNone; tailHistoryPageID := PageNone;
            bufferedHistoryData := 0;
            treeApp := ta; historyApp := ha;
            numPages := 0; stalePages := 0; nSplits := 0; depth := 0;
            snapshotCount := 0; maxActiveSnapshots := optMaxActiveSnapshots opts;
            syncThld := optSyncThld opts; unsyncedBytes := 0;
            readOnly := optReadOnly opts |} in
          match recoverRootPage t with
          | (Err ErrNoValidPageFound, t) =>
              (Ok (set_lastSnapshotID PageNone (set_rootID PageNone t)),
               Some (historyApp t))
          | (Err e, t) => (Err e, Some (historyApp t))
          | (Panic m, t) => (Panic m, Some (historyApp t))
          | (Diverged, t) => (Diverged, Some (historyApp t))
          | (Ok _, t) => (Ok t, Some (historyApp t))
          end
      end
  | _, _ => (Err ErrIllegalArguments, hApp)
  end.

(** [tb.Path()] on a pointer that may be nil. *)
Definition Path (tb : option TBTree) : result string :=
  match tb with
  | Some tb => Ok (path tb)
  | None => Panic "invalid memory address or nil pointer dereference"
  end.

(** The state of the closure [Open] passes to the recovery loop: the
    captured [t], the shared history log, and the environment. *)
Definition OpenState : Type := option TBTree * option Appendable * World.

Definition Open_recoverSnap (path : string) (opts : Options)
    (snapPath : string) (snapTs : Z) : ST OpenState unit := fun '(t, hApp, w) =>
  match appFactory opts path snapPath "t" with
  | Ok tApp =>
      match OpenWith path (Some tApp) hApp opts with
      | (Ok t', ha) => (Ok tt, (Some t', ha, w))
      | (Err e, ha) =>
          (Err e, (None, ha, mkWorld (wLogged w) (wRemoved w ++ [(path, snapPath)])))
      | (Panic m, ha) => (Panic m, (None, ha, w))
      | (Diverged, ha) => (Diverged, (None, ha, w))
      end
  | Err e => (Err e, (t, hApp, w))
  | Panic m => (Panic m, (t, hApp, w))
  | Diverged => (Diverged, (t, hApp, w))
  end.

Definition Warningf (fmt : string) (args : list LogArg) (w : World) : World :=
  mkWorld (wLogged w ++ [mkLogMsg LWarning fmt args]) (wRemoved w).

Definition Open (path : string) (opts : Options) : ST World TBTree := fun w =>
  match optInvalid opts with
  | Some e => (Err e, w)
  | None =>
  match appFactory opts path HistoryLogFileName "hx" with
  | Err e => (Err e, w)
  | Panic m => (Panic m, w)
  | Diverged => (Diverged, w)
  | Ok hApp =>
      let t : option TBTree := None in
      let '(r, (t, hApp, w)) :=
        recoverLatestValidTreeSnapshot path (readDir opts) (Open_recoverSnap path opts)
          (t, Some hApp, w) in
      match r with
      | Err e => (Err e, w)
      | Panic m => (Panic m, w)
      | Diverged => (Diverged, w)
      | Ok recoveryAttempts =>
          match t with
          | Some t' => (Ok t', w)
          | None =>
              let logged :=
                if recoveryAttempts >? 0 then
                  p <- Path t ;;
                  Ok (Warningf "%s: no snapshot could be recovered, attempts=%d"
                        [AStr p; AInt recoveryAttempts] w)
                else Ok w in
              match logged with
              | Ok w =>
                  match appFactory opts path TreeLogFileName "t" with
                  | Ok tApp => (fst (OpenWith path (Some tApp) hApp opts), w)
                  | Err e => (Err e, w)
                  | Panic m => (Panic m, w)
                  | Diverged => (Diverged, w)
                  end
              | Err e => (Err e, w)
              | Panic m => (Panic m, w)
              | Diverged => (Diverged, w)
              end
          end
      end
  end
  end.

End Tree.

(** *** Snapshots *)

Record Snapshot : Type := mkSnapshot {
  snapRootID : PageID;
  snapTs : Z;
}.

Record TimedValue : Type := mkTimedValue {
  TVValue : string;
  TVTs : Z;
}.

(** What the snapshot type, declared outside tbtree.go, provides to the
    methods below.  The tree is modelled over any such reader. *)
Class SnapshotLayer : Type := {
  newReadSnapshot : PageID -> Z -> M Snapshot;
  snap_Close : Snapshot -> M unit;
  snap_GetBetween : Snapshot -> string -> Z -> Z -> M (string * Z * Z);
  snap_History : Snapshot -> string -> Z -> bool -> Z -> M (list TimedValue * Z);
}.

Record insertResult : Type := mkInsertResult {
  split : bool;
  newPageID : PageID;
  splitPageID : PageID;
  (** the arena id of the page the pointer refers to, [PageNone] for nil *)
  splitPage : PageID;
}.

Record flushRes : Type := mkFlushRes {
  pagesFlushed : Z;
  bytesWritten : Z;
  frRootID : PageID;
  frStalePages : Z;
}.

(** [dstApp] is the second component of the state of the flush
    functions. *)
Record flushOptions : Type := mkFlushOptions {
  fullDump : bool;
}.

Section Writes.
Context `{Layout} `{SnapshotLayer}.

(** *** Access to the write buffer through the tree *)

Definition withWB {A} (f : WriteBuffer -> result A * WriteBuffer) : M A := fun t =>
  let '(r, w) := f (wb t) in (r, set_wb w t).

Definition getMemPage (id : PageID) : M Page := fun t => (wb_Get (wb t) id, t).

Definition storePage (id : PageID) (pg : Page) : M unit :=
  modify (fun t => set_wb (wb_store (wb t) id (TreePage pg)) t).

(** A method that mutates the page behind an arena pointer. *)
Definition updPage (id : PageID) (f : Page -> Page) : M unit :=
  pg <~ getMemPage id ;;
  storePage id (f pg).

(** A method that mutates the page and returns a value, or fails and
    leaves the page alone. *)
Definition pageOp {A} (id : PageID) (op : Page -> result (Page * A)) : M A :=
  pg <~ getMemPage id ;;
  x <~ lift (op pg) ;;
  storePage id (fst x) ;;;
  ret (snd x).

Definition getHistoryPage (id : PageID) : M HistoryPage := fun t =>
  (wb_GetHistoryPage (wb t) id, t).

Definition storeHistoryPage (id : PageID) (hp : HistoryPage) : M unit :=
  modify (fun t => set_wb (wb_store (wb t) id (HistPage hp)) t).

Definition GetOrDup (id : PageID) : M (Page * PageID) := fun t =>
  let '(r, w) := wb_GetOrDup (wb t) id (dupPage t) in (r, set_wb w t).

(** *** Insert *)

(** Ensures the write buffer maintains the invariant of having at
    least depth + 2 pages. *)
Definition canAccommodateWrite : M bool :=
  gets (fun t => wb_Grow (wb t) (depth t + 2)).

Definition sepKey (r : insertResult) : M string :=
  if splitPage r =? PageNone then panic "invalid memory address or nil pointer dereference" else
  sp <~ getMemPage (splitPage r) ;;
  if IsLeaf sp then ret (firstKey sp) else ret (keyAt sp (NumEntries sp)).

(** Returns the id of the current history page (the pointer
    [getCurrHistoryPage] returns). *)
Definition getCurrHistoryPage : M PageID :=
  head <~ gets headHistoryPageID ;;
  if head =? PageNone then
    id <~ withWB wb_AllocHistoryPage ;;
    modify (set_headHistoryPageID id) ;;;
    modify (set_tailHistoryPageID id) ;;;
    ret id
  else
    tail <~ gets tailHistoryPageID ;;
    getHistoryPage tail ;;;
    ret tail.

Definition historyAppend (id : PageID) (he : HistoryEntry) : M Z :=
  hp <~ getHistoryPage id ;;
  x <~ lift (HistoryPage_Append hp he) ;;
  storeHistoryPage id (fst x) ;;;
  ret (snd x).

Definition archiveEntry (e : Entry) : M Z :=
  pg <~ getCurrHistoryPage ;;
  let he := mkHistoryEntry (wrap64 (HOff e)) (Ts e) (Value e) in
  r <~ attempt (historyAppend pg he) ;;
  n <~ match r with
       | Err ErrPageFull =>
           newPageID <~ withWB wb_AllocHistoryPage ;;
           hp <~ getHistoryPage pg ;;
           storeHistoryPage pg (SetNextPageID hp newPageID) ;;;
           modify (set_tailHistoryPageID newPageID) ;;;
           historyAppend newPageID he
       | r => lift r
       end ;;
  hoff <~ gets bufferedHistoryData ;;
  modify (set_bufferedHistoryData (wrap64 (hoff + wrap64 n))) ;;;
  ret hoff.

Definition insertEmpty (e : Entry) : M insertResult :=
  newPageID <~ withWB wb_AllocLeafPage ;;
  pageOp newPageID (fun pg => InsertEntry pg e) ;;;
  updPage newPageID SetAsRoot ;;;
  modify (fun t => set_depth (depth t + 1) t) ;;;
  ret (mkInsertResult false newPageID 0 PageNone).

Definition splitLeafPage (pgID : PageID) (e : Entry) : M insertResult :=
  modify (fun t => set_nSplits (nSplits t + 1) t) ;;;
  splitPageID <~ withWB wb_AllocLeafPage ;;
  r <~ attempt (pageOp pgID (fun pg => Remove pg (Key e))) ;;
  e <~ match r with
       | Ok prevEntry =>
           hoff <~ archiveEntry prevEntry ;;
           ret (mkEntry (Key e) (Value e) (Ts e) hoff (wrap64 (HC prevEntry + 1)))
       | Err ErrKeyNotFound => ret e
       | r => (lift r ;;; ret e)
       end ;;
  pg <~ getMemPage pgID ;;
  sp <~ getMemPage splitPageID ;;
  let '(pg', sp') := Page_splitLeafPage pg sp e in
  storePage pgID pg' ;;;
  storePage splitPageID sp' ;;;
  ret (mkInsertResult true pgID splitPageID splitPageID).

Definition insertLeaf (pgID : PageID) (e : Entry) (depth : Z) : M insertResult :=
  r <~ attempt (pageOp pgID (fun pg => InsertEntry pg e)) ;;
  match r with
  | Err ErrPageFull => splitLeafPage pgID e
  | Err err => failWith err
  | Panic m => panic m
  | Diverged => diverge
  | Ok (prevEntry, replaced) =>
      (if replaced : bool then
         hoff <~ archiveEntry prevEntry ;;
         updPage pgID (fun pg => UpdateHistory pg (Key e) hoff)
       else ret tt) ;;;
      modify (set_depth depth) ;;;
      ret (mkInsertResult false pgID 0 PageNone)
  end.

(** Returns the result and whether the page was split; with an
    error the values returned next to it are never read. *)
Definition insertInnerPage (pgID : PageID) (res : insertResult) : M (insertResult * bool) :=
  sepKey <~ sepKey res ;;
  r <~ attempt (pageOp pgID (fun pg => InsertKey pg sepKey (splitPageID res))) ;;
  match r with
  | Err ErrPageFull =>
      modify (fun t => set_nSplits (nSplits t + 1) t) ;;;
      splitPageID' <~ withWB wb_AllocInnerPage ;;
      pg <~ getMemPage pgID ;;
      sp <~ getMemPage splitPageID' ;;
      let '(pg', sp') := Page_splitInnerPage pg sp sepKey (splitPageID res) (newPageID res) in
      storePage pgID pg' ;;;
      storePage splitPageID' sp' ;;;
      ret (mkInsertResult true pgID splitPageID' pgID, true)
  | _ => ret (mkInsertResult false 0 0 PageNone, false)
  end.

(** The descent.  [fuel] bounds its depth. *)
Fixpoint insert (fuel : nat) (id : PageID) (e : Entry) (depth : Z) : M insertResult :=
  match fuel with
  | O => diverge
  | S fuel =>
      if id =? PageNone then insertEmpty e else
      x <~ GetOrDup id ;;
      let '(pg, newPageID') := x in
      if IsLeaf pg then insertLeaf newPageID' e depth else
      y <~ lift (Find pg (Key e)) ;;
      let '(idx, childPageID) := y in
      res <~ insert fuel childPageID e (depth + 1) ;;
      early <~ (if split res then
                  z <~ insertInnerPage newPageID' res ;;
                  if snd z then ret (Some (fst z)) else ret None
                else ret None) ;;
      match early with
      | Some res' => ret res'
      | None =>
          updPage newPageID' (fun pg => SetPageID pg idx (newPageID res)) ;;;
          ret (mkInsertResult false newPageID' 0 PageNone)
      end
  end.

(** No path of an acyclic page graph is longer than the number of
    pages in the arena and bytes in the tree log. *)
Definition descentFuel (t : TBTree) : nat :=
  S (length (wbPages (wb t)) + length (appData (treeApp t))).

Definition Insert (e : Entry) : M unit :=
  if Ts e =? 0 then failWith ErrInvalidTimestamp else
  ts <~ gets rootTs ;;
  if Ts e <? ts then failWith ErrInvalidTimestamp else
  locked <~ TryLock ;;
  if negb locked then failWith ErrTreeLocked else
  defer (set_mtx false) (
    ok <~ canAccommodateWrite ;;
    if negb ok then failWith ErrWriteBufferFull else
    root <~ rootPageID ;;
    fuel <~ gets descentFuel ;;
    res <~ insert fuel root e 0 ;;
    (if split res then
       modify (fun t => set_nSplits (nSplits t + 1) t) ;;;
       modify (fun t => set_depth (depth t + 1) t) ;;;
       newRootID <~ withWB wb_AllocInnerPage ;;
       sk <~ sepKey res ;;
       pageOp newRootID (fun pg => InsertKey pg sk (splitPageID res)) ;;;
       updPage newRootID (fun pg => SetAsRoot (SetPageID pg 0 (newPageID res))) ;;;
       modify (set_rootID newRootID)
     else
       modify (set_rootID (newPageID res))) ;;;
    modify (set_rootTs (Ts e)) ;;;
    modify (set_mutated true)).

(** *** Advance *)

Definition Advance (ts : Z) (entryCount : Z) : M unit :=
  rootTs' <~ gets rootTs ;;
  now <~ gets rootTs ;;
  if ts =? now then ret tt
  else if ts <? rootTs' then failWith ErrInvalidTimestamp
  else
    locked <~ TryLock ;;
    if negb locked then failWith ErrTreeLocked else
    modify (set_rootTs ts) ;;;
    modify (set_indexedEntryCount entryCount) ;;;
    Unlock.

(** *** Reads through snapshots *)

(** [defer snap.Close()]: the error [Close] returns is dropped. *)
Definition deferClose {A} (snap : Snapshot) (body : M A) : M A := fun t =>
  let '(r, t') := body t in (r, snd (snap_Close snap t')).

Definition snapshot : M Snapshot :=
  ts <~ gets lastSnapshotTs ;;
  snapRootID <~ lastSnapshotRootID ;;
  if snapRootID =? PageNone then failWith ErrNoSnapshotAvailable else
  if isMemPage snapRootID then panic "should not be a mem page" else
  newReadSnapshot snapRootID ts.

Definition ReadSnapshot : M Snapshot := snapshot.

Definition GetBetween (key : string) (initialTs finalTs : Z) : M (string * Z * Z) :=
  snap <~ ReadSnapshot ;;
  deferClose snap (snap_GetBetween snap key initialTs finalTs).

Definition History (key : string) (offset : Z) (descOrder : bool) (limit : Z)
    : M (list TimedValue * Z) :=
  r <~ attempt ReadSnapshot ;;
  match r with
  | Err ErrNoSnapshotAvailable => failWith ErrKeyNotFound
  | Err e => failWith e
  | Panic m => panic m
  | Diverged => diverge
  | Ok snap => deferClose snap (snap_History snap key offset descOrder limit)
  end.

End Writes.

Section Flushing.
Context `{Layout} `{SnapshotLayer}.

(** The flush functions run on the tree and on the destination log
    [dstApp]. *)
Definition FS : Type := (TBTree * Appendable)%type.

Definition onTree {A} (m : M A) : ST FS A := fun '(t, dst) =>
  let '(r, t') := m t in (r, (t', dst)).
Definition onDst {A} (m : ST Appendable A) : ST FS A := fun '(t, dst) =>
  let '(r, dst') := m dst in (r, (t, dst')).

Definition appendPage (pg : Page) : ST Appendable (Z * PageID) := fun tlog =>
  match app_Size tlog with
  | Ok writeOffset =>
      let buf := zeros PageSize in
      let '(n, buf) := Put pg buf in
      if (n <? 0) || (PageSize <? n) then (Panic "slice bounds out of range", tlog) else
      match app_Append tlog (take (Z.to_nat n) buf) with
      | (Ok _, tlog) => (Ok (n, wrap64 (wrap64 writeOffset + wrap64 n)), tlog)
      | (Err e, tlog) => (Err e, tlog)
      | (Panic m, tlog) => (Panic m, tlog)
      | (Diverged, tlog) => (Diverged, tlog)
      end
  | Err e => (Err e, tlog)
  | Panic m => (Panic m, tlog)
  | Diverged => (Diverged, tlog)
  end.

Definition getWritePage (pgID : PageID) : M Page := fun t =>
  if isMemPage pgID then (wb_Get (wb t) pgID, t)
  else (pgBuf_Get t pgID, t).

(** The page behind [pg]: the arena page for an in-memory id, the
    local copy otherwise. *)
Definition currentPage (pageID : PageID) (pgCopy : Page) : M Page :=
  if isMemPage pageID then getMemPage pageID else ret pgCopy.

(** What the loop over the children keeps: the local copy of the
    page and the three counters. *)
Definition ChildLoop : Type := (Page * Z * Z * Z)%type.

Fixpoint flushTreeLog (fuel : nat) (pageID : PageID) (opts : flushOptions)
    : ST FS flushRes :=
  match fuel with
  | O => diverge
  | S fuel =>
      let isMem := isMemPage pageID in
      if negb isMem && negb (fullDump opts)
      then failWith (ErrIO "attempted to flush a non in memory page") else
      pg <~ onTree (getWritePage pageID) ;;
      if IsLeaf pg then
        let stalePages := if isMem && IsCopied pg then 1 else 0 in
        x <~ onDst (appendPage pg) ;;
        ret (mkFlushRes 1 (fst x) (snd x) stalePages)
      else
        let step (i : nat) (acc : ChildLoop) : ST FS ChildLoop :=
          let '(pgCopy, stalePages, totalBytesWritten, pagesFlushed') := acc in
          pg <~ onTree (currentPage pageID pgCopy) ;;
          let childPageID := ChildPageAt pg i in
          if negb (isMemPage childPageID) && negb (fullDump opts) then ret acc else
          res <~ flushTreeLog fuel childPageID opts ;;
          pg <~ onTree (currentPage pageID pgCopy) ;;
          let pg := SetPageID pg i (frRootID res) in
          (if isMem then onTree (storePage pageID pg) else ret tt) ;;;
          ret (pg, wrap32 (stalePages + frStalePages res),
               totalBytesWritten + bytesWritten res,
               pagesFlushed' + pagesFlushed res) in
        acc <~ fold_left (fun m i => acc <~ m ;; step i acc)
                 (seq 0 (NumEntries pg)) (ret (pg, 0, 0, 0)) ;;
        let '(pgCopy, stalePages, totalBytesWritten, pagesFlushed') := acc in
        pg <~ onTree (currentPage pageID pgCopy) ;;
        let stalePages := if isMem && IsCopied pg then wrap32 (stalePages + 1) else stalePages in
        x <~ onDst (appendPage pg) ;;
        ret (mkFlushRes (pagesFlushed' + 1) (totalBytesWritten + fst x) (snd x) stalePages)
  end.

Fixpoint flushHistory_from (fuel : nat) (currPage : PageID)
    (lastWrittenEntry : list Z) (lastEntryOff : Z) (n : Z) : M (list Z * Z * Z) :=
  if currPage =? PageNone then ret (lastWrittenEntry, lastEntryOff, n) else
  match fuel with
  | O => diverge
  | S fuel =>
      hp <~ getHistoryPage currPage ;;
      let data := hpData hp in
      x <~ (fun t => let '(r, a) := app_Append (historyApp t) data in (r, set_historyApp a t)) ;;
      flushHistory_from fuel (hpNext hp) data (fst x) (n + Z.of_nat (length data))
  end.

(** Returns the bytes written, the checksum of the last page payload
    and the offset it was written at. *)
Definition flushHistory : M (Z * Z * Z) :=
  currPage <~ gets headHistoryPageID ;;
  if currPage =? PageNone then ret (0, 0, 0) else
  fuel <~ gets (fun t => S (length (wbPages (wb t)))) ;;
  x <~ flushHistory_from fuel currPage [] 0 0 ;;
  let '(lastWrittenEntry, lastEntryOff, n) := x in
  modify (set_headHistoryPageID PageNone) ;;;
  (fun t => (app_Flush (historyApp t), t)) ;;;
  let checksum := computeChecksum lastWrittenEntry in
  ret (n, checksum, wrap64 lastEntryOff).

Definition commit (e : CommitEntry) : ST Appendable unit := fun app =>
  match putCommitEntry CommitMagic e (zeros (Z.of_nat CommitEntrySize)) with
  | None => (Panic "index out of range", app)
  | Some buf =>
      match app_Append app buf with
      | (Ok _, app) => (app_Flush app, app)
      | (Err e, app) => (Err e, app)
      | (Panic m, app) => (Panic m, app)
      | (Diverged, app) => (Diverged, app)
      end
  end.

Definition flushTo : ST FS (Z * flushRes) :=
  onTree (t <~ gets (fun t => t) ;;
          logf LInfo "starting flushing, index=%s, ts=%d" [AStr (path t); AInt (rootTs t)]) ;;;
  h <~ onTree flushHistory ;;
  let '(hLogBytesWritten, hlogLastEntryChecksum, hLogLastEntryOff) := h in
  let opts := mkFlushOptions false in
  root <~ onTree rootPageID ;;
  fuel <~ onTree (gets descentFuel) ;;
  res <~ flushTreeLog fuel root opts ;;
  onTree (modify (fun t => set_stalePages (wrap32 (stalePages t + frStalePages res)) t)) ;;;
  onTree (modify (fun t => set_numPages (wrap64 (numPages t + wrap64 (pagesFlushed res))) t)) ;;;
  t <~ onTree (gets (fun t => t)) ;;
  let commitEntry := {|
    Checksum := 0;
    CTs := rootTs t;
    HLogLastEntryOff := hLogLastEntryOff;
    HLogLastEntryChecksum := hlogLastEntryChecksum;
    TotalPages := wrap64 (pagesFlushed res);
    StalePages := stalePages t;
    IndexedEntryCount := indexedEntryCount t |} in
  onDst (commit commitEntry) ;;;
  onTree (logf LInfo "flushing completed, index=%s" [AStr (path t)]) ;;;
  ret (hLogBytesWritten, res).

(** The goroutine [maybeSync] starts is run to its end at once:
    [Sync] does not change what the logs hold. *)
Definition maybeSync (n : Z) : M unit :=
  modify (fun t => set_unsyncedBytes (wrap32 (unsyncedBytes t + n)) t) ;;;
  t <~ gets (fun t => t) ;;
  if unsyncedBytes t <? wrap32 (syncThld t) then ret tt else
  modify (fun t => set_snapshotCount (wrap64 (snapshotCount t + 1)) t) ;;;
  (match app_Sync (historyApp t) with
   | Err e => logf LWarning "%w: unable to sync history log, path=%s" [AErr e; AStr (path t)]
   | _ => ret tt
   end) ;;;
  (match app_Sync (treeApp t) with
   | Err e => logf LWarning "%w: unable to sync tree log, path=%s" [AErr e; AStr (path t)]
   | _ => ret tt
   end) ;;;
  modify (set_unsyncedBytes 0) ;;;
  modify (fun t => set_snapshotCount (wrap64 (snapshotCount t + (2 ^ 64 - 1))) t).

(** [flushTo(t.treeApp)]: the destination is the tree log itself, so
    what the flush appended is in [t.treeApp] however the flush ends. *)
Definition flushToTreeLog : M unit :=
  mut <~ gets mutated ;;
  if negb mut then logf LInfo "flushing not needed. exiting..." [] else
  x <~ (fun t =>
          let '(r, (t', dst)) := flushTo (t, treeApp t) in (r, set_treeApp dst t')) ;;
  let '(hLogBytesWritten, res) := x in
  modify (set_rootID (frRootID res)) ;;;
  modify (set_lastSnapshotID (frRootID res)) ;;;
  modify (fun t => set_lastSnapshotTs (rootTs t) t) ;;;
  modify (set_headHistoryPageID PageNone) ;;;
  modify (set_tailHistoryPageID PageNone) ;;;
  modify (set_mutated false) ;;;
  maybeSync (wrap32 (bytesWritten res + hLogBytesWritten)).

Definition Flush : M unit :=
  Lock ;;;
  defer (set_mtx false) flushToTreeLog.

(** [err := t.flushToTreeLog(); t.wb.Reset(); return err]: a panic of
    the flush unwinds past the reset. *)
Definition FlushReset : M unit :=
  Lock ;;;
  defer (set_mtx false) (
    err <~ attempt flushToTreeLog ;;
    modify (fun t => set_wb (wb_Reset (wb t)) t) ;;;
    lift err).

Definition TryFlush : M unit :=
  locked <~ TryLock ;;
  if negb locked then failWith ErrTreeLocked else
  defer (set_mtx false) flushToTreeLog.

(** *** Snapshots that must contain a timestamp *)

Definition ensureLatestSnapshotContainsTs (ts : Z) : M (PageID * Z) :=
  Lock ;;;
  defer (set_mtx false) (
    lastSnapRootID <~ lastSnapshotRootID ;;
    lastTs <~ gets lastSnapshotTs ;;
    let flushNeeded := (lastSnapRootID =? PageNone) || ((ts >? 0) && (lastTs <? ts)) in
    rootTs' <~ gets rootTs ;;
    if rootTs' <? ts then failWith ErrStaleRootTimestamp else
    (if flushNeeded then flushToTreeLog else ret tt) ;;;
    id <~ lastSnapshotRootID ;;
    lastTs <~ gets lastSnapshotTs ;;
    ret (id, lastTs)).

Definition SnapshotAtTs (ts : Z) : M Snapshot :=
  x <~ ensureLatestSnapshotContainsTs ts ;;
  let '(snapRootID, snapTs) := x in
  let snapAtTs := if ts =? 0 then snapTs else ts in
  newReadSnapshot snapRootID snapAtTs.

Definition SnapshotMustIncludeTs (ts : Z) : M Snapshot :=
  x <~ ensureLatestSnapshotContainsTs ts ;;
  let '(snapRootID, snapTs) := x in
  newReadSnapshot snapRootID snapTs.

End Flushing.

(** *** Closing the tree *)

(** Modelled from the spec: [Close] of the append log, declared with
    the appendable package; "Fails with AlreadyClosed on use after
    close". *)
Definition app_Close (a : Appendable) : result unit * Appendable :=
  if appClosed a then (Err ErrAlreadyClosed, a) else (Ok tt, mkApp (appData a) true).

(** Modelled from the spec: the multierr package lives outside
    tbtree.go; "Close attempts each step and aggregates errors".  A
    [MultiErr] is the list of the errors appended to it, a nil error
    being dropped; [Reduce] returns nil when the list is empty and the
    aggregate otherwise, so the list stands for both. *)
Definition MultiErr : Type := list error.

Definition NewMultiErr : MultiErr := [].

Definition MultiErr_Append (me : MultiErr) (r : result unit) : MultiErr :=
  match r with
  | Err e => me ++ [e]
  | _ => me
  end.

Definition Reduce (me : MultiErr) : MultiErr := me.

Section Closing.
Context `{Layout} `{SnapshotLayer}.

(** [int(t.snapshotCount.Load())] *)
Definition ActiveSnapshots : M Z := gets (fun t => to_int64 (snapshotCount t)).

Definition historyApp_Close : M (result unit) := fun t =>
  let '(r, a) := app_Close (historyApp t) in (Ok r, set_historyApp a t).
Definition treeApp_Close : M (result unit) := fun t =>
  let '(r, a) := app_Close (treeApp t) in (Ok r, set_treeApp a t).

(** The value returned is the reduced [MultiErr]: [Ok []] is a nil
    error. *)
Definition Close : M MultiErr :=
  Lock ;;;
  defer (set_mtx false) (
    active <~ ActiveSnapshots ;;
    if active >? 0 then failWith ErrActiveSnapshots else
    flushToTreeLog ;;;
    let me := NewMultiErr in
    hs <~ gets (fun t => app_Sync (historyApp t)) ;;
    let me := MultiErr_Append me hs in
    ts <~ gets (fun t => app_Sync (treeApp t)) ;;
    let me := MultiErr_Append me ts in
    hc <~ historyApp_Close ;;
    let me := MultiErr_Append me hc in
    tc <~ treeApp_Close ;;
    let me := MultiErr_Append me tc in
    ret (Reduce me)).

End Closing.

(** ** A reference layout and reader

    One concrete page codec and snapshot reader over which the model
    runs.  The properties below that quantify over [Layout] and
    [SnapshotLayer] do not depend on it; it serves to evaluate the tree
    on concrete inputs. *)
Module Reference.

Definition string_of_bytes (bs : list Z) : string :=
  string_of_list_ascii ((fun b => ascii_of_nat (Z.to_nat b)) <$> bs).

Definition strLen (s : string) : Z := Z.of_nat (String.length s).

(** Modelled from the spec: "Leaves store for each key: keyLen, key,
    valueLen, value, ts, hOff, hC.  Serialization is big-endian."  The
    lengths are taken to be 16-bit, the rest 64-bit. *)
Definition encodeEntry (e : Entry) : list Z :=
  be_bytes 2 (strLen (Key e)) ++ bytes_of_string (Key e) ++
  be_bytes 2 (strLen (Value e)) ++ bytes_of_string (Value e) ++
  be_bytes 8 (Ts e) ++ be_bytes 8 (HOff e) ++ be_bytes 8 (HC e).

Definition encodeSlot (k : string) (child : PageID) : list Z :=
  be_bytes 2 (strLen k) ++ bytes_of_string k ++ be_bytes 8 child.

Definition pageFlags (pg : Page) : Z :=
  (if IsRoot pg then 1 else 0) + (if IsCopied pg then 2 else 0).

(** Modelled from the spec: "Page fixed at PageSize (4096), header:
    tag:u8 | flags:u8 | numEntries:u16 | reserved:u12.  Remaining bytes
    hold a growing slot directory from the head and payload from the
    tail"; "the left-most child is stored at a distinguished slot"; "A
    page's on-disk image is exactly PageSize bytes; smaller logical
    payloads are zero-padded."  The reserved part of the header is taken
    to be twelve bytes, a directory slot to be the 16-bit offset of its
    record, and the distinguished slot of the left-most child to be the
    last eight bytes of the image. *)
Definition HeaderSize : nat := 16.

(** The records of a page, in key order. *)
Definition records (pg : Page) : list (list Z) :=
  if IsLeaf pg then encodeEntry <$> entries pg
  else zip_with encodeSlot (take (NumEntries pg) (keys pg)) (drop 1 (children pg)).

Definition leftmostSlot (pg : Page) : list Z :=
  if IsLeaf pg then [] else be_bytes 8 (ChildPageAt pg 0).

(** The payload grows from the tail: the first record ends at [bound]
    and each next one where the one before starts. *)
Fixpoint recordOffsets (bound : nat) (recs : list (list Z)) : list nat :=
  match recs with
  | [] => []
  | r :: rest => (bound - length r)%nat :: recordOffsets (bound - length r) rest
  end.

Definition pageHead (pg : Page) : list Z :=
  [if IsLeaf pg then 1 else 0; pageFlags pg] ++ be_bytes 2 (Z.of_nat (NumEntries pg)) ++
  replicate 12 0 ++
  concat ((fun o => be_bytes 2 (Z.of_nat o)) <$>
          recordOffsets (Z.to_nat PageSize - length (leftmostSlot pg)) (records pg)).

Definition pageTail (pg : Page) : list Z :=
  concat (reverse (records pg)) ++ leftmostSlot pg.

(** The image of a page: header and slot directory, zeros, payload. *)
Definition encodePage (pg : Page) : list Z :=
  pageHead pg ++
  replicate (Z.to_nat PageSize - length (pageHead pg) - length (pageTail pg)) 0 ++
  pageTail pg.

Definition pageFits (pg : Page) : bool :=
  (length (pageHead pg) + length (pageTail pg) <=? Z.to_nat PageSize)%nat.

(** "Put(buf) returns the written length": the image is written over
    the buffer, and its length is [PageSize]. *)
Definition RPut (pg : Page) (buf : list Z) : Z * list Z :=
  let img := encodePage pg in
  (PageSize, take (length buf) (img ++ drop (length img) buf)).

Definition slotOffset (buf : list Z) (i : nat) : nat :=
  Z.to_nat (be_value (take 2 (drop (HeaderSize + 2 * i) buf))).

(** Modelled from the spec: the spec says nothing of
    [expandToFixedPage]; with images of exactly [PageSize] bytes there
    is nothing to expand, and the call is taken to be the check the spec
    gives the parser, "rejects pages whose header is malformed or whose
    entry table overlaps payload ... Fails with CorruptedPage", which
    leaves the buffer as it is. *)
Definition RexpandToFixedPage (buf : list Z) : option (list Z) :=
  let tag := default 0 (buf !! 0%nat) in
  let n := Z.to_nat (be_value (take 2 (drop 2 buf))) in
  let tableEnd := (HeaderSize + 2 * n)%nat in
  if (1 <? tag) || (length buf <? tableEnd)%nat ||
     negb (forallb (fun i => (tableEnd <=? slotOffset buf i)%nat &&
                             (slotOffset buf i <=? length buf)%nat) (seq 0 n))
  then None else Some buf.

Definition parseEntry (bs : list Z) : Entry :=
  let klen := Z.to_nat (be_value (take 2 bs)) in
  let bs := drop 2 bs in
  let key := string_of_bytes (take klen bs) in
  let bs := drop klen bs in
  let vlen := Z.to_nat (be_value (take 2 bs)) in
  let bs := drop 2 bs in
  let value := string_of_bytes (take vlen bs) in
  let bs := drop vlen bs in
  mkEntry key value (be_value (take 8 bs)) (be_value (take 8 (drop 8 bs)))
    (be_value (take 8 (drop 16 bs))).

Definition parseSlot (bs : list Z) : string * PageID :=
  let klen := Z.to_nat (be_value (take 2 bs)) in
  let bs := drop 2 bs in
  let key := string_of_bytes (take klen bs) in
  let bs := drop klen bs in
  (key, be_value (take 8 bs)).

Definition RPageFromBytes (buf : list Z) : Page :=
  let tag := default 0 (buf !! 0%nat) in
  let flags := default 0 (buf !! 1%nat) in
  let n := Z.to_nat (be_value (take 2 (drop 2 buf))) in
  let recordAt (i : nat) := drop (slotOffset buf i) buf in
  if tag =? 1 then
    mkPage true (Z.testbit flags 0) (Z.testbit flags 1) n
      ((fun i => parseEntry (recordAt i)) <$> seq 0 n) [] []
  else
    let slots := (fun i => parseSlot (recordAt i)) <$> seq 0 n in
    mkPage false (Z.testbit flags 0) (Z.testbit flags 1) n []
      (fst <$> slots) (be_value (drop (length buf - 8) buf) :: (snd <$> slots)).

Definition RleafFits (es : list Entry) : bool := pageFits (withEntries emptyLeaf es).

Definition RinnerFits (ks : list string) : bool :=
  pageFits (withInner emptyInner (length ks) ks (replicate (S (length ks)) 0)).

Definition RhistoryFits (data : list Z) : bool := Z.of_nat (length data) <=? PageSize.

#[export] Instance layout : Layout := {|
  CommitMagic := 0x7462;
  Put := RPut;
  expandToFixedPage := RexpandToFixedPage;
  PageFromBytes := RPageFromBytes;
  leafFits := RleafFits;
  innerFits := RinnerFits;
  historyFits := RhistoryFits;
  pgBufExhausted := fun _ => false;
|}.

(** *** The reader *)

Fixpoint findLeaf (fuel : nat) (t : TBTree) (id : PageID) (key : string) : result Page :=
  match fuel with
  | O => Diverged
  | S fuel =>
      pg <- pgBuf_Get t id ;;
      if IsLeaf pg then Ok pg else
      x <- Find pg key ;;
      findLeaf fuel t (snd x) key
  end.

(** "HistoryEntry: prevOffset:u64 | ts:u64 | valueLen:u16 | value" *)
Definition readHistoryEntry (ha : Appendable) (hoff : Z) : result HistoryEntry :=
  hdr <- app_ReadAt ha 18 hoff ;;
  let vlen := be_value (drop 16 hdr) in
  v <- app_ReadAt ha vlen (hoff + 18) ;;
  Ok (mkHistoryEntry (be_value (take 8 hdr)) (be_value (take 8 (drop 8 hdr)))
        (string_of_bytes v)).

(** The chain of prior revisions, newest first. *)
Fixpoint historyChain (fuel : nat) (ha : Appendable) (hoff : Z) : result (list HistoryEntry) :=
  if hoff =? OffsetNone then Ok [] else
  match fuel with
  | O => Diverged
  | S fuel =>
      he <- readHistoryEntry ha hoff ;;
      rest <- historyChain fuel ha (PrevOffset he) ;;
      Ok (he :: rest)
  end.

Definition revisions (t : TBTree) (root : PageID) (key : string)
    : result (Entry * list TimedValue) :=
  leaf <- findLeaf (S (length (appData (treeApp t)))) t root key ;;
  e <- GetEntry leaf key ;;
  chain <- historyChain (S (length (appData (historyApp t)))) (historyApp t) (HOff e) ;;
  Ok (e, mkTimedValue (Value e) (Ts e)
         :: ((fun he => mkTimedValue (HValue he) (HTs he)) <$> chain)).

(** Modelled from the spec: "GetBetween(key, tLo, tHi) returns the
    newest revision whose ts lies in [tLo, tHi] by reading the leaf's
    entry and then walking the history chain backward until ts < tLo or
    chain end; returns KeyNotFound when none qualifies."  The count
    returned is the history count of the key. *)
Definition RGetBetween (snap : Snapshot) (key : string) (initialTs finalTs : Z)
    : M (string * Z * Z) := fun t =>
  (x <- revisions t (snapRootID snap) key ;;
   match find (fun tv => TVTs tv <=? finalTs) (snd x) with
   | Some tv => if TVTs tv <? initialTs then Err ErrKeyNotFound
                else Ok (TVValue tv, TVTs tv, HC (fst x))
   | None => Err ErrKeyNotFound
   end, t).

Definition RHistory (snap : Snapshot) (key : string) (offset : Z) (descOrder : bool)
    (limit : Z) : M (list TimedValue * Z) := fun t =>
  (x <- revisions t (snapRootID snap) key ;;
   let all := if descOrder then snd x else reverse (snd x) in
   Ok (take (Z.to_nat limit) (drop (Z.to_nat offset) all), wrap64 (HC (fst x) + 1)), t).

(** Modelled from the spec: "a snapshot-count semaphore"; a snapshot
    is counted from its creation to its [Close]. *)
Definition RnewReadSnapshot (root : PageID) (ts : Z) : M Snapshot :=
  modify (fun t => set_snapshotCount (wrap64 (snapshotCount t + 1)) t) ;;;
  ret (mkSnapshot root ts).

Definition RClose (snap : Snapshot) : M unit :=
  modify (fun t => set_snapshotCount (wrap64 (snapshotCount t + (2 ^ 64 - 1))) t).

#[export] Instance reader : SnapshotLayer := {|
  newReadSnapshot := RnewReadSnapshot;
  snap_Close := RClose;
  snap_GetBetween := RGetBetween;
  snap_History := RHistory;
|}.

(** *** Concrete environments *)

Definition options (wbPages : nat) (factory : string -> string -> string -> result Appendable)
    (dir : list DirEntry) : Options := {|
  optInvalid := None;
  optReadOnly := false;
  optID := 0;
  optWB := mkWriteBuffer [] wbPages;
  optMaxActiveSnapshots := 100;
  optSyncThld := 1024 * 1024;
  appFactory := factory;
  readDir := fun _ => Ok dir;
|}.

(** A directory with no files yet: every log opens empty. *)
Definition freshFactory (path subPath ext : string) : result Appendable := Ok emptyApp.

Definition freshOptions : Options := options 64 freshFactory [].

Definition run {A} (m : M A) (r : result TBTree) : result A * result TBTree :=
  match r with
  | Ok t => let '(a, t') := m t in (a, Ok t')
  | Err e => (Err e, r)
  | Panic msg => (Panic msg, r)
  | Diverged => (Diverged, r)
  end.

Definition after {A} (m : M A) (r : result TBTree) : result TBTree :=
  match fst (run m r) with
  | Ok _ => snd (run m r)
  | Err e => Err e
  | Panic msg => Panic msg
  | Diverged => Diverged
  end.

Definition freshTree : result TBTree := fst (Open "/data/index" freshOptions emptyWorld).

Definition entry (key value : string) (ts : Z) : Entry := mkEntry key value ts 0 0.

(** Seed scenario 3 of the specification: three revisions of one key. *)
Definition threeRevisions : result TBTree :=
  after (Insert (entry "a" "3" 3))
    (after (Insert (entry "a" "2" 2))
      (after (Insert (entry "a" "1" 1)) freshTree)).

End Reference.

(** ** Definitions used by the properties *)

Import Reference.

(** The byte layout of a commit entry: all fields big-endian, in the
    order checksum, ts, hLogLastEntryOff, hLogLastEntryChecksum,
    totalPages, stalePages, indexedEntryCount, magic. *)
Definition commitLayout (magic crc : Z) (e : CommitEntry) : list Z :=
  be_bytes 4 crc ++ be_bytes 8 (CTs e) ++ be_bytes 8 (HLogLastEntryOff e) ++
  be_bytes 4 (HLogLastEntryChecksum e) ++ be_bytes 8 (TotalPages e) ++
  be_bytes 4 (StalePages e) ++ be_bytes 4 (IndexedEntryCount e) ++ be_bytes 2 magic.

Definition sampleCommitEntry : CommitEntry := mkCommitEntry 0 3 38 1705074730 2 1 7.

(** A result other than the timestamp error. *)
Definition quiet {A} (r : result A) : Prop := r <> Err ErrInvalidTimestamp.

(** [m] never fails on the timestamp, leaves the last snapshot alone,
    and returns values in [P]. *)
Definition ensures {A} (m : M A) (P : A -> Prop) : Prop :=
  forall t, quiet (fst (m t)) /\ lastSnapshotID (snd (m t)) = lastSnapshotID t /\
            (forall a, fst (m t) = Ok a -> P a).

Abbreviation steady m := (ensures m (fun _ => True)).

Section InsertLocked.
Context `{Layout}.

(** What [Insert] does once the timestamp is accepted. *)
Definition Insert_locked (e : Entry) : M unit :=
  locked <~ TryLock ;;
  if negb locked then failWith ErrTreeLocked else
  defer (set_mtx false) (
    ok <~ canAccommodateWrite ;;
    if negb ok then failWith ErrWriteBufferFull else
    root <~ rootPageID ;;
    fuel <~ gets descentFuel ;;
    res <~ insert fuel root e 0 ;;
    (if split res then
       modify (fun t => set_nSplits (nSplits t + 1) t) ;;;
       modify (fun t => set_depth (depth t + 1) t) ;;;
       newRootID <~ withWB wb_AllocInnerPage ;;
       sk <~ sepKey res ;;
       pageOp newRootID (fun pg => InsertKey pg sk (splitPageID res)) ;;;
       updPage newRootID (fun pg => SetAsRoot (SetPageID pg 0 (newPageID res))) ;;;
       modify (set_rootID newRootID)
     else
       modify (set_rootID (newPageID res))) ;;;
    modify (set_rootTs (Ts e)) ;;;
    modify (set_mutated true)).


End InsertLocked.

(** A directory in which no log has been written yet. *)
Definition emptyDirectory (path : string) (opts : Options) : Prop :=
  optInvalid opts = None /\ readDir opts path = Ok [] /\
  forall sub ext, appFactory opts path sub ext = Ok emptyApp.

(** The snapshots the recovery loop tries, in the order it tries them. *)
Fixpoint candidates (entries : list DirEntry) : list (string * Z) :=
  match entries with
  | [] => []
  | e :: rest =>
      match snapshotTs e with
      | Some ts => (Name e, ts) :: candidates rest
      | None => candidates rest
      end
  end.

(** A recovery callback that succeeds on the snapshots [valid] accepts
    and records the one it recovered. *)
Definition recordSnap (valid : string -> Z -> bool) (snapPath : string) (snapTs : Z)
    : ST (option (string * Z)) unit := fun s =>
  if valid snapPath snapTs then (Ok tt, Some (snapPath, snapTs))
  else (Err ErrCorruptedTreeLog, s).

Definition recoveredSnapshot (valid : string -> Z -> bool) (entries : list DirEntry)
    : option (string * Z) :=
  snd (recoverLatestValidTreeSnapshot "index" (fun _ => Ok entries) (recordSnap valid) None).

Definition recovers (valid : string -> Z -> bool) (c : string * Z) : bool :=
  valid (fst c) (snd c).

Definition newerFirst (a b : string * Z) : Prop := snd b <= snd a.

Definition dir (name : string) : DirEntry := mkDirEntry name true.

Definition snapshotListing : list DirEntry :=
  [dir "tree_9"; mkDirEntry "tree_7" false; dir "tree_3"; dir "tree"; dir "tree_1"].

(** *** Concrete inputs *)


Definition blankTree : TBTree := {|
  mtx := false; path := ""; id := 0; mutated := false; logged := [];
  wb := mkWriteBuffer [] 0;
  rootID := PageNone; lastSnapshotID := PageNone; rootTs := 0; lastSnapshotTs := 0;
  indexedEntryCount := 0; headHistoryPageID := PageNone; tailHistoryPageID := PageNone;
  bufferedHistoryData := 0; treeApp := emptyApp; historyApp := emptyApp;
  numPages := 0; stalePages := 0; nSplits := 0; depth := 0; snapshotCount := 0;
  maxActiveSnapshots := 0; syncThld := 0; unsyncedBytes := 0; readOnly := false |}.

Definition treeOf (r : result TBTree) : TBTree :=
  match r with
  | Ok t => t
  | _ => blankTree
  end.

(** The tree of seed scenario 3, before any flush. *)
Definition sampleTree : TBTree := Eval vm_compute in treeOf threeRevisions.

(** A snapshot log whose last commit entry is valid but whose last page
    is not a root page. *)
Definition corruptLog : Appendable :=
  mkApp (encodePage (withEntries emptyLeaf [mkEntry "x" "1" 1 OffsetNone 0]) ++
         default [] (putCommitEntry CommitMagic (mkCommitEntry 0 1 0 0 1 0 0) (zeros 42)))
        false.

Definition brokenFactory (path sub ext : string) : result Appendable :=
  if String.eqb sub "tree_5" then Ok corruptLog else Ok emptyApp.

(** A directory with the one snapshot [tree_5], which does not recover. *)
Definition brokenOptions : Options := options 64 brokenFactory [dir "tree_5"].

(** A directory listed by name, as [os.ReadDir] lists it: the snapshot
    [tree_1], whose log is [older], comes before the snapshot [tree_3],
    whose log is [newer]; the history log holds [history]. *)
Definition staleFirstFactory (older newer : Appendable) (history : list Z)
    (path sub ext : string) : result Appendable :=
  if String.eqb sub "tree_1" then Ok older
  else if String.eqb sub "tree_3" then Ok newer
  else if String.eqb sub HistoryLogFileName then Ok (mkApp history false)
  else Ok emptyApp.

Definition staleFirstOptions (older newer : Appendable) (history : list Z) : Options :=
  options 64 (staleFirstFactory older newer history) [dir "tree_1"; dir "tree_3"].

(** The reference layout in a hostile environment: [Put] reports one
    byte more than the buffer holds, so that [appendPage] panics on the
    slice, and the page buffer has every slot pinned. *)
Definition hostileLayout : Layout := {|
  CommitMagic := 0x7462;
  Put := fun pg buf => (PageSize + 1, snd (RPut pg buf));
  expandToFixedPage := RexpandToFixedPage;
  PageFromBytes := RPageFromBytes;
  leafFits := RleafFits;
  innerFits := RinnerFits;
  historyFits := RhistoryFits;
  pgBufExhausted := fun _ => true;
|}.

Definition bigValue (c : ascii) : string := string_of_list_ascii (replicate 2000 c).

(** Three inserts of 2000-byte values: the third splits the root leaf. *)
Definition splitTree : result TBTree :=
  after (Insert (entry "k3" (bigValue "c") 3))
    (after (Insert (entry "k2" (bigValue "b") 2))
      (after (Insert (entry "k1" (bigValue "a") 1)) freshTree)).

Definition flushedSplitTree : result TBTree := after Flush splitTree.

(** ** Reads by revision *)

Section Revisions.
Context `{Layout}.

(** [fuel] bounds the depth of the descent. *)
Fixpoint findPage (fuel : nat) (t : TBTree) (key : string) (id : PageID)
    : result (Page * PageID) :=
  match fuel with
  | O => Diverged
  | S fuel =>
      page <- pgBuf_Get t id ;;
      if IsLeaf page then Ok (page, id) else
      x <- Find page key ;;
      findPage fuel t key (snd x)
  end.

(** The loop [for i := 0; i < n-1; i++] of [getRevision]: each round
    reads the eight bytes at [hoff] and moves to the offset they
    hold. *)
Fixpoint followPrevOffsets (rounds : nat) (ha : Appendable) (hoff : Z) : result Z :=
  match rounds with
  | O => Ok hoff
  | S rounds =>
      buf <- app_ReadAt ha 8 (to_int64 hoff) ;;
      followPrevOffsets rounds ha (be_value buf)
  end.

Definition getRevision (t : TBTree) (hoff : Z) (n : Z) : result HistoryEntry :=
  hoff <- followPrevOffsets (Z.to_nat (to_int64 (n - 1))) (historyApp t) hoff ;;
  buf <- app_ReadAt (historyApp t) 18 (to_int64 hoff) ;;
  let ts := be_value (take 8 (drop 8 buf)) in
  let vlen := be_value (take 2 (drop 16 buf)) in
  if MaxEntrySize <? vlen then Panic "slice bounds out of range" else
  value <- app_ReadAt (historyApp t) vlen (to_int64 (wrap64 (hoff + 18))) ;;
  Ok (mkHistoryEntry OffsetNone ts (string_of_bytes value)).

(** A page id of the tree log is the offset its image ends at, so no
    descent through distinct pages is longer than the log. *)
Definition GetRevision (key : string) (version : Z) : M (string * Z) := fun t =>
  (x <- findPage (S (length (appData (treeApp t)))) t key (lastSnapshotID t) ;;
   e <- GetEntry (fst x) key ;;
   if version =? to_int64 (to_int64 (HC e) + 1) then Ok (Value e, Ts e) else
   if version >? to_int64 (HC e) then Err ErrKeyRevisionNotFound else
   let n := to_int64 (to_int64 (wrap64 (HC e - wrap64 version)) + 1) in
   he <- getRevision t (HOff e) n ;;
   Ok (HValue he, HTs he), t).

End Revisions.

(** ** Definitions used by the further properties *)

(** The byte of [buf] at index [i], as Go reads it within bounds. *)
Definition byteAt (buf : list Z) (i : nat) : Z := default 0 (buf !! i).

(** The two bytes of the commit magic end at index [i] of [buf]. *)
Definition magicEndsAt (magic : Z) (buf : list Z) (i : nat) : bool :=
  (byteAt buf i =? Z.land magic 255) &&
  (byteAt buf (i - 1) =? Z.land (Z.shiftr magic 8) 255).

(** The bytes [data[off : off+n]] of a log. *)
Definition slice (data : list Z) (off : Z) (n : nat) : list Z :=
  take n (drop (Z.to_nat off) data).

(** The entry [readCommitEntry] returns for what [putCommitEntry]
    wrote with checksum [crc]. *)
Definition stamped (crc : Z) (e : CommitEntry) : CommitEntry :=
  mkCommitEntry crc (CTs e) (HLogLastEntryOff e) (HLogLastEntryChecksum e)
    (TotalPages e) (StalePages e) (IndexedEntryCount e).

(** The field types of a history record, and the bound [getRevision]
    puts on the length of a value. *)
Definition HistoryEntry_wf (he : HistoryEntry) : Prop :=
  is_uint 64 (PrevOffset he) /\ is_uint 64 (HTs he) /\
  Z.of_nat (String.length (HValue he)) <= MaxEntrySize.

(** The history log holds the record of [he] at offset [hoff], and
    the offsets of its bytes are 63-bit numbers. *)
Definition recordAt (ha : Appendable) (hoff : Z) (he : HistoryEntry) : Prop :=
  0 <= hoff /\ hoff + Z.of_nat (length (encodeHistoryEntry he)) < 2 ^ 63 /\
  slice (appData ha) hoff (length (encodeHistoryEntry he)) = encodeHistoryEntry he.

(** The records [hes] are in the history log, the first at [hoff] and
    each next one at the previous offset of the one before. *)
Fixpoint chainAt (ha : Appendable) (hoff : Z) (hes : list HistoryEntry) : Prop :=
  match hes with
  | [] => True
  | he :: rest =>
      recordAt ha hoff he /\ HistoryEntry_wf he /\ chainAt ha (PrevOffset he) rest
  end.

(** *** What a call leaves alone *)

(** [m] leaves the part [view] of the tree as it found it. *)
Definition keeps {X A} (view : TBTree -> X) (m : M A) : Prop :=
  forall t, view (snd (m t)) = view t.

(** [m] leaves [view] as it found it whenever it does not return
    normally. *)
Definition failsafe {X A} (view : TBTree -> X) (m : M A) : Prop :=
  forall t, (forall a, fst (m t) <> Ok a) -> view (snd (m t)) = view t.

(** [m] always returns normally. *)
Definition total {A} (m : M A) : Prop := forall t, exists a, fst (m t) = Ok a.

(** Whenever [m] returns normally the tree is in [Q]. *)
Definition onSuccess {A} (m : M A) (Q : TBTree -> Prop) : Prop :=
  forall t a, fst (m t) = Ok a -> Q (snd (m t)).

(** What is on disk or was fixed when the tree was opened: the two
    logs, the last snapshot, the counters the flush maintains, what was
    logged, and the configuration. *)
Definition settled (t : TBTree) :=
  (treeApp t, historyApp t, lastSnapshotID t, lastSnapshotTs t, indexedEntryCount t,
   numPages t, stalePages t, snapshotCount t, unsyncedBytes t, logged t,
   (path t, id t, maxActiveSnapshots t, syncThld t, readOnly t)).

(** The root as a reader of the in-memory tree sees it. *)
Definition rootView (t : TBTree) := (rootID t, rootTs t, mutated t).

(** What the descent of an insert leaves alone: all but the write
    buffer, the depth and split counters and the history chain. *)
Definition aboveBuffer (t : TBTree) := (settled t, rootView t, mtx t).

Section InsertBody.
Context `{Layout}.

(** What [Insert] does between taking the lock and releasing it. *)
Definition Insert_body (e : Entry) : M unit :=
  ok <~ canAccommodateWrite ;;
  if negb ok then failWith ErrWriteBufferFull else
  root <~ rootPageID ;;
  fuel <~ gets descentFuel ;;
  res <~ insert fuel root e 0 ;;
  (if split res then
     modify (fun t => set_nSplits (nSplits t + 1) t) ;;;
     modify (fun t => set_depth (depth t + 1) t) ;;;
     newRootID <~ withWB wb_AllocInnerPage ;;
     sk <~ sepKey res ;;
     pageOp newRootID (fun pg => InsertKey pg sk (splitPageID res)) ;;;
     updPage newRootID (fun pg => SetAsRoot (SetPageID pg 0 (newPageID res))) ;;;
     modify (set_rootID newRootID)
   else
     modify (set_rootID (newPageID res))) ;;;
  modify (set_rootTs (Ts e)) ;;;
  modify (set_mutated true).

End InsertBody.

(** *** Logs that only grow *)

(** The content of [a] is still there, at the same offsets, in [a']. *)
Definition grows (a a' : Appendable) : Prop := appData a `prefix_of` appData a'.

(** However [m] ends, it has at most appended to the two logs of the
    tree. *)
Definition appendOnly {A} (m : M A) : Prop :=
  forall t, grows (treeApp t) (treeApp (snd (m t))) /\
            grows (historyApp t) (historyApp (snd (m t))).

(** The same for the flush functions, which also write to the
    destination log. *)
Definition appendOnlyTo {A} (m : ST (TBTree * Appendable) A) : Prop :=
  forall s, grows (treeApp (fst s)) (treeApp (fst (snd (m s)))) /\
            grows (historyApp (fst s)) (historyApp (fst (snd (m s)))) /\
            grows (snd s) (snd (snd (m s))).

(** [Put] writes into the buffer it is given, which keeps its
    length. *)
Definition PutInPlace `{Layout} : Prop :=
  forall pg buf, length (snd (Put pg buf)) = length buf.

(** A flush function leaves the part [view] of the tree as it found
    it. *)
Definition keepsTo {X A} (view : TBTree -> X) (m : ST (TBTree * Appendable) A) : Prop :=
  forall s, view (fst (snd (m s))) = view (fst s).

(** The fields that [flushTo] reads for the commit entry or leaves to
    its caller. *)
Definition committed (t : TBTree) :=
  (rootTs t, indexedEntryCount t, stalePages t, numPages t,
   (mtx t, mutated t, treeApp t, rootID t, lastSnapshotID t)).

(** The field types of the counters a commit entry records. *)
Definition counters_wf (t : TBTree) : Prop :=
  is_uint 64 (rootTs t) /\ is_uint 32 (indexedEntryCount t).

(** What [maybeSync] leaves alone: all but the count of unsynced
    bytes, the snapshot counter and the logger. *)
Definition besideSync (t : TBTree) :=
  (treeApp t, historyApp t, wb t, rootView t, mtx t,
   (lastSnapshotID t, lastSnapshotTs t, indexedEntryCount t, numPages t, stalePages t),
   (headHistoryPageID t, tailHistoryPageID t, bufferedHistoryData t, nSplits t, depth t)).

(** The line [flushToTreeLog] logs when there is nothing to flush. *)
Definition notNeeded : LogMsg := mkLogMsg LInfo "flushing not needed. exiting..." [].

(** The tree with one more line in its log. *)
Definition withLog (msg : LogMsg) (t : TBTree) : TBTree := set_logged (logged t ++ [msg]) t.

(** Whenever [m] returns normally, the value it returns is in [P]. *)
Definition returns {A} (m : M A) (P : A -> Prop) : Prop :=
  forall t a, fst (m t) = Ok a -> P a.

(** Every slot of the arena has an in-memory id: the high bit marks
    the id and the other 63 bits hold the slot. *)
Definition arenaAddressable (t : TBTree) : Prop :=
  Z.of_nat (wbMaxPages (wb t)) <= 2 ^ 63.

(** *** Further concrete inputs *)

(** The tree of seed scenario 3 after a flush. *)
Definition flushedTree : TBTree := Eval vm_compute in treeOf (after Flush threeRevisions).

(** The tree flushed after the first insert of seed scenario 3. *)
Definition flushedOnce : TBTree :=
  Eval vm_compute in treeOf (after Flush (after (Insert (entry "a" "1" 1)) freshTree)).

(** A directory that holds the log [tree] and the one snapshot
    [tree_4], every log being empty. *)
Definition snapshotOptions : Options := options 64 freshFactory [dir "tree"; dir "tree_4"].

(** The two records the flush of seed scenario 3 wrote to the history
    log: revision 1 at offset 0 and revision 2 at offset 19. *)
Definition firstRevision : HistoryEntry := mkHistoryEntry OffsetNone 1 "1".
Definition secondRevision : HistoryEntry := mkHistoryEntry 0 2 "2".

(** ** Properties *)

(** *** Big-endian encoding *)

Lemma lor_shiftl_byte (a b : Z) :
  0 <= b < 256 -> Z.lor (Z.shiftl a 8) b = a * 256 + b.
Proof.
  intros Hb.
  rewrite Z.shiftl_mul_pow2 by lia. change (2 ^ 8) with 256.
  rewrite <- Z.lxor_lor, <- Z.add_nocarry_lxor; try reflexivity.
  all: apply Z.bits_inj'; intros n Hn; rewrite Z.land_spec, Z.bits_0;
    destruct (Z.ltb_spec n 8).
  all: try (change 256 with (2 ^ 8); rewrite Z.mul_pow2_bits_low by lia; reflexivity).
  all: rewrite (Z.bits_above_log2 b n), andb_false_r; try reflexivity; try lia.
  all: destruct (Z.eq_dec b 0) as [->|]; [simpl; lia|];
    assert (Z.log2 b < 8) by (apply Z.log2_lt_pow2; lia); lia.
Qed.

Lemma be_value_acc (n : nat) (v acc : Z) :
  fold_left (fun acc b => Z.lor (Z.shiftl acc 8) b) (be_bytes n v) acc
  = acc * 2 ^ (8 * Z.of_nat n) + v mod 2 ^ (8 * Z.of_nat n).
Proof.
  revert acc. induction n as [|k IH]; intros acc.
  - simpl. rewrite Z.mod_1_r. lia.
  - cbn [be_bytes fold_left]. rewrite IH.
    change 255 with (Z.ones 8). rewrite Z.land_ones by lia.
    rewrite Z.shiftr_div_pow2 by lia.
    rewrite lor_shiftl_byte by (apply Z.mod_pos_bound; lia).
    replace (8 * Z.of_nat (S k)) with (8 * Z.of_nat k + 8) by lia.
    rewrite (Z.pow_add_r 2 (8 * Z.of_nat k) 8) by lia.
    rewrite (Z.rem_mul_r v (2 ^ (8 * Z.of_nat k)) (2 ^ 8)) by lia.
    change (2 ^ 8) with 256. ring.
Qed.

Lemma be_value_be_bytes (n : nat) (v : Z) :
  be_value (be_bytes n v) = v mod 2 ^ (8 * Z.of_nat n).
Proof. unfold be_value. rewrite be_value_acc. lia. Qed.

Lemma be_value_uint (n : nat) (v : Z) :
  is_uint (8 * Z.of_nat n) v -> be_value (be_bytes n v) = v.
Proof. intros Hv. rewrite be_value_be_bytes. apply Z.mod_small. exact Hv. Qed.

(** *** The checksum is a 32-bit value *)

Lemma lxor_uint (n a b : Z) :
  0 <= n -> is_uint n a -> is_uint n b -> is_uint n (Z.lxor a b).
Proof.
  unfold is_uint. intros Hn Ha Hb.
  assert (Hx : 0 <= Z.lxor a b) by (apply Z.lxor_nonneg; lia).
  split; [exact Hx|].
  destruct (Z.eq_dec (Z.lxor a b) 0) as [->|Hne]; [lia|].
  apply Z.log2_lt_pow2; [lia|].
  pose proof (Z.log2_lxor a b ltac:(lia) ltac:(lia)) as Hl.
  assert (Z.log2 a < n \/ a = 0) as Ha' by
    (destruct (Z.eq_dec a 0); [right; assumption|left; apply Z.log2_lt_pow2; lia]).
  assert (Z.log2 b < n \/ b = 0) as Hb' by
    (destruct (Z.eq_dec b 0); [right; assumption|left; apply Z.log2_lt_pow2; lia]).
  destruct Ha' as [Ha'| ->], Hb' as [Hb'| ->];
    rewrite ?Z.lxor_0_r, ?Z.lxor_0_l in *; change (Z.log2 0) with 0 in *; try lia.
  all: apply Z.log2_lt_pow2 in Ha' || apply Z.log2_lt_pow2 in Hb'; lia.
Qed.

Lemma shiftr_uint (n a k : Z) :
  0 <= k -> is_uint n a -> is_uint n (Z.shiftr a k).
Proof.
  unfold is_uint. intros Hk Ha. rewrite Z.shiftr_div_pow2 by lia.
  assert (0 < 2 ^ k) by lia. split.
  - apply Z.div_pos; lia.
  - apply Z.le_lt_trans with a; [|lia]. apply Z.div_le_upper_bound; nia.
Qed.

Lemma crcTableEntry_uint (i : Z) :
  is_uint 32 i -> is_uint 32 (crcTableEntry Castagnoli i).
Proof.
  intros Hi. unfold crcTableEntry.
  apply (Nat.iter_invariant 8 Z _ (is_uint 32)); [|exact Hi].
  intros x Hx. destruct (Z.testbit x 0).
  - apply lxor_uint; [lia| |unfold is_uint, Castagnoli; lia].
    apply shiftr_uint; [lia|exact Hx].
  - apply shiftr_uint; [lia|exact Hx].
Qed.

Lemma crcUpdate_uint (data : list Z) (crc : Z) :
  is_uint 32 crc -> is_uint 32 (crcUpdate Castagnoli crc data).
Proof.
  revert crc. induction data as [|b data IH]; intros crc Hc; [exact Hc|].
  cbn [crcUpdate fold_left]. apply IH.
  apply lxor_uint; [lia| |apply shiftr_uint; [lia|exact Hc]].
  apply crcTableEntry_uint.
  change 255 with (Z.ones 8). rewrite Z.land_ones by lia.
  pose proof (Z.mod_pos_bound (Z.lxor crc b) (2 ^ 8)). unfold is_uint. lia.
Qed.

Lemma computeChecksum_uint (data : list Z) : is_uint 32 (computeChecksum data).
Proof.
  unfold computeChecksum.
  apply lxor_uint; [lia| |unfold is_uint; lia].
  apply crcUpdate_uint. unfold is_uint. rewrite Z.lxor_0_l. lia.
Qed.

(** The check value of CRC-32C. *)
Example crc32c_check_value :
  computeChecksum [49; 50; 51; 52; 53; 54; 55; 56; 57] = 0xe3069283.
Proof. vm_compute. reflexivity. Qed.

(** *** The table-driven checksum is CRC-32C *)

Lemma crc32cShift_lxor (x y : Z) :
  crc32cShift (Z.lxor x y) = Z.lxor (crc32cShift x) (crc32cShift y).
Proof.
  unfold crc32cShift. rewrite <- !Z.bit0_odd, Z.lxor_spec, !Z.div2_spec, Z.shiftr_lxor.
  destruct (Z.testbit x 0), (Z.testbit y 0); cbn [xorb];
    apply Z.bits_inj'; intros n _; rewrite ?Z.lxor_spec;
    destruct (Z.testbit (Z.shiftr x 1) n), (Z.testbit (Z.shiftr y 1) n),
      (Z.testbit 0x82f63b78 n); reflexivity.
Qed.

Lemma crc32cShift_iter_lxor (k : nat) (x y : Z) :
  Nat.iter k crc32cShift (Z.lxor x y)
  = Z.lxor (Nat.iter k crc32cShift x) (Nat.iter k crc32cShift y).
Proof.
  induction k as [|k IH]; [reflexivity|].
  cbn [Nat.iter nat_rect]. change (nat_rect _ ?a ?f k) with (Nat.iter k crc32cShift a) in *.
  rewrite IH. apply crc32cShift_lxor.
Qed.

(** [k] shifts of a register whose [k] low bits are zero move it down
    by [k] bits: no one is shifted out. *)
Lemma crc32cShift_iter_shiftl (k : nat) (y : Z) :
  Nat.iter k crc32cShift (Z.shiftl y (Z.of_nat k)) = y.
Proof.
  revert y. induction k as [|k IH]; intros y.
  - cbn. apply Z.shiftl_0_r.
  - rewrite Nat.iter_succ_r. unfold crc32cShift at 2.
    rewrite <- Z.bit0_odd, Z.shiftl_spec_low by lia.
    rewrite Z.div2_spec, Z.shiftr_shiftl_l by lia.
    replace (Z.of_nat (S k) - 1) with (Z.of_nat k) by lia. apply IH.
Qed.

Lemma low_byte_split (x : Z) :
  x = Z.lxor (Z.land x 255) (Z.shiftl (Z.shiftr x 8) 8).
Proof.
  apply Z.bits_inj'; intros n Hn. rewrite Z.lxor_spec, Z.land_spec.
  change 255 with (Z.ones 8).
  destruct (Z.ltb_spec n 8).
  - rewrite Z.ones_spec_low, Z.shiftl_spec_low by lia.
    rewrite andb_true_r, xorb_false_r. reflexivity.
  - rewrite Z.ones_spec_high, Z.shiftl_spec, Z.shiftr_spec by lia.
    rewrite andb_false_r, xorb_false_l. f_equal. lia.
Qed.

(** One step of the table-driven update is the eight shifts of the
    register: the table entry accounts for the low byte, and the rest of
    the register only moves down. *)
Lemma crcTable_step (crc b : Z) :
  isByte b ->
  Z.lxor (crcTableEntry Castagnoli (Z.land (Z.lxor crc b) 255)) (Z.shiftr crc 8)
  = crc32cByte crc b.
Proof.
  intros Hb. unfold crc32cByte.
  rewrite (low_byte_split (Z.lxor crc b)) at 2.
  rewrite crc32cShift_iter_lxor.
  rewrite (crc32cShift_iter_shiftl 8).
  rewrite Z.shiftr_lxor.
  replace (Z.shiftr b 8) with 0
    by (rewrite Z.shiftr_div_pow2 by lia; symmetry; apply Z.div_small; exact Hb).
  rewrite Z.lxor_0_r. reflexivity.
Qed.

Lemma computeChecksum_CRC32_Castagnoli (data : list Z) :
  Forall isByte data -> computeChecksum data = CRC32_Castagnoli data.
Proof.
  intros Hdata. unfold computeChecksum, CRC32_Castagnoli, crcUpdate. f_equal.
  change (Z.lxor 0 4294967295) with 4294967295.
  generalize 4294967295. induction Hdata as [|b data Hb _ IH]; intros crc; [reflexivity|].
  cbn [fold_left]. rewrite crcTable_step by exact Hb. apply IH.
Qed.

Example CRC32_Castagnoli_check_value :
  CRC32_Castagnoli [49; 50; 51; 52; 53; 54; 55; 56; 57] = 0xe3069283.
Proof. vm_compute. reflexivity. Qed.

Arguments computeChecksum : simpl never.

(** *** Commit entries *)

Lemma putCommitEntry_layout (magic : Z) (e : CommitEntry) (buf : list Z) :
  length buf = CommitEntrySize ->
  exists crc, putCommitEntry magic e buf = Some (commitLayout magic crc e) /\
     crc = computeChecksum (drop 4 (commitLayout magic crc e)).
Proof.
  intros Hlen.
  do 43 (destruct buf as [|? buf]; try discriminate Hlen).
  eexists. split.
  - cbv [putCommitEntry PutUint32 PutUint64 PutUint16 write_at be_bytes length Nat.leb
         Nat.add take drop app mbind option_bind ChecksumSize commitLayout].
    reflexivity.
  - cbv [commitLayout be_bytes app drop]. reflexivity.
Qed.

Lemma readCommitEntry_layout (magic crc : Z) (e : CommitEntry) :
  CommitEntry_wf e ->
  crc = computeChecksum (drop 4 (commitLayout magic crc e)) ->
  readCommitEntry (commitLayout magic crc e)
  = Ok (mkCommitEntry crc (CTs e) (HLogLastEntryOff e) (HLogLastEntryChecksum e)
          (TotalPages e) (StalePages e) (IndexedEntryCount e)).
Proof.
  intros (Hts & Hoff & Hck & Htot & Hst & Hidx) Hcrc.
  assert (Hc : is_uint 32 crc) by (rewrite Hcrc; apply computeChecksum_uint).
  unfold readCommitEntry.
  replace (length (commitLayout magic crc e)) with CommitEntrySize by reflexivity.
  rewrite Nat.eqb_refl. cbn [negb].
  change (drop ChecksumSize (commitLayout magic crc e))
    with (drop 4 (commitLayout magic crc e)).
  rewrite <- Hcrc.
  change (Uint32 (commitLayout magic crc e) 0) with (Some (be_value (be_bytes 4 crc))).
  change (Uint64 (commitLayout magic crc e) (0 + 4)) with (Some (be_value (be_bytes 8 (CTs e)))).
  change (Uint64 (commitLayout magic crc e) (0 + 4 + 8))
    with (Some (be_value (be_bytes 8 (HLogLastEntryOff e)))).
  change (Uint32 (commitLayout magic crc e) (0 + 4 + 8 + 8))
    with (Some (be_value (be_bytes 4 (HLogLastEntryChecksum e)))).
  change (Uint64 (commitLayout magic crc e) (0 + 4 + 8 + 8 + 4))
    with (Some (be_value (be_bytes 8 (TotalPages e)))).
  change (Uint32 (commitLayout magic crc e) (0 + 4 + 8 + 8 + 4 + 8))
    with (Some (be_value (be_bytes 4 (StalePages e)))).
  change (Uint32 (commitLayout magic crc e) (0 + 4 + 8 + 8 + 4 + 8 + 4))
    with (Some (be_value (be_bytes 4 (IndexedEntryCount e)))).
  cbn [from_option Datatypes.id].
  rewrite !be_value_uint by assumption.
  rewrite Z.eqb_refl. reflexivity.
Qed.

(** Claim C8: [CommitEntrySize] is 42, and for every commit entry [e]
    (with fields of the widths of the Go struct) [putCommitEntry] fills
    a 42-byte buffer with the fields of [e] in big-endian order:
    checksum, ts, hLogLastEntryOff, hLogLastEntryChecksum, totalPages,
    stalePages, indexedEntryCount, magic; the stored checksum is what
    [computeChecksum] returns for the 38 bytes after it, which is their
    CRC32-Castagnoli as the specification names it; and
    [readCommitEntry] on that buffer succeeds and returns the six fields
    of [e]. *)
Theorem commit_entry_roundtrip (magic : Z) (e : CommitEntry) (buf : list Z) :
  CommitEntry_wf e -> length buf = CommitEntrySize ->
  CommitEntrySize = 42%nat /\
  exists crc out e',
    putCommitEntry magic e buf = Some out /\
    out = commitLayout magic crc e /\
    length (drop ChecksumSize out) = 38%nat /\
    crc = computeChecksum (drop ChecksumSize out) /\
    crc = CRC32_Castagnoli (drop ChecksumSize out) /\
    readCommitEntry out = Ok e' /\
    Checksum e' = crc /\
    CTs e' = CTs e /\
    HLogLastEntryOff e' = HLogLastEntryOff e /\
    HLogLastEntryChecksum e' = HLogLastEntryChecksum e /\
    TotalPages e' = TotalPages e /\
    StalePages e' = StalePages e /\
    IndexedEntryCount e' = IndexedEntryCount e.
Proof.
  intros Hwf Hlen. split; [reflexivity|].
  destruct (putCommitEntry_layout magic e buf Hlen) as (crc & Hput & Hcrc).
  exists crc, (commitLayout magic crc e). eexists.
  split; [exact Hput|]. split; [reflexivity|]. split; [reflexivity|].
  split; [exact Hcrc|].
  split.
  { rewrite Hcrc at 1. apply computeChecksum_CRC32_Castagnoli.
    cbv [commitLayout be_bytes app drop ChecksumSize].
    repeat (apply Forall_cons; split;
      [change 255 with (Z.ones 8); rewrite Z.land_ones by lia;
       unfold isByte; change 256 with (2 ^ 8); apply Z.mod_pos_bound; lia|]).
    constructor. }
  split; [apply (readCommitEntry_layout magic crc e Hwf Hcrc)|].
  repeat split.
Qed.

Lemma commit_entry_roundtrip_witness :
  CommitEntry_wf sampleCommitEntry /\
  length (zeros 42) = CommitEntrySize /\
  exists out e',
    putCommitEntry 0x7462 sampleCommitEntry (zeros 42) = Some out /\
    out = [185; 3; 97; 41; 0; 0; 0; 0; 0; 0; 0; 3; 0; 0; 0; 0; 0; 0; 0; 38;
           101; 161; 96; 42; 0; 0; 0; 0; 0; 0; 0; 2; 0; 0; 0; 1; 0; 0; 0; 7;
           116; 98] /\
    CRC32_Castagnoli (drop 4 out) = 0xb9036129 /\
    readCommitEntry out = Ok e' /\ Checksum e' = 0xb9036129 /\
    CTs e' = 3 /\ IndexedEntryCount e' = 7.
Proof.
  assert (Hwf : CommitEntry_wf sampleCommitEntry)
    by (unfold CommitEntry_wf, is_uint; cbn; lia).
  split; [exact Hwf|]. split; [reflexivity|].
  destruct (commit_entry_roundtrip 0x7462 sampleCommitEntry (zeros 42) Hwf eq_refl)
    as (_ & crc & out & e' & Hput & Hout & _ & _ & Hcrc & Hread & Hsum & Hts & _ & _ & _ & _
        & Hidx).
  subst out. vm_compute in Hcrc. subst crc.
  exists (commitLayout 0x7462 0xb9036129 sampleCommitEntry), e'.
  split; [exact Hput|]. split; [reflexivity|]. split; [vm_compute; reflexivity|].
  repeat split; assumption.
Defined.

(** *** A Hoare-style rule set for tree methods *)

Lemma ensures_ret {A} (a : A) (P : A -> Prop) : P a -> ensures (ret a) P.
Proof. intros Ha t. cbn. repeat split; [discriminate|]. intros ? [= <-]. exact Ha. Qed.

Lemma ensures_gets {A} (f : TBTree -> A) : steady (gets f).
Proof. intros t. cbn. repeat split. discriminate. Qed.

Lemma ensures_failWith {A} (e : error) (P : A -> Prop) :
  e <> ErrInvalidTimestamp -> ensures (failWith e) P.
Proof. intros He t. cbn. repeat split; [congruence|discriminate]. Qed.

Lemma ensures_panic {A} (msg : string) (P : A -> Prop) : ensures (panic msg) P.
Proof. intros t. cbn. repeat split; discriminate. Qed.

Lemma ensures_diverge {A} (P : A -> Prop) : ensures (@diverge TBTree A) P.
Proof. intros t. cbn. repeat split; discriminate. Qed.

Lemma ensures_lift {A} (r : result A) (P : A -> Prop) :
  quiet r -> (forall a, r = Ok a -> P a) -> ensures (lift r) P.
Proof. intros Hq HP t. cbn. auto. Qed.

Lemma ensures_modify (f : TBTree -> TBTree) :
  (forall t, lastSnapshotID (f t) = lastSnapshotID t) -> steady (modify f).
Proof. intros Hf t. cbn. repeat split; [discriminate|apply Hf]. Qed.

Lemma ensures_bind {A B} (m : M A) (k : A -> M B) (P : A -> Prop) (Q : B -> Prop) :
  ensures m P -> (forall a, P a -> ensures (k a) Q) -> ensures (bind m k) Q.
Proof.
  intros Hm Hk t. unfold bind. destruct (Hm t) as (Hq & Hs & HP).
  destruct (m t) as [[a|e|msg|] t']; cbn in *.
  - destruct (Hk a (HP a eq_refl) t') as (? & ? & ?).
    repeat split; [assumption|congruence|assumption].
  - repeat split; [|assumption|discriminate].
    intros [= ->]. apply Hq. reflexivity.
  - repeat split; [discriminate|assumption|discriminate].
  - repeat split; [discriminate|assumption|discriminate].
Qed.

Lemma ensures_attempt {A} (m : M A) (P : A -> Prop) :
  ensures m P -> ensures (attempt m) (fun r => quiet r /\ forall a, r = Ok a -> P a).
Proof.
  intros Hm t. unfold attempt. destruct (Hm t) as (Hq & Hs & HP).
  destruct (m t) as [[a|e|msg|] t']; cbn in *.
  - split; [|split]; [discriminate|assumption|].
    intros r [= <-]. split; [discriminate|assumption].
  - split; [|split]; [discriminate|assumption|].
    intros r [= <-]. split; [assumption|discriminate].
  - split; [|split]; [discriminate|assumption|discriminate].
  - split; [|split]; [discriminate|assumption|discriminate].
Qed.

Lemma ensures_defer {A} (f : TBTree -> TBTree) (m : M A) (P : A -> Prop) :
  (forall t, lastSnapshotID (f t) = lastSnapshotID t) -> ensures m P -> ensures (defer f m) P.
Proof.
  intros Hf Hm t. unfold defer. destruct (Hm t) as (Hq & Hs & HP).
  destruct (m t) as [r t']; cbn in *. rewrite Hf. auto.
Qed.

Create HintDb steady.

Ltac steady_step :=
  lazymatch goal with
  | |- ensures (bind (attempt _) _) _ =>
      eapply ensures_bind; [apply ensures_attempt with (P := fun _ => True) | intros ? [? _]]
  | |- ensures (bind _ _) _ => apply ensures_bind with (P := fun _ => True); [| intros ? _]
  | |- ensures (ret _) _ => apply ensures_ret; exact I
  | |- ensures (gets _) _ => apply ensures_gets
  | |- ensures (modify _) _ => apply ensures_modify; intros; reflexivity
  | |- ensures (failWith _) _ => apply ensures_failWith; first [discriminate | congruence]
  | |- ensures (panic _) _ => apply ensures_panic
  | |- ensures diverge _ => apply ensures_diverge
  | |- ensures (lift _) _ => apply ensures_lift; [first [assumption | auto with steady] | trivial]
  | |- ensures (if ?b then _ else _) _ => destruct b
  | |- ensures (match ?x with _ => _ end) _ => destruct x
  | |- ensures _ _ => solve [eauto with steady]
  end.

Ltac steady := repeat steady_step.

Lemma quiet_ok {A} (a : A) : quiet (Ok a).
Proof. discriminate. Qed.

#[export] Hint Resolve quiet_ok : steady.

Lemma quiet_rbind {A B} (r : result A) (k : A -> result B) :
  quiet r -> (forall a, quiet (k a)) -> quiet (rbind r k).
Proof. destruct r; cbn; auto; intros Hq _ [= ->]; apply Hq; reflexivity. Qed.

Lemma wb_alloc_quiet (w : WriteBuffer) (mp : MemPage) : quiet (fst (wb_alloc w mp)).
Proof. unfold quiet, wb_alloc. destruct (_ <? _)%nat; discriminate. Qed.

Lemma wb_Get_quiet (w : WriteBuffer) (id : PageID) : quiet (wb_Get w id).
Proof.
  unfold quiet, wb_Get. destruct (negb _); [discriminate|].
  destruct (_ !! _) as [[]|]; discriminate.
Qed.

Lemma wb_GetHistoryPage_quiet (w : WriteBuffer) (id : PageID) : quiet (wb_GetHistoryPage w id).
Proof.
  unfold quiet, wb_GetHistoryPage. destruct (negb _); [discriminate|].
  destruct (_ !! _) as [[]|]; discriminate.
Qed.

Lemma wb_GetOrDup_quiet (w : WriteBuffer) (id : PageID) (loader : PageID -> result Page) :
  (forall id, quiet (loader id)) -> quiet (fst (wb_GetOrDup w id loader)).
Proof.
  intros Hl. unfold wb_GetOrDup. destruct (isMemPage id).
  - pose proof (wb_Get_quiet w id) as Hq. unfold quiet in *.
    destruct (wb_Get w id); cbn; congruence.
  - destruct (negb _); [unfold quiet; cbn; discriminate|].
    pose proof (Hl id) as Hq. unfold quiet in *. destruct (loader id); cbn; congruence.
Qed.

Lemma app_ReadAt_quiet (a : Appendable) (n off : Z) : quiet (app_ReadAt a n off).
Proof. unfold quiet, app_ReadAt. repeat (destruct (_ : bool)); discriminate. Qed.

Lemma withWB_steady {A} (f : WriteBuffer -> result A * WriteBuffer) :
  (forall w, quiet (fst (f w))) -> steady (withWB f).
Proof.
  intros Hf t. unfold withWB. specialize (Hf (wb t)). destruct (f (wb t)); cbn in *. auto.
Qed.

Lemma getMemPage_steady (id : PageID) : steady (getMemPage id).
Proof. intros t. cbn. auto using wb_Get_quiet. Qed.

Lemma getHistoryPage_steady (id : PageID) : steady (getHistoryPage id).
Proof. intros t. cbn. auto using wb_GetHistoryPage_quiet. Qed.

Lemma storePage_steady (id : PageID) (pg : Page) : steady (storePage id pg).
Proof. unfold storePage. steady. Qed.

Lemma storeHistoryPage_steady (id : PageID) (hp : HistoryPage) : steady (storeHistoryPage id hp).
Proof. unfold storeHistoryPage. steady. Qed.

#[export] Hint Resolve getMemPage_steady getHistoryPage_steady storePage_steady
  storeHistoryPage_steady wb_alloc_quiet withWB_steady : steady.

Lemma updPage_steady (id : PageID) (f : Page -> Page) : steady (updPage id f).
Proof. unfold updPage. steady. Qed.

Lemma pageOp_steady {A} (id : PageID) (op : Page -> result (Page * A)) :
  (forall pg, quiet (op pg)) -> steady (pageOp id op).
Proof. intros Hop. unfold pageOp. steady. Qed.

Lemma sepKey_steady (r : insertResult) : steady (sepKey r).
Proof. unfold sepKey. steady. Qed.

Lemma TryLock_steady : steady TryLock.
Proof. intros t. unfold TryLock. destruct (mtx t); cbn; repeat split; discriminate. Qed.

#[export] Hint Resolve updPage_steady pageOp_steady sepKey_steady TryLock_steady : steady.

Section TreeProperties.
Context {LY : Layout} {SL : SnapshotLayer}.

(** *** No step of the descent fails on the timestamp or touches the
    last snapshot *)

Lemma readPage_quiet (t : TBTree) (dst : list Z) (pgID : PageID) : quiet (readPage t dst pgID).
Proof.
  unfold readPage. destruct (_ <? 0); [unfold quiet; discriminate|].
  apply quiet_rbind.
  - unfold readPageToBuf. destruct (_ <? 0).
    + destruct (_ <? _); [unfold quiet; discriminate|].
      apply quiet_rbind; [apply app_ReadAt_quiet|unfold quiet; discriminate].
    + apply app_ReadAt_quiet.
  - intros a. unfold quiet. destruct (expandToFixedPage a); discriminate.
Qed.

Lemma dupPage_quiet (t : TBTree) (pgID : PageID) : quiet (dupPage t pgID).
Proof.
  unfold dupPage, pgBuf_Get. destruct (pgBufExhausted pgID); [unfold quiet; discriminate|].
  apply quiet_rbind; [apply readPage_quiet|unfold quiet; discriminate].
Qed.

Lemma GetOrDup_steady (id : PageID) : steady (GetOrDup id).
Proof.
  intros t. unfold GetOrDup.
  pose proof (wb_GetOrDup_quiet (wb t) id (dupPage t) (dupPage_quiet t)) as Hq.
  destruct (wb_GetOrDup (wb t) id (dupPage t)); cbn in *. auto.
Qed.

Lemma InsertEntry_quiet (pg : Page) (e : Entry) : quiet (InsertEntry pg e).
Proof. unfold quiet, InsertEntry. destruct (find _ _); destruct (leafFits _); discriminate. Qed.

Lemma Remove_quiet (pg : Page) (key : string) : quiet (Remove pg key).
Proof. unfold quiet, Remove. destruct (find _ _); discriminate. Qed.

Lemma InsertKey_quiet (pg : Page) (key : string) (id : PageID) : quiet (InsertKey pg key id).
Proof. unfold quiet, InsertKey. destruct (innerFits _); discriminate. Qed.

Lemma Find_quiet (pg : Page) (key : string) : quiet (Find pg key).
Proof. unfold quiet, Find. destruct (_ !! _); discriminate. Qed.

Lemma HistoryPage_Append_quiet (hp : HistoryPage) (he : HistoryEntry) :
  quiet (HistoryPage_Append hp he).
Proof. unfold quiet, HistoryPage_Append. destruct (historyFits _); discriminate. Qed.

Hint Resolve InsertEntry_quiet Remove_quiet InsertKey_quiet Find_quiet
  HistoryPage_Append_quiet GetOrDup_steady : steady.

Lemma getCurrHistoryPage_steady : steady getCurrHistoryPage.
Proof. unfold getCurrHistoryPage, wb_AllocHistoryPage. steady. Qed.

Lemma historyAppend_steady (id : PageID) (he : HistoryEntry) : steady (historyAppend id he).
Proof. unfold historyAppend. steady. Qed.

Hint Resolve getCurrHistoryPage_steady historyAppend_steady : steady.

Lemma archiveEntry_steady (e : Entry) : steady (archiveEntry e).
Proof. unfold archiveEntry, wb_AllocHistoryPage. steady. Qed.

Hint Resolve archiveEntry_steady : steady.

Lemma insertEmpty_steady (e : Entry) : steady (insertEmpty e).
Proof. unfold insertEmpty, wb_AllocLeafPage. steady. Qed.

Lemma splitLeafPage_steady (pgID : PageID) (e : Entry) : steady (splitLeafPage pgID e).
Proof. unfold splitLeafPage, wb_AllocLeafPage. steady. Qed.

Hint Resolve insertEmpty_steady splitLeafPage_steady : steady.

Lemma insertLeaf_steady (pgID : PageID) (e : Entry) (d : Z) : steady (insertLeaf pgID e d).
Proof. unfold insertLeaf. steady. Qed.

Lemma insertInnerPage_steady (pgID : PageID) (res : insertResult) :
  steady (insertInnerPage pgID res).
Proof. unfold insertInnerPage, wb_AllocInnerPage. steady. Qed.

Hint Resolve insertLeaf_steady insertInnerPage_steady : steady.

Lemma insert_steady (fuel : nat) (id : PageID) (e : Entry) (d : Z) :
  steady (insert fuel id e d).
Proof.
  revert id d. induction fuel as [|fuel IH]; intros id d; cbn [insert]; steady.
Qed.

Hint Resolve insert_steady : steady.

Lemma Insert_unfold (e : Entry) (t : TBTree) :
  Insert e t =
  if Ts e =? 0 then (Err ErrInvalidTimestamp, t)
  else if Ts e <? rootTs t then (Err ErrInvalidTimestamp, t)
  else Insert_locked e t.
Proof.
  unfold Insert. destruct (Ts e =? 0); [reflexivity|].
  cbn [bind gets]. destruct (Ts e <? rootTs t); reflexivity.
Qed.

Lemma Insert_locked_steady (e : Entry) : steady (Insert_locked e).
Proof.
  unfold Insert_locked, canAccommodateWrite, rootPageID, wb_AllocInnerPage.
  steady. apply ensures_defer; [reflexivity|]. steady.
Qed.

(** Claim C6, as amended: [Insert] fails with [ErrInvalidTimestamp]
    exactly when the entry's timestamp is zero or below the root
    timestamp; for every entry whose timestamp is above zero and not
    below the root timestamp, no step of [Insert] returns that error. *)
Theorem Insert_InvalidTimestamp_iff (e : Entry) (t : TBTree) :
  fst (Insert e t) = Err ErrInvalidTimestamp <-> Ts e = 0 \/ Ts e < rootTs t.
Proof.
  rewrite Insert_unfold.
  destruct (Z.eqb_spec (Ts e) 0) as [H0|H0]; [cbn; tauto|].
  destruct (Z.ltb_spec (Ts e) (rootTs t)) as [Hlt|Hge]; [cbn; tauto|].
  split; [|lia]. intros Herr.
  destruct (Insert_locked_steady e t) as (Hq & _). contradiction.
Qed.

Lemma Insert_lastSnapshotID (e : Entry) (t : TBTree) :
  lastSnapshotID (snd (Insert e t)) = lastSnapshotID t.
Proof.
  rewrite Insert_unfold.
  destruct (Ts e =? 0); [reflexivity|]. destruct (Ts e <? rootTs t); [reflexivity|].
  apply Insert_locked_steady.
Qed.

(** *** Reads before the first flush *)

Lemma snapshot_none (t : TBTree) :
  lastSnapshotID t = PageNone -> ReadSnapshot t = (Err ErrNoSnapshotAvailable, t).
Proof.
  intros Hn. unfold ReadSnapshot, snapshot, lastSnapshotRootID. cbn [bind gets].
  rewrite Hn. reflexivity.
Qed.

Lemma GetBetween_none (t : TBTree) (key : string) (lo hi : Z) :
  lastSnapshotID t = PageNone -> GetBetween key lo hi t = (Err ErrNoSnapshotAvailable, t).
Proof.
  intros Hn. unfold GetBetween, bind. rewrite (snapshot_none t Hn). reflexivity.
Qed.

(** Claim C9: on a tree whose last persisted snapshot root is
    [PageNone], [History] returns [ErrKeyNotFound] for every key and
    every offset, order and limit, whatever the in-memory root holds,
    while [ReadSnapshot] returns [ErrNoSnapshotAvailable]; neither
    changes the tree. *)
Theorem History_without_snapshot (t : TBTree) (key : string) (offset : Z)
    (descOrder : bool) (limit : Z) :
  lastSnapshotID t = PageNone ->
  History key offset descOrder limit t = (Err ErrKeyNotFound, t) /\
  ReadSnapshot t = (Err ErrNoSnapshotAvailable, t).
Proof.
  intros Hn. split; [|apply snapshot_none; exact Hn].
  unfold History, bind, attempt. rewrite (snapshot_none t Hn). reflexivity.
Qed.

(** *** Advance *)

(** Claim C7: on a tree whose lock is free, [Advance ts entryCount]
    returns [ErrInvalidTimestamp] and changes nothing when [ts] is below
    the root timestamp; returns nil and changes nothing when [ts] equals
    it; and when [ts] is above it, sets the root timestamp to [ts] and
    the indexed entry count to [entryCount], every other field, the root
    id and the mutated flag among them, staying as it was. *)
Theorem Advance_spec (t : TBTree) (ts entryCount : Z) :
  mtx t = false ->
  (ts < rootTs t -> Advance ts entryCount t = (Err ErrInvalidTimestamp, t)) /\
  (ts = rootTs t -> Advance ts entryCount t = (Ok tt, t)) /\
  (ts > rootTs t ->
   Advance ts entryCount t = (Ok tt, set_indexedEntryCount entryCount (set_rootTs ts t)) /\
   rootTs (snd (Advance ts entryCount t)) = ts /\
   indexedEntryCount (snd (Advance ts entryCount t)) = entryCount /\
   rootID (snd (Advance ts entryCount t)) = rootID t /\
   mutated (snd (Advance ts entryCount t)) = mutated t).
Proof.
  intros Hfree. split; [|split]; intros Hts.
  - unfold Advance. cbn [bind gets].
    destruct (Z.eqb_spec ts (rootTs t)); [lia|].
    destruct (Z.ltb_spec ts (rootTs t)); [reflexivity|lia].
  - unfold Advance. cbn [bind gets]. subst ts. rewrite Z.eqb_refl. reflexivity.
  - assert (Heq : Advance ts entryCount t
                  = (Ok tt, set_indexedEntryCount entryCount (set_rootTs ts t))).
    { unfold Advance. cbn [bind gets].
      destruct (Z.eqb_spec ts (rootTs t)); [lia|].
      destruct (Z.ltb_spec ts (rootTs t)); [lia|].
      unfold TryLock, bind. rewrite Hfree. cbn.
      destruct t; cbn in *; subst; reflexivity. }
    rewrite Heq. repeat split.
Qed.

(** *** Snapshots that must contain a timestamp *)

Lemma ensureLatest_stale (t : TBTree) (ts : Z) :
  mtx t = false -> rootTs t < ts ->
  ensureLatestSnapshotContainsTs ts t = (Err ErrStaleRootTimestamp, t).
Proof.
  intros Hfree Hts. unfold ensureLatestSnapshotContainsTs, bind, Lock, defer.
  rewrite Hfree. cbn. destruct (Z.ltb_spec (rootTs t) ts); [|lia].
  cbn. destruct t; cbn in *; subst; reflexivity.
Qed.

(** Claim C10: for every [ts] above the root timestamp, [SnapshotAtTs]
    and [SnapshotMustIncludeTs], taking the lock when it is free, fail
    with [ErrStaleRootTimestamp] and leave the tree exactly as it was:
    both logs, the root id, the last snapshot id and timestamp and the
    mutated flag are unchanged, no flush having been started. *)
Theorem stale_root_timestamp_atomic (t : TBTree) (ts : Z) :
  mtx t = false -> rootTs t < ts ->
  SnapshotAtTs ts t = (Err ErrStaleRootTimestamp, t) /\
  SnapshotMustIncludeTs ts t = (Err ErrStaleRootTimestamp, t).
Proof.
  intros Hfree Hts. unfold SnapshotAtTs, SnapshotMustIncludeTs, bind.
  rewrite (ensureLatest_stale t ts Hfree Hts). split; reflexivity.
Qed.

(** *** Appending a page *)



(** A page id below [PageSize] is not rejected by the reader: the bytes
    from the start of the log up to the id are read into the tail of the
    buffer, which is then handed to [expandToFixedPage]. *)
Lemma readPage_short_image (t : TBTree) (pgID : PageID) :
  appClosed (treeApp t) = false ->
  0 < pgID < PageSize ->
  pgID <= Z.of_nat (length (appData (treeApp t))) ->
  readPage t (zeros PageSize) pgID
  = match expandToFixedPage
            (zeros (PageSize - pgID) ++ take (Z.to_nat pgID) (appData (treeApp t))) with
    | Some dst => Ok dst
    | None => Err ErrCorruptedPage
    end.
Proof.
  intros Hopen Hid Hlen. unfold PageSize in *.
  assert (H1 : to_int64 pgID = pgID).
  { unfold to_int64, wrap64. rewrite Z.mod_small by lia.
    destruct (Z.ltb_spec pgID (2 ^ 63)); lia. }
  assert (H2 : to_int64 (pgID - 4096) = pgID - 4096).
  { unfold to_int64, wrap64.
    replace ((pgID - 4096) mod 2 ^ 64) with (pgID - 4096 + 2 ^ 64)
      by (apply Z.mod_unique with (q := -1); lia).
    destruct (Z.ltb_spec (pgID - 4096 + 2 ^ 64) (2 ^ 63)); lia. }
  assert (H3 : to_int64 (pgID - 4096 + 4096 - 1) = pgID - 1).
  { unfold to_int64, wrap64. rewrite Z.mod_small by lia.
    destruct (Z.ltb_spec (pgID - 4096 + 4096 - 1) (2 ^ 63)); lia. }
  unfold readPage, PageSize. rewrite H1, H2, H3.
  destruct (Z.ltb_spec (pgID - 1) 0); [lia|].
  unfold readPageToBuf. destruct (Z.ltb_spec (pgID - 4096) 0); [|lia].
  assert (Hz : length (zeros 4096) = 4096%nat) by (unfold zeros; apply length_replicate).
  rewrite Hz. destruct (Z.ltb_spec (Z.of_nat 4096) (- (pgID - 4096))); [lia|].
  unfold app_ReadAt. rewrite Hopen. cbn [orb Z.ltb Z.compare].
  destruct (Z.ltb_spec (Z.of_nat 4096 + (pgID - 4096)) 0); [lia|].
  destruct (Z.ltb_spec (Z.of_nat (length (appData (treeApp t))))
              (0 + (Z.of_nat 4096 + (pgID - 4096)))); [lia|].
  cbn [rbind]. replace (Z.of_nat 4096 + (pgID - 4096)) with pgID by lia.
  change (Z.to_nat 0) with 0%nat. rewrite drop_0.
  unfold zeros. rewrite take_replicate.
  replace (Z.to_nat (- (pgID - 4096)) `min` Z.to_nat 4096)%nat
    with (Z.to_nat (4096 - pgID)) by lia.
  reflexivity.
Qed.

(** *** Opening an empty directory *)

Lemma Open_emptyDirectory (path : string) (opts : Options) (w : World) :
  emptyDirectory path opts ->
  exists t0, Open path opts w = (Ok t0, w) /\
    rootID t0 = PageNone /\ lastSnapshotID t0 = PageNone /\ rootTs t0 = 0 /\ mtx t0 = false.
Proof.
  intros (Hv & Hd & Hf). unfold Open. rewrite Hv, !Hf.
  unfold recoverLatestValidTreeSnapshot, bind, lift. rewrite Hd.
  cbn [recoverLoop ret]. cbn match.
  unfold OpenWith. rewrite Hv.
  eexists. split; [reflexivity|]. repeat split.
Qed.

(** Claim C2, as amended: on a tree freshly opened on an empty
    directory, after the inserts of key "a" with value "1" at ts 1,
    value "2" at ts 2 and value "3" at ts 3, with no flush in between,
    [GetBetween "a" 1 2] and [GetBetween "a" 4 5] both fail with
    [ErrNoSnapshotAvailable]: [GetBetween] reads the last flushed
    snapshot, and there is none. *)
Theorem GetBetween_before_first_flush (path : string) (opts : Options) (w : World) :
  emptyDirectory path opts ->
  exists t0, Open path opts w = (Ok t0, w) /\
    let t3 := snd (Insert (entry "a" "3" 3)
                (snd (Insert (entry "a" "2" 2) (snd (Insert (entry "a" "1" 1) t0))))) in
    GetBetween "a" 1 2 t3 = (Err ErrNoSnapshotAvailable, t3) /\
    GetBetween "a" 4 5 t3 = (Err ErrNoSnapshotAvailable, t3).
Proof.
  intros Hd. destruct (Open_emptyDirectory path opts w Hd) as (t0 & Ho & _ & Hs & _).
  exists t0. split; [exact Ho|]. cbv zeta.
  split; apply GetBetween_none; rewrite !Insert_lastSnapshotID; exact Hs.
Qed.

(** *** Failed recoveries *)

Lemma recoverLoop_failed (path : string) (opts : Options) (entries : list DirEntry) :
  forall (n : Z) (ha : option Appendable) (w : World) (n' : Z) (s' : OpenState),
    0 <= n ->
    recoverLoop (Open_recoverSnap path opts) entries n (None, ha, w) = (Ok n', s') ->
    0 < n' -> fst (fst s') = None.
Proof.
  induction entries as [|e rest IH]; intros n ha w n' s' Hn Hrun Hpos.
  - cbn in Hrun. injection Hrun as <- <-. reflexivity.
  - cbn [recoverLoop] in Hrun. destruct (snapshotTs e) as [ts|]; [|eapply IH; eassumption].
    unfold bind, attempt in Hrun.
    destruct (Open_recoverSnap path opts (Name e) ts (None, ha, w)) as [r s1] eqn:Hsnap.
    unfold Open_recoverSnap in Hsnap.
    destruct (appFactory opts path (Name e) "t") as [tApp| | |].
    + destruct (OpenWith path (Some tApp) ha opts) as [[t'| | |] ha'];
        injection Hsnap as <- <-; cbn in Hrun;
        try discriminate Hrun; try (eapply IH; [|eassumption|assumption]; lia).
      injection Hrun as <- <-. lia.
    + injection Hsnap as <- <-. cbn in Hrun. eapply IH; [|eassumption|assumption]. lia.
    + injection Hsnap as <- <-. discriminate Hrun.
    + injection Hsnap as <- <-. discriminate Hrun.
Qed.

(** Whenever at least one recovery was attempted and every attempt
    failed, [Open] panics on [t.Path()], [t] being nil. *)
Lemma Open_panics_when_attempts_fail (path : string) (opts : Options) (w : World)
    (ha : Appendable) (n : Z) (s' : OpenState) :
  optInvalid opts = None ->
  appFactory opts path HistoryLogFileName "hx" = Ok ha ->
  recoverLatestValidTreeSnapshot path (readDir opts) (Open_recoverSnap path opts)
    (None, Some ha, w) = (Ok n, s') ->
  0 < n ->
  Open path opts w = (Panic "invalid memory address or nil pointer dereference", snd s').
Proof.
  intros Hv Hh Hrec Hn. unfold Open. rewrite Hv, Hh, Hrec.
  assert (Hnil : fst (fst s') = None).
  { unfold recoverLatestValidTreeSnapshot, bind, lift in Hrec.
    destruct (readDir opts path) as [entries| | |]; try discriminate Hrec.
    eapply recoverLoop_failed; [|eassumption|assumption]. lia. }
  destruct s' as [[t' ha'] w']. cbn in Hnil. subst t'.
  destruct (Z.gtb_spec n 0); [reflexivity|lia].
Qed.

End TreeProperties.

(** *** The order of recovery *)

Lemma recoverLoop_record (valid : string -> Z -> bool) (entries : list DirEntry)
    (n : Z) (s : option (string * Z)) :
  snd (recoverLoop (recordSnap valid) entries n s)
  = match find (recovers valid) (candidates entries) with
    | Some c => Some c
    | None => s
    end.
Proof.
  revert n s. induction entries as [|e rest IH]; intros n s; [reflexivity|].
  cbn [recoverLoop candidates].
  destruct (snapshotTs e) as [ts|]; [|apply IH].
  cbn [find]. unfold recovers at 1. cbn [fst snd].
  unfold bind, attempt, recordSnap at 1.
  destruct (valid (Name e) ts); [reflexivity|apply IH].
Qed.

(** The loop on its own, with a callback that succeeds on the
    snapshots [valid] accepts: the snapshot directories are tried in the
    order the directory listing gives them, and the one recovered is the
    first in that order on which the callback succeeds; when the listing
    is in descending order of ts, that is the one with the greatest ts
    among those on which it succeeds. *)
Lemma recovery_takes_first_valid (valid : string -> Z -> bool) (entries : list DirEntry) :
  recoveredSnapshot valid entries = find (recovers valid) (candidates entries) /\
  (StronglySorted newerFirst (candidates entries) ->
   forall r c, recoveredSnapshot valid entries = Some r ->
     In c (candidates entries) -> recovers valid c = true -> snd c <= snd r).
Proof.
  assert (Hfirst : recoveredSnapshot valid entries = find (recovers valid) (candidates entries)).
  { unfold recoveredSnapshot, recoverLatestValidTreeSnapshot, bind, lift.
    rewrite recoverLoop_record. destruct (find _ _); reflexivity. }
  split; [exact Hfirst|].
  rewrite Hfirst. clear Hfirst. intros Hsorted r c Hr Hin Hc.
  induction Hsorted as [|a l Hs IH Hall]; [destruct Hin|].
  cbn [find] in Hr. destruct (recovers valid a) eqn:Ha.
  - injection Hr as <-. destruct Hin as [<-|Hin]; [lia|].
    rewrite Forall_forall in Hall. apply (Hall c). apply list_elem_of_In. exact Hin.
  - destruct Hin as [<-|Hin]; [congruence|]. apply IH; assumption.
Qed.

(** With [tree_1] listed before [tree_2] and both recoverable, the
    snapshot recovered is [tree_1], not the one with the greatest ts. *)
Lemma recovery_not_greatest_ts :
  recoveredSnapshot (fun _ _ => true) [dir "tree_1"; dir "tree_2"] = Some ("tree_1", 1) /\
  In ("tree_2", 2) (candidates [dir "tree_1"; dir "tree_2"]) /\
  ~ (2 <= 1).
Proof. split; [reflexivity|split; [right; left; reflexivity|lia]]. Qed.

Lemma recovery_takes_first_valid_witness :
  StronglySorted newerFirst (candidates snapshotListing) /\
  recoveredSnapshot (fun _ ts => negb (ts =? 9)) snapshotListing = Some ("tree_3", 3) /\
  In ("tree_1", 1) (candidates snapshotListing) /\
  1 <= 3.
Proof.
  assert (Hs : StronglySorted newerFirst (candidates snapshotListing)).
  { repeat constructor; unfold newerFirst; cbn; lia. }
  split; [exact Hs|]. split; [reflexivity|]. split; [right; right; left; reflexivity|].
  exact (proj2 (recovery_takes_first_valid (fun _ ts => negb (ts =? 9)) snapshotListing) Hs
           ("tree_3", 3) ("tree_1", 1) eq_refl
           (or_intror (or_intror (or_introl eq_refl))) eq_refl).
Defined.

(** *** The tree on concrete inputs *)

(** The codec modelled from the specification writes fixed-size
    images: for every page whose header, directory and payload fit
    [PageSize] bytes, [Put] into the zeroed buffer returns [PageSize]
    and leaves in the buffer the header and directory, zeros, and the
    payload at the tail. *)
Lemma reference_Put_fixed_image (pg : Page) :
  pageFits pg = true ->
  Put pg (zeros PageSize)
  = (PageSize,
     pageHead pg ++
     replicate (Z.to_nat PageSize - length (pageHead pg) - length (pageTail pg)) 0 ++
     pageTail pg) /\
  length (snd (Put pg (zeros PageSize))) = length (zeros PageSize).
Proof.
  intros Hfits. unfold pageFits in Hfits. apply Nat.leb_le in Hfits.
  assert (Hz : length (zeros PageSize) = Z.to_nat PageSize)
    by (unfold zeros; apply length_replicate).
  assert (Hlen : length (encodePage pg) = Z.to_nat PageSize).
  { unfold encodePage. rewrite !length_app, length_replicate. lia. }
  assert (Hput : Put pg (zeros PageSize) = (PageSize, encodePage pg)).
  { cbn [Put layout]. unfold RPut. f_equal.
    rewrite Hlen, Hz, (drop_ge (zeros PageSize)) by (rewrite Hz; lia).
    rewrite app_nil_r. apply firstn_all2. rewrite Hlen. lia. }
  split; [exact Hput|]. rewrite Hput. cbn [snd]. rewrite Hlen, Hz. reflexivity.
Qed.


(** After the three inserts of seed scenario 3 the root leaf holds
    ("a", "3", ts 3, hC 2), nothing has been flushed, and both range
    reads fail with [ErrNoSnapshotAvailable]. *)
Lemma GetBetween_without_flush :
  (exists t, threeRevisions = Ok t /\ lastSnapshotID t = PageNone /\
     wb_Get (wb t) (rootID t)
     = Ok (SetAsRoot (withEntries emptyLeaf [mkEntry "a" "3" 3 19 2]))) /\
  fst (run (GetBetween "a" 1 2) threeRevisions) = Err ErrNoSnapshotAvailable /\
  fst (run (GetBetween "a" 4 5) threeRevisions) = Err ErrNoSnapshotAvailable.
Proof.
  split; [eexists; split; [vm_compute; reflexivity|split; vm_compute; reflexivity]|].
  split; vm_compute; reflexivity.
Qed.

Lemma GetBetween_before_first_flush_witness :
  emptyDirectory "/data/index" freshOptions /\
  exists t0, Open "/data/index" freshOptions emptyWorld = (Ok t0, emptyWorld) /\
    let t3 := snd (Insert (entry "a" "3" 3)
                (snd (Insert (entry "a" "2" 2) (snd (Insert (entry "a" "1" 1) t0))))) in
    GetBetween "a" 1 2 t3 = (Err ErrNoSnapshotAvailable, t3) /\
    GetBetween "a" 4 5 t3 = (Err ErrNoSnapshotAvailable, t3).
Proof.
  assert (Hd : emptyDirectory "/data/index" freshOptions) by (repeat split).
  split; [exact Hd|].
  exact (GetBetween_before_first_flush "/data/index" freshOptions emptyWorld Hd).
Defined.

(** On a fresh tree, whose root timestamp is 0, an entry with
    timestamp 0 and a one-byte value is rejected with
    [ErrInvalidTimestamp]. *)
Lemma Insert_rejects_zero_timestamp :
  (exists t, freshTree = Ok t /\ rootTs t = 0 /\ Ts (entry "a" "1" 0) >= rootTs t) /\
  Z.of_nat (String.length (Value (entry "a" "1" 0))) <= MaxEntrySize /\
  fst (run (Insert (entry "a" "1" 0)) freshTree) = Err ErrInvalidTimestamp.
Proof.
  split; [eexists; split; [vm_compute; reflexivity|split; [reflexivity|discriminate]]|].
  split; [vm_compute; discriminate|vm_compute; reflexivity].
Qed.

(** Claim C3: with one snapshot directory, [tree_5], whose recovery
    fails ([OpenWith] returns [ErrCorruptedTreeLog] and the directory is
    removed), [Open] does not return an empty tree: it panics with a nil
    pointer dereference, and no warning reaches the logger. *)
Theorem Open_panics_after_failed_recovery :
  fst (OpenWith "/data/index" (Some corruptLog) (Some emptyApp) brokenOptions)
    = Err ErrCorruptedTreeLog /\
  Open "/data/index" brokenOptions emptyWorld
    = (Panic "invalid memory address or nil pointer dereference",
       mkWorld [] [("/data/index", "tree_5")]).
Proof. split; vm_compute; reflexivity. Qed.

(** The flush on the page model of the specification, in which an
    inner page with [NumEntries] separators has [NumEntries + 1]
    children: after three inserts that split the root leaf, the
    in-memory root is an inner page with one separator and the two
    in-memory children; after [Flush] the root page read back from the
    tree log still holds the in-memory id of its right-most child in
    slot 1, and two pages were flushed: the loop of [flushTreeLog] visits
    the child slots below [NumEntries].  Whether the page type of the
    code counts its child slots this way is decided by the page codec,
    outside tbtree.go. *)
Lemma flush_leaves_in_memory_child :
  (exists t root,
     splitTree = Ok t /\ wb_Get (wb t) (rootID t) = Ok root /\
     IsLeaf root = false /\ NumEntries root = 1%nat /\
     children root = [memPageID 0; memPageID 1]) /\
  (exists t root,
     flushedSplitTree = Ok t /\ pgBuf_Get t (rootID t) = Ok root /\
     IsLeaf root = false /\ NumEntries root = 1%nat /\
     isMemPage (ChildPageAt root 0) = false /\
     ChildPageAt root 1 = memPageID 1 /\ isMemPage (ChildPageAt root 1) = true /\
     numPages t = 2).
Proof.
  split.
  - eexists. eexists. split; [vm_compute; reflexivity|].
    split; [vm_compute; reflexivity|]. repeat split.
  - eexists. eexists. split; [vm_compute; reflexivity|].
    split; [vm_compute; reflexivity|]. repeat split.
Qed.

Lemma Advance_spec_witness :
  mtx sampleTree = false /\
  (2 < rootTs sampleTree /\ Advance 2 9 sampleTree = (Err ErrInvalidTimestamp, sampleTree)) /\
  (3 = rootTs sampleTree /\ Advance 3 9 sampleTree = (Ok tt, sampleTree)) /\
  (5 > rootTs sampleTree /\
   rootTs (snd (Advance 5 9 sampleTree)) = 5 /\
   indexedEntryCount (snd (Advance 5 9 sampleTree)) = 9 /\
   rootID (snd (Advance 5 9 sampleTree)) = rootID sampleTree /\
   mutated (snd (Advance 5 9 sampleTree)) = mutated sampleTree).
Proof.
  split; [reflexivity|].
  split; [split; [reflexivity|exact (proj1 (Advance_spec sampleTree 2 9 eq_refl) eq_refl)]|].
  split; [split; [reflexivity|
    exact (proj1 (proj2 (Advance_spec sampleTree 3 9 eq_refl)) eq_refl)]|].
  split; [reflexivity|].
  exact (proj2 (proj2 (proj2 (Advance_spec sampleTree 5 9 eq_refl)) eq_refl)).
Defined.

Lemma History_without_snapshot_witness :
  lastSnapshotID sampleTree = PageNone /\
  (exists e, (r <- wb_Get (wb sampleTree) (rootID sampleTree) ;; GetEntry r "a") = Ok e) /\
  History "a" 0 true 10 sampleTree = (Err ErrKeyNotFound, sampleTree) /\
  ReadSnapshot sampleTree = (Err ErrNoSnapshotAvailable, sampleTree).
Proof.
  split; [reflexivity|]. split; [eexists; vm_compute; reflexivity|].
  exact (History_without_snapshot sampleTree "a" 0 true 10 eq_refl).
Defined.

Lemma stale_root_timestamp_atomic_witness :
  mtx sampleTree = false /\ rootTs sampleTree < 4 /\
  SnapshotAtTs 4 sampleTree = (Err ErrStaleRootTimestamp, sampleTree) /\
  SnapshotMustIncludeTs 4 sampleTree = (Err ErrStaleRootTimestamp, sampleTree).
Proof.
  split; [reflexivity|]. split; [reflexivity|].
  exact (stale_root_timestamp_atomic sampleTree 4 eq_refl eq_refl).
Defined.

Lemma Insert_InvalidTimestamp_iff_witness :
  fst (Insert (entry "a" "1" 0) sampleTree) = Err ErrInvalidTimestamp /\
  fst (Insert (entry "a" "1" 2) sampleTree) = Err ErrInvalidTimestamp /\
  fst (Insert (entry "a" "4" 4) sampleTree) <> Err ErrInvalidTimestamp.
Proof.
  split; [exact (proj2 (Insert_InvalidTimestamp_iff (entry "a" "1" 0) sampleTree)
                   (or_introl eq_refl))|].
  split; [exact (proj2 (Insert_InvalidTimestamp_iff (entry "a" "1" 2) sampleTree)
                   (or_intror eq_refl))|].
  intros Herr.
  destruct (proj1 (Insert_InvalidTimestamp_iff (entry "a" "4" 4) sampleTree) Herr)
    as [H0|Hlt]; [discriminate H0|discriminate Hlt].
Defined.

(** *** Seed scenarios of the specification, run on the model *)

(** Scenario 4 with the flush it needs: once the three revisions are
    flushed, the range reads return the second revision and
    [ErrKeyNotFound]. *)
Example GetBetween_after_flush :
  fst (run (GetBetween "a" 1 2) (after Flush threeRevisions)) = Ok ("2", 2, 2) /\
  fst (run (GetBetween "a" 4 5) (after Flush threeRevisions)) = Err ErrKeyNotFound.
Proof. split; vm_compute; reflexivity. Qed.

(** On the same page model: after the flush of the split tree, the
    keys of the left leaf are read back, those of the right leaf are
    not. *)
Example flush_loses_right_subtree :
  (exists v, fst (run (GetBetween "k1" 0 9) flushedSplitTree) = Ok (v, 1, 0)) /\
  fst (run (GetBetween "k3" 0 9) flushedSplitTree) = Err ErrInvalidPageID.
Proof. split; [eexists|]; vm_compute; reflexivity. Qed.

(** *** The search for the last commit entry *)

Lemma findMagic_scan (m0 m1 : Z) (buf : list Z) (n : nat) :
  let at_ (i : nat) := default 0 (buf !! i) in
  let scan := fix scan (i : nat) : option nat :=
    match i with
    | O => None
    | S j => if (at_ i =? m1) && (at_ j =? m0) then Some i else scan j
    end in
  match scan n with
  | Some i => (1 <= i <= n)%nat /\ (at_ i =? m1) && (at_ (i - 1)%nat =? m0) = true /\
              forall j, (i < j <= n)%nat -> (at_ j =? m1) && (at_ (j - 1)%nat =? m0) = false
  | None => forall j, (1 <= j <= n)%nat -> (at_ j =? m1) && (at_ (j - 1)%nat =? m0) = false
  end.
Proof.
  intros at_ scan. induction n as [|n IH]; [cbn; intros; lia|].
  cbn [scan]. fold scan.
  destruct ((at_ (S n) =? m1) && (at_ n =? m0)) eqn:Hhit.
  - split; [lia|]. split; [replace (S n - 1)%nat with n by lia; exact Hhit|].
    intros j Hj. lia.
  - destruct (scan n) as [i|].
    + destruct IH as (Hi & Hm & Hlater). split; [lia|]. split; [exact Hm|].
      intros j Hj. destruct (Nat.eq_dec j (S n)) as [->|Hne].
      * replace (S n - 1)%nat with n by lia. exact Hhit.
      * apply Hlater. lia.
    + intros j Hj. destruct (Nat.eq_dec j (S n)) as [->|Hne].
      * replace (S n - 1)%nat with n by lia. exact Hhit.
      * apply IH. lia.
Qed.

Lemma findMagic_facts (magic : Z) (buf : list Z) :
  let r := findMagic magic buf in
  (r = -1 \/ 0 <= r <= Z.of_nat (length buf) - 2) /\
  (1 <= r -> magicEndsAt magic buf (Z.to_nat r) = true) /\
  (forall j, (1 <= j <= length buf - 2)%nat -> r < Z.of_nat j ->
     magicEndsAt magic buf j = false) /\
  (r = 0 <-> (2 <= length buf)%nat /\ byteAt buf 0 = Z.land magic 255 /\
             forall j, (1 <= j <= length buf - 2)%nat -> magicEndsAt magic buf j = false).
Proof.
  cbv zeta. unfold findMagic, magicEndsAt, byteAt.
  destruct (Nat.ltb_spec (length buf) 2) as [Hshort|Hlong].
  - split; [left; reflexivity|]. split; [lia|]. split; [intros; lia|].
    split; [discriminate|]. intros (? & _). lia.
  - pose proof (findMagic_scan (Z.land (Z.shiftr magic 8) 255) (Z.land magic 255) buf
                  (length buf - 2)) as Hscan.
    cbv beta zeta in Hscan.
    destruct ((fix scan (i : nat) : option nat :=
                 match i with
                 | 0%nat => None
                 | S j =>
                     if (default 0 (buf !! i) =? Z.land magic 255) &&
                        (default 0 (buf !! j) =? Z.land (Z.shiftr magic 8) 255)
                     then Some i else scan j
                 end) (length buf - 2)%nat) as [i|].
    + destruct Hscan as (Hi & Hm & Hlater).
      split; [right; lia|]. split; [intros _; rewrite Nat2Z.id; exact Hm|].
      split; [intros j Hj Hr; apply Hlater; lia|].
      split; [lia|]. intros (_ & _ & Hnone). rewrite Hnone in Hm by lia. discriminate.
    + destruct (Z.eqb_spec (default 0 (buf !! 0%nat)) (Z.land magic 255)) as [H0|H0].
      * split; [right; lia|]. split; [lia|]. split; [intros j Hj _; apply Hscan; lia|].
        split; [intros _|reflexivity]. split; [lia|]. split; [exact H0|].
        intros j Hj. apply Hscan. lia.
      * split; [left; reflexivity|]. split; [lia|].
        split; [intros j Hj _; apply Hscan; lia|].
        split; [discriminate|]. intros (_ & Hb & _). contradiction.
Qed.

(** X1: [findMagic] returns the greatest index [i] between 1 and
    [len(buf) - 2] at which the two magic bytes end; when there is none
    it returns 0 if the first byte is the second magic byte, and -1
    otherwise and for every buffer shorter than two bytes.  The result
    is never the last index of the buffer. *)
Theorem findMagic_spec (magic : Z) (buf : list Z) :
  let r := findMagic magic buf in
  (r = -1 \/ 0 <= r <= Z.of_nat (length buf) - 2) /\
  (1 <= r -> magicEndsAt magic buf (Z.to_nat r) = true) /\
  (forall j, (1 <= j <= length buf - 2)%nat -> r < Z.of_nat j ->
     magicEndsAt magic buf j = false) /\
  (r = 0 <-> (2 <= length buf)%nat /\ byteAt buf 0 = Z.land magic 255 /\
             forall j, (1 <= j <= length buf - 2)%nat -> magicEndsAt magic buf j = false).
Proof. exact (findMagic_facts magic buf). Qed.

Lemma app_ReadAt_Ok (a : Appendable) (n off : Z) (buf : list Z) :
  app_ReadAt a n off = Ok buf ->
  appClosed a = false /\ 0 <= off /\ 0 <= n /\
  off + n <= Z.of_nat (length (appData a)) /\
  buf = slice (appData a) off (Z.to_nat n) /\ length buf = Z.to_nat n.
Proof.
  unfold app_ReadAt, slice. destruct (appClosed a); [discriminate|].
  destruct (Z.ltb_spec off 0); [discriminate|]. destruct (Z.ltb_spec n 0); [discriminate|].
  cbn [orb]. destruct (Z.ltb_spec (Z.of_nat (length (appData a))) (off + n)); [discriminate|].
  intros [= <-]. repeat split; try lia.
  rewrite length_take, length_drop. lia.
Qed.

Lemma readCommitEntry_cases (buf : list Z) :
  length buf = CommitEntrySize ->
  readCommitEntry buf = Err ErrCorruptedEntry \/
  exists e, readCommitEntry buf = Ok e /\
            Checksum e = computeChecksum (drop ChecksumSize buf).
Proof.
  intros Hlen. unfold readCommitEntry. rewrite Hlen, Nat.eqb_refl. cbn [negb].
  destruct (Z.eqb_spec (computeChecksum (drop ChecksumSize buf))
              (default 0 (Uint32 buf 0))) as [Heq|Hne]; cbn [negb].
  - right. eexists. split; [reflexivity|]. cbn [Checksum]. symmetry. exact Heq.
  - left. reflexivity.
Qed.

Lemma findMagic_upper (magic : Z) (buf : list Z) :
  findMagic magic buf <= Z.of_nat (length buf) - 2 \/ findMagic magic buf = -1.
Proof.
  destruct (findMagic_facts magic buf) as ([Hr|Hr] & _); [right; exact Hr|left; lia].
Qed.

Section SearchProperties.
Context {LY : Layout}.

Lemma findLastValidPage_from_returns (a : Appendable) (fuel : nat) (off : Z) :
  off < Z.of_nat fuel ->
  (exists e off', findLastValidPage_from fuel a off = Ok (e, off')) \/
  (exists err, findLastValidPage_from fuel a off = Err err).
Proof.
  revert off. induction fuel as [|fuel IH]; intros off Hoff.
  - right. exists ErrNoValidPageFound. cbn. destruct (Z.ltb_spec off 0); [reflexivity|lia].
  - cbn [findLastValidPage_from]. destruct (Z.ltb_spec off 0); [right; eexists; reflexivity|].
    destruct (app_ReadAt a (Z.of_nat CommitEntrySize) off) as [buf|err| |] eqn:Hread;
      cbn [rbind]; [|right; eexists; reflexivity|exfalso|exfalso].
    + apply app_ReadAt_Ok in Hread. destruct Hread as (_ & _ & _ & _ & _ & Hlen).
      rewrite Nat2Z.id in Hlen.
      destruct (readCommitEntry_cases buf Hlen) as [->|(e & -> & _)];
        [|left; eexists; eexists; reflexivity].
      pose proof (findMagic_upper CommitMagic buf) as Hup. rewrite Hlen in Hup.
      destruct (Z.geb_spec (findMagic CommitMagic buf) 0); apply IH; unfold CommitEntrySize,
        CommitMagicSize in *; lia.
    + unfold app_ReadAt in Hread. repeat (destruct (_ : bool) in Hread); discriminate.
    + unfold app_ReadAt in Hread. repeat (destruct (_ : bool) in Hread); discriminate.
Qed.

(** X2: the backward search of [findLastValidPage] ends on every tree
    log: each unsuccessful round lowers the offset by at least one byte,
    so the call returns a commit entry or an error and neither loops
    forever nor panics. *)
Theorem findLastValidPage_terminates (t : TBTree) :
  (exists e off, findLastValidPage t = Ok (e, off)) \/
  (exists err, findLastValidPage t = Err err).
Proof.
  unfold findLastValidPage, app_Size.
  destruct (appClosed (treeApp t)); [right; eexists; reflexivity|]. cbn [rbind].
  apply findLastValidPage_from_returns. unfold CommitEntrySize, CommitMagicSize. lia.
Qed.

Lemma findLastValidPage_from_sound (a : Appendable) (fuel : nat) (off : Z)
    (e : CommitEntry) (off' : Z) :
  findLastValidPage_from fuel a off = Ok (e, off') ->
  0 <= off' <= off /\ off' + Z.of_nat CommitEntrySize <= Z.of_nat (length (appData a)) /\
  readCommitEntry (slice (appData a) off' CommitEntrySize) = Ok e.
Proof.
  revert off. induction fuel as [|fuel IH]; intros off.
  - cbn. destruct (off <? 0); discriminate.
  - cbn [findLastValidPage_from]. destruct (Z.ltb_spec off 0); [discriminate|].
    destruct (app_ReadAt a (Z.of_nat CommitEntrySize) off) as [buf|err| |] eqn:Hread;
      cbn [rbind]; try discriminate.
    apply app_ReadAt_Ok in Hread. destruct Hread as (_ & _ & _ & Hfit & Hbuf & Hlen).
    rewrite Nat2Z.id in Hlen, Hbuf.
    destruct (readCommitEntry buf) as [e0|err| |] eqn:Hentry; try discriminate.
    + intros [= <- <-]. subst buf. split; [lia|]. split; [exact Hfit|exact Hentry].
    + pose proof (findMagic_upper CommitMagic buf) as Hup. rewrite Hlen in Hup.
      destruct (Z.geb_spec (findMagic CommitMagic buf) 0); intros Hrec;
        apply IH in Hrec; unfold CommitEntrySize, CommitMagicSize in *;
        (split; [lia|exact (proj2 Hrec)]).
Qed.

(** X3: whatever [findLastValidPage] returns is a commit entry that is
    in the tree log: the offset lies between 0 and the size of the log
    less [CommitEntrySize], [readCommitEntry] accepts the 42 bytes at
    that offset and yields the entry returned, and the checksum of the
    entry is the CRC-32C of the 38 bytes after its checksum field. *)
Theorem findLastValidPage_sound (t : TBTree) (e : CommitEntry) (off : Z) :
  findLastValidPage t = Ok (e, off) ->
  let data := appData (treeApp t) in
  0 <= off <= Z.of_nat (length data) - Z.of_nat CommitEntrySize /\
  readCommitEntry (slice data off CommitEntrySize) = Ok e /\
  Checksum e = computeChecksum (drop ChecksumSize (slice data off CommitEntrySize)).
Proof.
  unfold findLastValidPage, app_Size.
  destruct (appClosed (treeApp t)); [discriminate|]. cbn [rbind]. intros Hfound.
  apply findLastValidPage_from_sound in Hfound. destruct Hfound as (Hoff & Hfit & Hentry).
  cbv zeta. split; [lia|]. split; [exact Hentry|].
  assert (Hlen : length (slice (appData (treeApp t)) off CommitEntrySize) = CommitEntrySize).
  { unfold slice. rewrite length_take, length_drop. lia. }
  destruct (readCommitEntry_cases _ Hlen) as [Herr|(e' & He' & Hsum)]; [congruence|].
  rewrite Hentry in He'. injection He' as <-. exact Hsum.
Qed.

End SearchProperties.

Section CommitProperties.
Context {LY : Layout}.

Lemma slice_app_end (data bs : list Z) :
  slice (data ++ bs) (Z.of_nat (length data)) (length bs) = bs.
Proof.
  unfold slice. rewrite Nat2Z.id, drop_app_length. apply firstn_all.
Qed.

(** X4: a commit entry written by [commit] is the one recovery finds.
    On an open log, [commit] appends the 42-byte image of the entry and
    nothing else; [findLastValidPage] on a tree whose tree log is the
    result returns the fields of that entry, stamped with the checksum,
    at the offset the log ended at before the commit. *)
Theorem commit_then_findLastValidPage (t : TBTree) (e : CommitEntry) (app : Appendable) :
  appClosed app = false -> CommitEntry_wf e ->
  exists crc app',
    commit e app = (Ok tt, app') /\
    app' = mkApp (appData app ++ commitLayout CommitMagic crc e) false /\
    findLastValidPage (set_treeApp app' t)
    = Ok (stamped crc e, Z.of_nat (length (appData app))).
Proof.
  intros Hopen Hwf.
  destruct (putCommitEntry_layout CommitMagic e (zeros (Z.of_nat CommitEntrySize)) eq_refl)
    as (crc & Hput & Hcrc).
  exists crc. eexists. split; [|split; [reflexivity|]].
  - unfold commit. rewrite Hput. unfold app_Append, app_Flush. rewrite Hopen. reflexivity.
  - unfold findLastValidPage, app_Size. cbn [treeApp set_treeApp appClosed appData rbind].
    rewrite length_app.
    replace (length (commitLayout CommitMagic crc e)) with CommitEntrySize by reflexivity.
    replace (Z.of_nat (length (appData app) + CommitEntrySize) - Z.of_nat CommitEntrySize)
      with (Z.of_nat (length (appData app))) by lia.
    cbn [findLastValidPage_from].
    destruct (Z.ltb_spec (Z.of_nat (length (appData app))) 0); [lia|].
    unfold app_ReadAt. cbn [appClosed appData].
    destruct (Z.ltb_spec (Z.of_nat (length (appData app))) 0); [lia|].
    destruct (Z.ltb_spec (Z.of_nat CommitEntrySize) 0); [lia|]. cbn [orb].
    rewrite length_app.
    replace (length (commitLayout CommitMagic crc e)) with CommitEntrySize by reflexivity.
    destruct (Z.ltb_spec (Z.of_nat (length (appData app) + CommitEntrySize))
                (Z.of_nat (length (appData app)) + Z.of_nat CommitEntrySize)); [lia|].
    cbn [rbind]. rewrite Nat2Z.id.
    pose proof (slice_app_end (appData app) (commitLayout CommitMagic crc e)) as Hslice.
    unfold slice in Hslice.
    replace (length (commitLayout CommitMagic crc e)) with CommitEntrySize in Hslice
      by reflexivity.
    rewrite Hslice, (readCommitEntry_layout CommitMagic crc e Hwf Hcrc). reflexivity.
Qed.

Lemma OpenWith_short_log (path : string) (ta ha : Appendable) (opts : Options) :
  optInvalid opts = None -> appClosed ta = false -> appClosed ha = false ->
  (length (appData ta) < CommitEntrySize)%nat ->
  exists t,
    OpenWith path (Some ta) (Some ha) opts = (Ok t, Some (mkApp [] false)) /\
    rootID t = PageNone /\ lastSnapshotID t = PageNone /\
    rootTs t = 0 /\ lastSnapshotTs t = 0 /\ mutated t = false /\ mtx t = false /\
    treeApp t = ta /\ historyApp t = mkApp [] false /\ wb t = optWB opts.
Proof.
  intros Hvalid Hta Hha Hshort. unfold OpenWith. rewrite Hvalid.
  unfold recoverRootPage. cbn [bind gets].
  unfold findLastValidPage, app_Size. cbn [treeApp]. rewrite Hta. cbn [rbind].
  assert (Hneg : Z.of_nat (length (appData ta)) - Z.of_nat CommitEntrySize < 0) by lia.
  cbn [findLastValidPage_from].
  destruct (Z.ltb_spec (Z.of_nat (length (appData ta)) - Z.of_nat CommitEntrySize) 0); [|lia].
  unfold historyApp_SetOffset, app_SetOffset, bind, failWith. cbn [historyApp]. rewrite Hha.
  cbn [Z.ltb Z.compare orb].
  destruct (Z.ltb_spec (Z.of_nat (length (appData ha))) 0); [lia|].
  cbn. eexists. split; [reflexivity|]. repeat split.
Qed.

(** X5: [OpenWith] on open logs, the tree log being too short to hold
    a commit entry (an empty log among them), returns an empty tree:
    root and last snapshot are [PageNone], the root timestamp is 0, the
    tree log is left as it is, and the history log is cut to length 0
    whatever it held. *)
Theorem OpenWith_without_commit_entry (path : string) (ta ha : Appendable) (opts : Options) :
  optInvalid opts = None -> appClosed ta = false -> appClosed ha = false ->
  (length (appData ta) < CommitEntrySize)%nat ->
  exists t,
    OpenWith path (Some ta) (Some ha) opts = (Ok t, Some (mkApp [] false)) /\
    rootID t = PageNone /\ lastSnapshotID t = PageNone /\
    rootTs t = 0 /\ lastSnapshotTs t = 0 /\ mutated t = false /\ mtx t = false /\
    treeApp t = ta /\ historyApp t = mkApp [] false /\ wb t = optWB opts.
Proof. exact (OpenWith_short_log path ta ha opts). Qed.

End CommitProperties.

(** *** Which directory entries are snapshots *)

Lemma Split_nonempty (sep : ascii) (s : string) : Split sep s <> [].
Proof.
  destruct s as [|c rest]; cbn; [discriminate|].
  destruct (Ascii.eqb c sep); [discriminate|]. destruct (Split sep rest); discriminate.
Qed.

Lemma Split_one (sep : ascii) (s p : string) : Split sep s = [p] -> s = p.
Proof.
  revert p. induction s as [|c rest IH]; intros p; cbn.
  - intros [= <-]. reflexivity.
  - destruct (Ascii.eqb c sep).
    + intros [= _ Hrest]. destruct (Split_nonempty sep rest Hrest).
    + destruct (Split sep rest) as [|h tl] eqn:Hrest; [destruct (Split_nonempty _ _ Hrest)|].
      intros [= <- ->]. f_equal. apply IH. reflexivity.
Qed.

Lemma Split_two (sep : ascii) (s p0 p1 : string) :
  Split sep s = [p0; p1] -> s = (p0 ++ String sep p1)%string.
Proof.
  revert p0. induction s as [|c rest IH]; intros p0; cbn; [discriminate|].
  destruct (Ascii.eqb_spec c sep) as [->|Hne].
  - intros [= <- Hrest]. apply Split_one in Hrest. subst rest. reflexivity.
  - destruct (Split sep rest) as [|h tl] eqn:Hrest; [discriminate|].
    intros [= <- ->]. rewrite (IH h eq_refl). reflexivity.
Qed.

Lemma parseDigits_Split (s : string) (acc v : Z) :
  parseDigits s acc = Some v -> Split "_"%char s = [s].
Proof.
  revert acc. induction s as [|c rest IH]; intros acc; cbn [parseDigits Split]; [reflexivity|].
  destruct (Ascii.is_nat c) as [d|] eqn:Hd; [|discriminate].
  destruct (Ascii.eqb_spec c "_"%char) as [->|_]; [discriminate Hd|].
  intros Hrest. rewrite (IH _ Hrest). reflexivity.
Qed.

Lemma ParseUint_Split (s : string) (v : Z) :
  ParseUint s = Some v -> Split "_"%char s = [s].
Proof.
  unfold ParseUint. destruct (String.eqb s ""); [discriminate|].
  destruct (parseDigits s 0) as [w|] eqn:Hw; [|discriminate].
  intros _. eapply parseDigits_Split. exact Hw.
Qed.

(** X6: the recovery loop takes a directory entry for a snapshot
    exactly when it is a directory whose name is [tree_] followed by a
    decimal number that fits 64 bits; the timestamp passed to the
    recovery callback is that number.  A file, the directory [tree]
    itself, and names with a second underscore or a non-digit after the
    underscore are skipped. *)
Theorem snapshotTs_iff (e : DirEntry) (ts : Z) :
  snapshotTs e = Some ts <->
  IsDir e = true /\ exists digits, Name e = ("tree_" ++ digits)%string /\
                                   ParseUint digits = Some ts.
Proof.
  unfold snapshotTs. split.
  - destruct (IsDir e); [|discriminate]. cbn [negb orb].
    destruct (String.prefix TreeLogFileName (Name e)); [|discriminate]. cbn [negb].
    destruct (Split "_"%char (Name e)) as [|p0 [|p1 [|]]] eqn:Hsplit; try discriminate.
    destruct (ParseUint p1) as [v|] eqn:Hparse; [|discriminate].
    destruct (String.eqb_spec p0 TreeLogFileName) as [->|]; [|discriminate].
    intros [= <-]. split; [reflexivity|]. exists p1. split; [|exact Hparse].
    apply Split_two in Hsplit. exact Hsplit.
  - intros (Hdir & digits & Hname & Hparse). rewrite Hdir, Hname. cbn [negb orb].
    change (String.prefix TreeLogFileName ("tree_" ++ digits)) with true. cbn [negb].
    assert (Hsplit : Split "_"%char ("tree_" ++ digits) = ["tree"%string; digits]).
    { cbv [String.append]. cbn [Split Ascii.eqb Bool.eqb].
      rewrite (ParseUint_Split digits ts Hparse). reflexivity. }
    rewrite Hsplit, Hparse. reflexivity.
Qed.

(** *** How many recoveries were attempted *)

Lemma recoverLoop_count (valid : string -> Z -> bool) (entries : list DirEntry)
    (n : Z) (s : option (string * Z)) :
  fst (recoverLoop (recordSnap valid) entries n s)
  = Ok (if existsb (recovers valid) (candidates entries) then 0
        else n + Z.of_nat (length (candidates entries))).
Proof.
  revert n s. induction entries as [|e rest IH]; intros n s.
  - cbn. f_equal. lia.
  - cbn [recoverLoop candidates]. destruct (snapshotTs e) as [ts|]; [|apply IH].
    cbn [existsb length]. unfold recovers at 1. cbn [fst snd].
    unfold bind, attempt, recordSnap at 1.
    destruct (valid (Name e) ts); [reflexivity|]. cbn [orb]. rewrite IH.
    destruct (existsb _ _); [reflexivity|]. f_equal. lia.
Qed.

(** X7: [recoverLatestValidTreeSnapshot] returns 0 attempts as soon as
    one snapshot directory recovers, whatever number failed before it,
    and otherwise the number of snapshot directories in the listing,
    each of which was tried once; entries that are not snapshot
    directories are not counted. *)
Theorem recovery_attempts_count (dirPath : string) (valid : string -> Z -> bool)
    (entries : list DirEntry) (s : option (string * Z)) :
  fst (recoverLatestValidTreeSnapshot dirPath (fun _ => Ok entries) (recordSnap valid) s)
  = Ok (if existsb (recovers valid) (candidates entries) then 0
        else Z.of_nat (length (candidates entries))).
Proof.
  unfold recoverLatestValidTreeSnapshot, bind, lift.
  pose proof (recoverLoop_count valid entries 0 s) as Hcount.
  destruct (recoverLoop (recordSnap valid) entries 0 s) as [r s'] eqn:Hloop.
  cbn [fst] in Hcount. subst r.
  destruct (existsb _ _); reflexivity.
Qed.

(** *** Opening a directory *)

Lemma recoverLoop_no_candidates {S : Type} (f : string -> Z -> ST S unit)
    (entries : list DirEntry) (n : Z) (s : S) :
  candidates entries = [] -> recoverLoop f entries n s = (Ok n, s).
Proof.
  induction entries as [|e rest IH]; [reflexivity|].
  cbn [candidates recoverLoop]. destruct (snapshotTs e); [discriminate|]. exact IH.
Qed.

Section OpenProperties.
Context {LY : Layout}.

(** X8: when the listing of the directory holds no snapshot
    directory, [Open] attempts no recovery: it opens the tree log named
    [tree] with the history log and returns what [OpenWith] returns on
    them; nothing is logged and nothing is removed. *)
Theorem Open_without_snapshots (path : string) (opts : Options) (w : World)
    (entries : list DirEntry) (ha ta : Appendable) :
  optInvalid opts = None ->
  appFactory opts path HistoryLogFileName "hx" = Ok ha ->
  readDir opts path = Ok entries ->
  candidates entries = [] ->
  appFactory opts path TreeLogFileName "t" = Ok ta ->
  Open path opts w = (fst (OpenWith path (Some ta) (Some ha) opts), w).
Proof.
  intros Hvalid Hhist Hdir Hnone Htree. unfold Open. rewrite Hvalid, Hhist.
  unfold recoverLatestValidTreeSnapshot, bind, lift. rewrite Hdir.
  rewrite (recoverLoop_no_candidates _ entries 0 _ Hnone).
  cbn match. rewrite Htree. reflexivity.
Qed.

Lemma Open_first_candidate (path : string) (opts : Options) (w : World)
    (skipped rest : list DirEntry) (e : DirEntry) (ts : Z)
    (ha ta : Appendable) (t : TBTree) (ha' : option Appendable) :
  optInvalid opts = None ->
  appFactory opts path HistoryLogFileName "hx" = Ok ha ->
  readDir opts path = Ok (skipped ++ e :: rest) ->
  candidates skipped = [] ->
  snapshotTs e = Some ts ->
  appFactory opts path (Name e) "t" = Ok ta ->
  OpenWith path (Some ta) (Some ha) opts = (Ok t, ha') ->
  Open path opts w = (Ok t, w).
Proof.
  intros Hvalid Hhist Hdir Hnone Hts Hfac Hopen. unfold Open. rewrite Hvalid, Hhist.
  unfold recoverLatestValidTreeSnapshot, bind, lift. rewrite Hdir.
  assert (Hloop : forall n s,
            recoverLoop (Open_recoverSnap path opts) (skipped ++ e :: rest) n s
            = recoverLoop (Open_recoverSnap path opts) (e :: rest) n s).
  { clear -Hnone. induction skipped as [|x xs IH]; intros n s; [reflexivity|].
    cbn [candidates] in Hnone. cbn [app recoverLoop].
    destruct (snapshotTs x); [discriminate|]. apply IH. exact Hnone. }
  rewrite Hloop. cbn [recoverLoop]. rewrite Hts.
  unfold bind, attempt, Open_recoverSnap. rewrite Hfac, Hopen. reflexivity.
Qed.

(** X9: when the first snapshot directory of the listing opens,
    [Open] returns the tree [OpenWith] built on its log: the entries
    listed after it are not tried, the log named [tree] is not opened,
    nothing is logged and nothing is removed. *)
Theorem Open_first_snapshot (path : string) (opts : Options) (w : World)
    (skipped rest : list DirEntry) (e : DirEntry) (ts : Z)
    (ha ta : Appendable) (t : TBTree) (ha' : option Appendable) :
  optInvalid opts = None ->
  appFactory opts path HistoryLogFileName "hx" = Ok ha ->
  readDir opts path = Ok (skipped ++ e :: rest) ->
  candidates skipped = [] ->
  snapshotTs e = Some ts ->
  appFactory opts path (Name e) "t" = Ok ta ->
  OpenWith path (Some ta) (Some ha) opts = (Ok t, ha') ->
  Open path opts w = (Ok t, w).
Proof.
  exact (Open_first_candidate path opts w skipped rest e ts ha ta t ha').
Qed.

(** Claim C5: the snapshot directories are tried in the order the
    directory listing gives them, not in descending order of their
    timestamps.  With [tree_1] listed before [tree_3], as a listing by
    name has them, and the log of [tree_1] empty, [Open] returns the
    empty tree it built on the log of [tree_1] and cuts the history log
    to length 0, whatever the log of [tree_3] holds, a valid last commit
    entry included: [tree_3] is never opened. *)
Theorem Open_recovers_first_listed (newer : Appendable) (history : list Z) :
  let opts := staleFirstOptions emptyApp newer history in
  candidates [dir "tree_1"; dir "tree_3"] = [("tree_1"%string, 1); ("tree_3"%string, 3)] /\
  exists t,
    Open "/data/index" opts emptyWorld = (Ok t, emptyWorld) /\
    treeApp t = emptyApp /\ historyApp t = mkApp [] false /\
    rootID t = PageNone /\ lastSnapshotID t = PageNone /\ rootTs t = 0.
Proof.
  cbv zeta. split; [reflexivity|].
  destruct (OpenWith_short_log "/data/index" emptyApp (mkApp history false)
              (staleFirstOptions emptyApp newer history) eq_refl eq_refl eq_refl)
    as (t & Hopen & Hroot & Hsnap & Hts & _ & _ & _ & Htree & Hhist & _); [cbn; lia|].
  exists t. split; [|repeat split; assumption].
  exact (Open_first_candidate "/data/index" (staleFirstOptions emptyApp newer history)
           emptyWorld
           [] [dir "tree_3"] (dir "tree_1") 1 (mkApp history false) emptyApp t _
           eq_refl eq_refl eq_refl eq_refl eq_refl eq_refl Hopen).
Qed.

(** *** Page ids the reader rejects *)

(** X10: [readPage] rejects a page id with [ErrInvalidPageID], without
    reading the log, when the id is 0 or is above 2^63 as an unsigned
    number ([PageNone] and every in-memory id but the first among them);
    for every other id, 2^63 included, where the signed subtraction
    wraps around, the check passes and the log is read at the id less
    [PageSize]. *)
Theorem readPage_id_check (t : TBTree) (dst : list Z) (pgID : PageID) :
  is_uint 64 pgID ->
  (pgID = 0 \/ 2 ^ 63 < pgID -> readPage t dst pgID = Err ErrInvalidPageID) /\
  (0 < pgID <= 2 ^ 63 ->
   readPage t dst pgID =
     (buf <- readPageToBuf dst (treeApp t) (to_int64 (to_int64 pgID - PageSize)) ;;
      match expandToFixedPage buf with
      | Some buf => Ok buf
      | None => Err ErrCorruptedPage
      end)).
Proof.
  intros Hid. unfold is_uint in Hid. unfold readPage, PageSize.
  set (off := to_int64 (to_int64 pgID - 4096)).
  assert (Hcheck : to_int64 (off + 4096 - 1) < 0 <-> pgID = 0 \/ 2 ^ 63 < pgID).
  { subst off. unfold to_int64, wrap64. rewrite (Z.mod_small pgID) by lia.
    destruct (Z.ltb_spec pgID (2 ^ 63)) as [Hlow|Hhigh].
    - destruct (Z.le_gt_cases 4096 pgID) as [Hbig|Hsmall].
      + rewrite (Z.mod_small (pgID - 4096)) by lia.
        destruct (Z.ltb_spec (pgID - 4096) (2 ^ 63)); [|lia].
        rewrite (Z.mod_small (pgID - 4096 + 4096 - 1)) by lia.
        destruct (Z.ltb_spec (pgID - 4096 + 4096 - 1) (2 ^ 63)); lia.
      + replace ((pgID - 4096) mod 2 ^ 64) with (pgID - 4096 + 2 ^ 64)
          by (apply Z.mod_unique with (q := -1); lia).
        destruct (Z.ltb_spec (pgID - 4096 + 2 ^ 64) (2 ^ 63)); [lia|].
        replace (pgID - 4096 + 2 ^ 64 - 2 ^ 64 + 4096 - 1) with (pgID - 1) by lia.
        destruct (Z.eq_dec pgID 0) as [->|Hne].
        * change ((0 - 1) mod 2 ^ 64) with (2 ^ 64 - 1).
          destruct (Z.ltb_spec (2 ^ 64 - 1) (2 ^ 63)); lia.
        * rewrite (Z.mod_small (pgID - 1)) by lia.
          destruct (Z.ltb_spec (pgID - 1) (2 ^ 63)); lia.
    - destruct (Z.le_gt_cases (2 ^ 63 + 4096) pgID) as [Hbig|Hsmall].
      + replace ((pgID - 2 ^ 64 - 4096) mod 2 ^ 64) with (pgID - 4096)
          by (apply Z.mod_unique with (q := -1); lia).
        destruct (Z.ltb_spec (pgID - 4096) (2 ^ 63)); [lia|].
        replace (pgID - 4096 - 2 ^ 64 + 4096 - 1) with (pgID - 1 - 2 ^ 64) by lia.
        replace ((pgID - 1 - 2 ^ 64) mod 2 ^ 64) with (pgID - 1)
          by (apply Z.mod_unique with (q := -1); lia).
        destruct (Z.ltb_spec (pgID - 1) (2 ^ 63)); lia.
      + replace ((pgID - 2 ^ 64 - 4096) mod 2 ^ 64) with (pgID - 4096)
          by (apply Z.mod_unique with (q := -1); lia).
        destruct (Z.ltb_spec (pgID - 4096) (2 ^ 63)); [|lia].
        replace (pgID - 4096 + 4096 - 1) with (pgID - 1) by lia.
        rewrite (Z.mod_small (pgID - 1)) by lia.
        destruct (Z.ltb_spec (pgID - 1) (2 ^ 63)); lia. }
  split; intros Hcase.
  - destruct (Z.ltb_spec (to_int64 (off + 4096 - 1)) 0) as [_|Hge]; [reflexivity|].
    apply Hcheck in Hcase. lia.
  - destruct (Z.ltb_spec (to_int64 (off + 4096 - 1)) 0) as [Hlt|_]; [|reflexivity].
    apply Hcheck in Hlt. lia.
Qed.

End OpenProperties.

(** *** Reading a revision from the history log *)

Lemma length_be_bytes (n : nat) (v : Z) : length (be_bytes n v) = n.
Proof. induction n as [|n IH]; cbn; [reflexivity|]. rewrite IH. reflexivity. Qed.

Lemma length_bytes_of_string (s : string) : length (bytes_of_string s) = String.length s.
Proof.
  unfold bytes_of_string. rewrite length_fmap.
  induction s as [|c s IH]; cbn; [reflexivity|]. rewrite IH. reflexivity.
Qed.

Lemma string_of_bytes_of_string (s : string) : string_of_bytes (bytes_of_string s) = s.
Proof.
  unfold string_of_bytes, bytes_of_string. rewrite <- list_fmap_compose.
  rewrite <- (string_of_list_ascii_of_string s) at 2. f_equal.
  induction (list_ascii_of_string s) as [|a l IH]; [reflexivity|].
  cbn. rewrite Nat2Z.id, ascii_nat_embedding. f_equal. exact IH.
Qed.

Lemma length_encodeHistoryEntry (he : HistoryEntry) :
  length (encodeHistoryEntry he) = (18 + String.length (HValue he))%nat.
Proof.
  unfold encodeHistoryEntry. rewrite !length_app, !length_be_bytes, length_bytes_of_string. lia.
Qed.

Lemma recordAt_read (ha : Appendable) (hoff : Z) (he : HistoryEntry) (o k : nat) :
  appClosed ha = false -> recordAt ha hoff he ->
  (o + k <= length (encodeHistoryEntry he))%nat ->
  app_ReadAt ha (Z.of_nat k) (hoff + Z.of_nat o) = Ok (take k (drop o (encodeHistoryEntry he))).
Proof.
  intros Hopen (Hoff & _ & Hrec) Hfit. unfold app_ReadAt. rewrite Hopen.
  assert (Hlen : (length (encodeHistoryEntry he) <= length (drop (Z.to_nat hoff) (appData ha)))%nat).
  { rewrite <- Hrec at 1. unfold slice. rewrite length_take. lia. }
  rewrite length_drop in Hlen. pose proof (length_encodeHistoryEntry he) as Henc.
  destruct (Z.ltb_spec (hoff + Z.of_nat o) 0); [lia|].
  destruct (Z.ltb_spec (Z.of_nat k) 0); [lia|]. cbn [orb].
  destruct (Z.ltb_spec (Z.of_nat (length (appData ha))) (hoff + Z.of_nat o + Z.of_nat k)); [lia|].
  f_equal. rewrite Nat2Z.id. rewrite <- Hrec. unfold slice.
  replace (Z.to_nat (hoff + Z.of_nat o)) with (Z.to_nat hoff + o)%nat by lia.
  rewrite <- drop_drop. rewrite skipn_firstn_comm, take_take. f_equal. lia.
Qed.

Lemma to_int64_small (v : Z) : 0 <= v < 2 ^ 63 -> to_int64 v = v.
Proof.
  intros Hv. unfold to_int64, wrap64. rewrite Z.mod_small by lia.
  destruct (Z.ltb_spec v (2 ^ 63)); lia.
Qed.

Lemma followPrevOffsets_chain (ha : Appendable) (hes rest : list HistoryEntry) (hoff : Z) :
  appClosed ha = false -> chainAt ha hoff (hes ++ rest) ->
  exists hoff', followPrevOffsets (length hes) ha hoff = Ok hoff' /\ chainAt ha hoff' rest.
Proof.
  intros Hopen. revert hoff. induction hes as [|he hes IH]; intros hoff Hchain.
  - exists hoff. split; [reflexivity|exact Hchain].
  - cbn [app chainAt] in Hchain. destruct Hchain as (Hrec & Hwf & Hchain).
    cbn [length followPrevOffsets].
    rewrite (to_int64_small hoff) by (destruct Hrec as (? & ? & _); lia).
    pose proof (recordAt_read ha hoff he 0 8 Hopen Hrec) as Hread.
    rewrite length_encodeHistoryEntry in Hread. specialize (Hread ltac:(lia)).
    replace (hoff + Z.of_nat 0) with hoff in Hread by lia.
    change (Z.of_nat 8) with 8 in Hread. rewrite Hread. cbn [rbind].
    rewrite drop_0. unfold encodeHistoryEntry.
    rewrite (take_app_length' (be_bytes 8 (PrevOffset he))) by (rewrite length_be_bytes; reflexivity).
    rewrite be_value_uint by apply Hwf. apply IH. exact Hchain.
Qed.

Section RevisionProperties.
Context {LY : Layout}.

Lemma getRevision_chain (t : TBTree) (hoff : Z) (hes : list HistoryEntry) (he : HistoryEntry) :
  appClosed (historyApp t) = false ->
  Z.of_nat (length hes) < 2 ^ 63 ->
  chainAt (historyApp t) hoff (hes ++ [he]) ->
  getRevision t hoff (Z.of_nat (length hes) + 1)
  = Ok (mkHistoryEntry OffsetNone (HTs he) (HValue he)).
Proof.
  intros Hopen Hn Hchain. unfold getRevision.
  replace (Z.of_nat (length hes) + 1 - 1) with (Z.of_nat (length hes)) by lia.
  rewrite to_int64_small by lia. rewrite Nat2Z.id.
  destruct (followPrevOffsets_chain _ hes [he] hoff Hopen Hchain) as (hoff' & -> & Hlast).
  cbn [rbind]. cbn [chainAt] in Hlast. destruct Hlast as (Hrec & (Hprev & Hts & Hval) & _).
  assert (Hoff : 0 <= hoff' /\ hoff' + 18 < 2 ^ 63).
  { destruct Hrec as (? & Hend & _). rewrite length_encodeHistoryEntry in Hend. lia. }
  rewrite (to_int64_small hoff') by lia.
  pose proof (recordAt_read _ hoff' he 0 18 Hopen Hrec) as Hhdr.
  rewrite length_encodeHistoryEntry in Hhdr. specialize (Hhdr ltac:(lia)).
  replace (hoff' + Z.of_nat 0) with hoff' in Hhdr by lia.
  change (Z.of_nat 18) with 18 in Hhdr. rewrite Hhdr. cbn [rbind]. rewrite drop_0.
  assert (Henc : encodeHistoryEntry he
                 = (be_bytes 8 (PrevOffset he) ++ be_bytes 8 (HTs he) ++
                    be_bytes 2 (Z.of_nat (String.length (HValue he)))) ++
                   bytes_of_string (HValue he)).
  { unfold encodeHistoryEntry. rewrite <- !app_assoc. reflexivity. }
  cbv zeta. rewrite Henc.
  rewrite !(take_app_length' _ (bytes_of_string (HValue he)) 18)
    by (rewrite !length_app, !length_be_bytes; reflexivity).
  set (A := be_bytes 8 (PrevOffset he)). set (B := be_bytes 8 (HTs he)).
  set (C := be_bytes 2 (Z.of_nat (String.length (HValue he)))).
  assert (HA : length A = 8%nat) by apply length_be_bytes.
  assert (HB : length B = 8%nat) by apply length_be_bytes.
  assert (HC : length C = 2%nat) by apply length_be_bytes.
  rewrite (drop_app_length' A (B ++ C) 8) by (symmetry; exact HA).
  rewrite (take_app_length' B C 8) by (symmetry; exact HB).
  replace (drop 16 (A ++ B ++ C)) with C
    by (rewrite app_assoc, drop_app_length'; [reflexivity|rewrite length_app; lia]).
  rewrite (firstn_all2 C) by lia. subst A B C.
  rewrite (be_value_uint 8) by exact Hts.
  rewrite (be_value_uint 2)
    by (unfold is_uint; unfold MaxEntrySize in Hval; lia).
  destruct (Z.ltb_spec MaxEntrySize (Z.of_nat (String.length (HValue he)))); [lia|].
  assert (Hwrap : wrap64 (hoff' + 18) = hoff' + 18)
    by (unfold wrap64; apply Z.mod_small; lia).
  rewrite Hwrap, to_int64_small by lia.
  pose proof (recordAt_read _ hoff' he 18 (String.length (HValue he)) Hopen Hrec) as Hbody.
  rewrite length_encodeHistoryEntry in Hbody. specialize (Hbody ltac:(lia)).
  change (Z.of_nat 18) with 18 in Hbody. rewrite Hbody. cbn [rbind].
  rewrite Henc, (drop_app_length' _ (bytes_of_string (HValue he)) 18)
    by (rewrite !length_app, !length_be_bytes; reflexivity).
  rewrite firstn_all2 by (rewrite length_bytes_of_string; lia).
  rewrite string_of_bytes_of_string. reflexivity.
Qed.

(** X11: [getRevision hoff n] walks the history log backward.  When
    the log holds a chain of records, the first at [hoff] and each next
    one at the previous offset of the one before, the call follows [n -
    1] previous offsets and returns the timestamp and the value of the
    [n]-th record of the chain, as they were encoded; the previous
    offset of the entry returned is always [OffsetNone]. *)
Theorem getRevision_follows_chain (t : TBTree) (hoff : Z) (hes : list HistoryEntry)
    (he : HistoryEntry) :
  appClosed (historyApp t) = false ->
  Z.of_nat (length hes) < 2 ^ 63 ->
  chainAt (historyApp t) hoff (hes ++ [he]) ->
  getRevision t hoff (Z.of_nat (length hes) + 1)
  = Ok (mkHistoryEntry OffsetNone (HTs he) (HValue he)).
Proof. exact (getRevision_chain t hoff hes he). Qed.

End RevisionProperties.

Section GetRevisionProperties.
Context {LY : Layout}.

Lemma GetRevision_found (key : string) (version : Z) (t : TBTree) (pg : Page) (pgID : PageID)
    (e : Entry) :
  findPage (S (length (appData (treeApp t)))) t key (lastSnapshotID t) = Ok (pg, pgID) ->
  GetEntry pg key = Ok e ->
  0 <= HC e < 2 ^ 62 -> - 2 ^ 62 < version < 2 ^ 62 ->
  GetRevision key version t =
    (if version =? HC e + 1 then Ok (Value e, Ts e)
     else if version >? HC e then Err ErrKeyRevisionNotFound
     else he <- getRevision t (HOff e) (HC e - version + 1) ;; Ok (HValue he, HTs he), t).
Proof.
  intros Hpage Hentry Hhc Hv. unfold GetRevision. rewrite Hpage. cbn [rbind fst].
  rewrite Hentry. cbn [rbind].
  rewrite (to_int64_small (HC e)) by lia. rewrite (to_int64_small (HC e + 1)) by lia.
  destruct (version =? HC e + 1); [reflexivity|].
  destruct (Z.gtb_spec version (HC e)) as [|Hle]; [reflexivity|].
  assert (Hn : wrap64 (HC e - wrap64 version) = HC e - version).
  { unfold wrap64. rewrite Zminus_mod_idemp_r. apply Z.mod_small. lia. }
  rewrite Hn, (to_int64_small (HC e - version)) by lia.
  rewrite (to_int64_small (HC e - version + 1)) by lia. reflexivity.
Qed.

(** X12: revisions are numbered from 1, the current value of a key
    with history count [hC] being revision [hC + 1].  When the leaf of
    the last flushed snapshot holds the key, [GetRevision] returns the
    value and timestamp of the leaf entry for version [hC + 1] without
    reading the history log, fails with [ErrKeyRevisionNotFound] for
    every greater version, and for a version from 1 to [hC] returns the
    record that is [hC - version + 1] steps down the history chain of
    the entry. *)
Theorem GetRevision_versions (key : string) (version : Z) (t : TBTree) (pg : Page)
    (pgID : PageID) (e : Entry) :
  findPage (S (length (appData (treeApp t)))) t key (lastSnapshotID t) = Ok (pg, pgID) ->
  GetEntry pg key = Ok e ->
  0 <= HC e < 2 ^ 62 -> version < 2 ^ 62 ->
  (version = HC e + 1 -> GetRevision key version t = (Ok (Value e, Ts e), t)) /\
  (HC e + 1 < version -> GetRevision key version t = (Err ErrKeyRevisionNotFound, t)) /\
  (1 <= version <= HC e ->
   forall hes he,
     appClosed (historyApp t) = false ->
     Z.of_nat (length hes) = HC e - version ->
     chainAt (historyApp t) (HOff e) (hes ++ [he]) ->
     GetRevision key version t = (Ok (HValue he, HTs he), t)).
Proof.
  intros Hpage Hentry Hhc Hv. split; [|split].
  - intros Hcur. rewrite (GetRevision_found key version t pg pgID e) by (assumption || lia).
    destruct (Z.eqb_spec version (HC e + 1)); [reflexivity|lia].
  - intros Hgt. rewrite (GetRevision_found key version t pg pgID e) by (assumption || lia).
    destruct (Z.eqb_spec version (HC e + 1)); [lia|].
    destruct (Z.gtb_spec version (HC e)); [reflexivity|lia].
  - intros Hrange hes he Hopen Hlen Hchain.
    rewrite (GetRevision_found key version t pg pgID e) by (assumption || lia).
    destruct (Z.eqb_spec version (HC e + 1)); [lia|].
    destruct (Z.gtb_spec version (HC e)); [lia|].
    replace (HC e - version + 1) with (Z.of_nat (length hes) + 1) by lia.
    rewrite (getRevision_chain t (HOff e) hes he Hopen) by (assumption || lia).
    reflexivity.
Qed.

Lemma readPage_PageNone (t : TBTree) (dst : list Z) :
  readPage t dst PageNone = Err ErrInvalidPageID.
Proof. reflexivity. Qed.

(** X13: before the first flush there is no snapshot to read from:
    with the last snapshot root at [PageNone], [GetRevision] returns no
    value for any key or version, whatever the in-memory tree holds.  It
    fails with [ErrCacheExhausted] when the page buffer has no slot to
    give, and with [ErrInvalidPageID], the error of the loader,
    otherwise; the tree is left as it is. *)
Theorem GetRevision_without_snapshot (key : string) (version : Z) (t : TBTree) :
  lastSnapshotID t = PageNone ->
  GetRevision key version t
  = (Err (if pgBufExhausted PageNone then ErrCacheExhausted else ErrInvalidPageID), t).
Proof.
  intros Hnone. unfold GetRevision. rewrite Hnone. cbn [findPage].
  unfold pgBuf_Get. rewrite readPage_PageNone.
  destruct (pgBufExhausted PageNone); reflexivity.
Qed.

End GetRevisionProperties.

(** *** Rules for what a call leaves alone *)

Lemma keeps_ret {X A} (v : TBTree -> X) (a : A) : keeps v (ret a).
Proof. intros t. reflexivity. Qed.

Lemma keeps_gets {X A} (v : TBTree -> X) (f : TBTree -> A) : keeps v (gets f).
Proof. intros t. reflexivity. Qed.

Lemma keeps_failWith {X A} (v : TBTree -> X) (e : error) : keeps v (@failWith TBTree A e).
Proof. intros t. reflexivity. Qed.

Lemma keeps_panic {X A} (v : TBTree -> X) (msg : string) : keeps v (@panic TBTree A msg).
Proof. intros t. reflexivity. Qed.

Lemma keeps_diverge {X A} (v : TBTree -> X) : keeps v (@diverge TBTree A).
Proof. intros t. reflexivity. Qed.

Lemma keeps_lift {X A} (v : TBTree -> X) (r : result A) : keeps v (lift r).
Proof. intros t. reflexivity. Qed.

Lemma keeps_modify {X} (v : TBTree -> X) (f : TBTree -> TBTree) :
  (forall t, v (f t) = v t) -> keeps v (modify f).
Proof. intros Hf t. apply Hf. Qed.

Lemma keeps_bind {X A B} (v : TBTree -> X) (m : M A) (k : A -> M B) :
  keeps v m -> (forall a, keeps v (k a)) -> keeps v (bind m k).
Proof.
  intros Hm Hk t. unfold bind. specialize (Hm t).
  destruct (m t) as [[a| | |] t1]; cbn in *; [|assumption..].
  rewrite (Hk a t1). exact Hm.
Qed.

Lemma keeps_attempt {X A} (v : TBTree -> X) (m : M A) : keeps v m -> keeps v (attempt m).
Proof.
  intros Hm t. unfold attempt. specialize (Hm t).
  destruct (m t) as [[a| | |] t1]; cbn in *; assumption.
Qed.

Lemma keeps_defer {X A} (v : TBTree -> X) (f : TBTree -> TBTree) (m : M A) :
  (forall t, v (f t) = v t) -> keeps v m -> keeps v (defer f m).
Proof.
  intros Hf Hm t. unfold defer. specialize (Hm t).
  destruct (m t) as [r t1]; cbn in *. rewrite Hf. exact Hm.
Qed.

Lemma keeps_withWB {X A} (v : TBTree -> X) (f : WriteBuffer -> result A * WriteBuffer) :
  (forall w t, v (set_wb w t) = v t) -> keeps v (withWB f).
Proof. intros Hv t. unfold withWB. destruct (f (wb t)); cbn. apply Hv. Qed.

Lemma keeps_getMemPage {X} (v : TBTree -> X) (id : PageID) : keeps v (getMemPage id).
Proof. intros t. reflexivity. Qed.

Lemma keeps_getHistoryPage {X} (v : TBTree -> X) (id : PageID) : keeps v (getHistoryPage id).
Proof. intros t. reflexivity. Qed.

Lemma keeps_TryLock {X} (v : TBTree -> X) :
  (forall b t, v (set_mtx b t) = v t) -> keeps v TryLock.
Proof. intros Hv t. unfold TryLock. destruct (mtx t); cbn; [reflexivity|apply Hv]. Qed.

Section KeepsProperties.
Context {LY : Layout}.

Lemma keeps_GetOrDup {X} (v : TBTree -> X) (id : PageID) :
  (forall w t, v (set_wb w t) = v t) -> keeps v (GetOrDup id).
Proof.
  intros Hv t. unfold GetOrDup. destruct (wb_GetOrDup (wb t) id (dupPage t)); cbn. apply Hv.
Qed.

End KeepsProperties.

Ltac keeps_step :=
  lazymatch goal with
  | |- keeps _ (bind _ _) => apply keeps_bind; [|intros ?]
  | |- keeps _ (ret _) => apply keeps_ret
  | |- keeps _ (gets _) => apply keeps_gets
  | |- keeps _ (modify _) => apply keeps_modify; intros; reflexivity
  | |- keeps _ (failWith _) => apply keeps_failWith
  | |- keeps _ (panic _) => apply keeps_panic
  | |- keeps _ diverge => apply keeps_diverge
  | |- keeps _ (lift _) => apply keeps_lift
  | |- keeps _ (attempt _) => apply keeps_attempt
  | |- keeps _ (withWB _) => apply keeps_withWB; intros; reflexivity
  | |- keeps _ (GetOrDup _) => apply keeps_GetOrDup; intros; reflexivity
  | |- keeps _ (getMemPage _) => apply keeps_getMemPage
  | |- keeps _ (getHistoryPage _) => apply keeps_getHistoryPage
  | |- keeps _ (storePage _ _) => unfold storePage
  | |- keeps _ (storeHistoryPage _ _) => unfold storeHistoryPage
  | |- keeps _ (updPage _ _) => unfold updPage
  | |- keeps _ (pageOp _ _) => unfold pageOp
  | |- keeps _ (sepKey _) => unfold sepKey
  | |- keeps _ getCurrHistoryPage => unfold getCurrHistoryPage
  | |- keeps _ (historyAppend _ _) => unfold historyAppend
  | |- keeps _ (archiveEntry _) => unfold archiveEntry
  | |- keeps _ (insertEmpty _) => unfold insertEmpty
  | |- keeps _ (splitLeafPage _ _) => unfold splitLeafPage
  | |- keeps _ (insertLeaf _ _ _) => unfold insertLeaf
  | |- keeps _ (insertInnerPage _ _) => unfold insertInnerPage
  | |- keeps _ canAccommodateWrite => unfold canAccommodateWrite
  | |- keeps _ rootPageID => unfold rootPageID
  | |- keeps _ (if ?b then _ else _) => destruct b
  | |- keeps _ (match ?x with _ => _ end) => destruct x
  | |- keeps _ _ => solve [auto]
  end.

Ltac keeps_auto := repeat keeps_step.

Section InsertProperties.
Context {LY : Layout}.

Lemma insert_keeps (fuel : nat) (pgID : PageID) (e : Entry) (d : Z) :
  keeps aboveBuffer (insert fuel pgID e d).
Proof.
  revert pgID d. induction fuel as [|fuel IH]; intros pgID d; cbn [insert]; keeps_auto.
Qed.

End InsertProperties.

(** *** Rules for failure and success *)

Lemma failsafe_keeps {X A} (v : TBTree -> X) (m : M A) : keeps v m -> failsafe v m.
Proof. intros Hm t _. apply Hm. Qed.

Lemma failsafe_bind {X A B} (v : TBTree -> X) (m : M A) (k : A -> M B) :
  keeps v m -> (forall a, failsafe v (k a)) -> failsafe v (bind m k).
Proof.
  intros Hm Hk t. unfold bind. specialize (Hm t).
  destruct (m t) as [[a| | |] t1]; cbn in *; intros Hfail; [|assumption..].
  rewrite (Hk a t1 Hfail). exact Hm.
Qed.

Lemma failsafe_then_total {X A B} (v : TBTree -> X) (m : M A) (k : A -> M B) :
  failsafe v m -> (forall a, total (k a)) -> failsafe v (bind m k).
Proof.
  intros Hm Hk t. unfold bind. specialize (Hm t).
  destruct (m t) as [[a| | |] t1]; cbn in *; intros Hfail.
  - destruct (Hk a t1) as (b & Hb). destruct (Hfail b Hb).
  - apply Hm. discriminate.
  - apply Hm. discriminate.
  - apply Hm. discriminate.
Qed.

Lemma total_modify (f : TBTree -> TBTree) : total (modify f).
Proof. intros t. exists tt. reflexivity. Qed.

Lemma total_bind {A B} (m : M A) (k : A -> M B) :
  total m -> (forall a, total (k a)) -> total (bind m k).
Proof.
  intros Hm Hk t. unfold bind. destruct (Hm t) as (a & Ha).
  destruct (m t) as [r t1]; cbn in *. subst r. apply Hk.
Qed.

Lemma onSuccess_bind {A B} (m : M A) (k : A -> M B) (Q : TBTree -> Prop) :
  (forall a, onSuccess (k a) Q) -> onSuccess (bind m k) Q.
Proof.
  intros Hk t b. unfold bind. destruct (m t) as [[a| | |] t1]; cbn; try discriminate.
  apply Hk.
Qed.

Lemma onSuccess_failWith {A} (e : error) (Q : TBTree -> Prop) : onSuccess (@failWith TBTree A e) Q.
Proof. intros t a. discriminate. Qed.

Lemma bind_Ok {S A B : Type} (m : ST S A) (k : A -> ST S B) (s s' : S) (b : B) :
  bind m k s = (Ok b, s') -> exists a s1, m s = (Ok a, s1) /\ k a s1 = (Ok b, s').
Proof.
  unfold bind. destruct (m s) as [[a| | |] s1]; try discriminate.
  intros Hk. exists a, s1. split; [reflexivity|exact Hk].
Qed.

Section InsertGuards.
Context {LY : Layout}.

Lemma set_mtx_same (t : TBTree) : set_mtx (mtx t) t = t.
Proof. destruct t; reflexivity. Qed.

Lemma set_mtx_twice (a b : bool) (t : TBTree) : set_mtx a (set_mtx b t) = set_mtx a t.
Proof. reflexivity. Qed.

Lemma Insert_locked_unfold (e : Entry) (t : TBTree) :
  Insert_locked e t =
  if mtx t then (Err ErrTreeLocked, t)
  else (fst (Insert_body e (set_mtx true t)), set_mtx false (snd (Insert_body e (set_mtx true t)))).
Proof.
  unfold Insert_locked. unfold bind at 1. unfold TryLock.
  destruct (mtx t); [reflexivity|]. cbn [negb]. unfold defer. fold (Insert_body e).
  destruct (Insert_body e (set_mtx true t)); reflexivity.
Qed.

Lemma Insert_body_full (e : Entry) (t : TBTree) :
  wb_Grow (wb t) (depth t + 2) = false -> Insert_body e t = (Err ErrWriteBufferFull, t).
Proof.
  intros Hfull. unfold Insert_body. unfold bind at 1. unfold canAccommodateWrite, gets.
  rewrite Hfull. reflexivity.
Qed.

(** X14: [Insert] checks the timestamp, then the lock, then the room
    in the write buffer, in this order.  A timestamp of zero or below the
    root timestamp gives [ErrInvalidTimestamp] even on a locked tree; a
    held lock gives [ErrTreeLocked]; a write buffer that cannot grow by
    [depth + 2] pages gives [ErrWriteBufferFull]; in each case the tree
    is exactly as it was, the lock released. *)
Theorem Insert_guards (e : Entry) (t : TBTree) :
  (Ts e = 0 \/ Ts e < rootTs t -> Insert e t = (Err ErrInvalidTimestamp, t)) /\
  (Ts e <> 0 -> rootTs t <= Ts e -> mtx t = true ->
   Insert e t = (Err ErrTreeLocked, t)) /\
  (Ts e <> 0 -> rootTs t <= Ts e -> mtx t = false ->
   wb_Grow (wb t) (depth t + 2) = false ->
   Insert e t = (Err ErrWriteBufferFull, t)).
Proof.
  split; [|split].
  - intros Hts. rewrite Insert_unfold.
    destruct (Z.eqb_spec (Ts e) 0); [reflexivity|].
    destruct (Z.ltb_spec (Ts e) (rootTs t)); [reflexivity|lia].
  - intros H0 Hts Hlock. rewrite Insert_unfold.
    destruct (Z.eqb_spec (Ts e) 0); [contradiction|].
    destruct (Z.ltb_spec (Ts e) (rootTs t)); [lia|].
    rewrite Insert_locked_unfold, Hlock. reflexivity.
  - intros H0 Hts Hlock Hfull. rewrite Insert_unfold.
    destruct (Z.eqb_spec (Ts e) 0); [contradiction|].
    destruct (Z.ltb_spec (Ts e) (rootTs t)); [lia|].
    rewrite Insert_locked_unfold, Hlock.
    rewrite Insert_body_full by exact Hfull. cbn [fst snd].
    rewrite set_mtx_twice, <- Hlock, set_mtx_same. reflexivity.
Qed.

End InsertGuards.

Section InsertFrame.
Context {LY : Layout}.

Lemma keeps_fst {X Y A} (v : TBTree -> X) (u : TBTree -> Y) (m : M A) :
  keeps (fun t => (v t, u t)) m -> keeps v m /\ keeps u m.
Proof. intros Hm. split; intros t; specialize (Hm t); congruence. Qed.

Lemma insert_keeps_settled (fuel : nat) (pgID : PageID) (e : Entry) (d : Z) :
  keeps settled (insert fuel pgID e d).
Proof.
  pose proof (insert_keeps fuel pgID e d) as Hk. unfold aboveBuffer in Hk.
  apply keeps_fst in Hk. destruct Hk as [Hk _]. apply keeps_fst in Hk. apply Hk.
Qed.

Lemma insert_keeps_rootView (fuel : nat) (pgID : PageID) (e : Entry) (d : Z) :
  keeps rootView (insert fuel pgID e d).
Proof.
  pose proof (insert_keeps fuel pgID e d) as Hk. unfold aboveBuffer in Hk.
  apply keeps_fst in Hk. destruct Hk as [Hk _]. apply keeps_fst in Hk. apply Hk.
Qed.

Lemma insert_keeps_mtx (fuel : nat) (pgID : PageID) (e : Entry) (d : Z) :
  keeps mtx (insert fuel pgID e d).
Proof.
  pose proof (insert_keeps fuel pgID e d) as Hk. unfold aboveBuffer in Hk.
  apply keeps_fst in Hk. apply Hk.
Qed.

Lemma Insert_body_keeps_settled (e : Entry) : keeps settled (Insert_body e).
Proof.
  pose proof insert_keeps_settled. unfold Insert_body, wb_AllocInnerPage. keeps_auto.
Qed.

Lemma Insert_body_failsafe (e : Entry) : failsafe rootView (Insert_body e).
Proof.
  pose proof insert_keeps_rootView. unfold Insert_body.
  apply failsafe_bind; [keeps_auto|]. intros ok.
  destruct (negb ok); [apply failsafe_keeps; keeps_auto|].
  apply failsafe_bind; [keeps_auto|]. intros root.
  apply failsafe_bind; [keeps_auto|]. intros fuel.
  apply failsafe_bind; [keeps_auto|]. intros res.
  apply failsafe_then_total;
    [|intros _; apply total_bind; [apply total_modify|intros _; apply total_modify]].
  destruct (split res); [|intros t Hfail; destruct (Hfail tt); reflexivity].
  unfold wb_AllocInnerPage.
  repeat (apply failsafe_bind; [keeps_auto|intros ?]).
  intros t Hfail. destruct (Hfail tt). reflexivity.
Qed.

Lemma Insert_body_success (e : Entry) :
  onSuccess (Insert_body e) (fun t => rootTs t = Ts e /\ mutated t = true).
Proof.
  unfold Insert_body.
  apply onSuccess_bind. intros ok. destruct (negb ok); [apply onSuccess_failWith|].
  do 4 (apply onSuccess_bind; intros ?).
  intros t1 u _. split; reflexivity.
Qed.

(** X15: [Insert] works in memory only.  However it ends, the tree
    log, the history log, the last snapshot root and timestamp, the
    indexed entry count, the page counters, the snapshot and sync
    counters, the logger and the configuration are as they were, and the
    lock is in the state it was found in. *)
Theorem Insert_in_memory_only (e : Entry) (t : TBTree) :
  settled (snd (Insert e t)) = settled t /\ mtx (snd (Insert e t)) = mtx t.
Proof.
  rewrite Insert_unfold.
  destruct (Ts e =? 0); [split; reflexivity|].
  destruct (Ts e <? rootTs t); [split; reflexivity|].
  rewrite Insert_locked_unfold. destruct (mtx t) eqn:Hlock;
    [split; [reflexivity|exact Hlock]|].
  cbn [snd]. split; [|reflexivity].
  pose proof (Insert_body_keeps_settled e (set_mtx true t)) as Hk.
  unfold settled in *. cbn in *. exact Hk.
Qed.

(** X16: [Insert] publishes the new root last.  When it returns nil
    the root timestamp is the timestamp of the entry, which is above
    zero and not below the root timestamp before, and the tree is marked
    mutated; when it returns an error, panics or is cut short, the root
    id, the root timestamp and the mutated flag are as they were.  The
    root timestamp never decreases. *)
Theorem Insert_publishes_root_last (e : Entry) (t : TBTree) :
  (fst (Insert e t) = Ok tt ->
   rootTs (snd (Insert e t)) = Ts e /\ mutated (snd (Insert e t)) = true /\
   Ts e <> 0 /\ rootTs t <= Ts e) /\
  (fst (Insert e t) <> Ok tt ->
   rootID (snd (Insert e t)) = rootID t /\ rootTs (snd (Insert e t)) = rootTs t /\
   mutated (snd (Insert e t)) = mutated t) /\
  rootTs t <= rootTs (snd (Insert e t)).
Proof.
  rewrite Insert_unfold.
  destruct (Z.eqb_spec (Ts e) 0) as [|H0];
    [split; [discriminate|split; [intros _; repeat split|cbn; lia]]|].
  destruct (Z.ltb_spec (Ts e) (rootTs t)) as [|Hts];
    [split; [discriminate|split; [intros _; repeat split|cbn; lia]]|].
  rewrite Insert_locked_unfold. destruct (mtx t) eqn:Hlock;
    [split; [discriminate|split; [intros _; repeat split|cbn; lia]]|].
  cbn [fst snd].
  pose proof (Insert_body_success e (set_mtx true t)) as Hok.
  pose proof (Insert_body_failsafe e (set_mtx true t)) as Hfail.
  destruct (Insert_body e (set_mtx true t)) as [r t1] eqn:Hbody. cbn [fst snd] in *.
  assert (Hcases : r = Ok tt \/ forall a, r <> Ok a).
  { destruct r as [[]| | |]; [left; reflexivity|right; discriminate..]. }
  destruct Hcases as [->|Hne].
  - destruct (Hok tt eq_refl) as [Hr Hm].
    split; [intros _; cbn; auto|]. split; [intros Hno; destruct (Hno eq_refl)|].
    cbn. lia.
  - specialize (Hfail Hne). unfold rootView in Hfail. cbn in Hfail.
    injection Hfail as Hid Hr Hm.
    split; [intros Hyes; destruct (Hne tt Hyes)|].
    split; [intros _; cbn; auto|]. cbn. lia.
Qed.

End InsertFrame.

(** *** The first insert *)

Lemma memSlot_memPageID (n : nat) : memSlot (memPageID n) = n.
Proof. unfold memSlot, memPageID. lia. Qed.

Lemma isMemPage_memPageID (n : nat) : Z.of_nat n < 2 ^ 63 -> isMemPage (memPageID n) = true.
Proof.
  intros Hn. unfold isMemPage, memPageID, memPageBit.
  rewrite Z.testbit_true by lia.
  replace ((2 ^ 63 + Z.of_nat n) / 2 ^ 63) with 1; [reflexivity|].
  apply Z.div_unique with (r := Z.of_nat n); lia.
Qed.

Lemma wb_alloc_Ok (w : WriteBuffer) (mp : MemPage) :
  (length (wbPages w) < wbMaxPages w)%nat ->
  wb_alloc w mp = (Ok (memPageID (length (wbPages w))),
                   mkWriteBuffer (wbPages w ++ [mp]) (wbMaxPages w)).
Proof.
  intros Hroom. unfold wb_alloc. destruct (Nat.ltb_spec (length (wbPages w)) (wbMaxPages w));
    [reflexivity|lia].
Qed.

Lemma wb_Get_last (pages : list MemPage) (maxPages : nat) (pg : Page) :
  Z.of_nat (length pages) < 2 ^ 63 ->
  wb_Get (mkWriteBuffer (pages ++ [TreePage pg]) maxPages) (memPageID (length pages)) = Ok pg.
Proof.
  intros Hn. unfold wb_Get. rewrite isMemPage_memPageID by exact Hn. cbn [negb wbPages].
  rewrite memSlot_memPageID, lookup_app_r by lia. rewrite Nat.sub_diag. reflexivity.
Qed.

Lemma wb_store_last (pages : list MemPage) (maxPages : nat) (mp mp' : MemPage) :
  wb_store (mkWriteBuffer (pages ++ [mp]) maxPages) (memPageID (length pages)) mp'
  = mkWriteBuffer (pages ++ [mp']) maxPages.
Proof.
  unfold wb_store. cbn [wbPages wbMaxPages]. rewrite memSlot_memPageID. f_equal.
  rewrite insert_app_r_alt by lia. rewrite Nat.sub_diag. reflexivity.
Qed.

Lemma bind_run {S A B : Type} (m : ST S A) (k : A -> ST S B) (s s1 : S) (a : A) :
  m s = (Ok a, s1) -> bind m k s = k a s1.
Proof. intros Hm. unfold bind. rewrite Hm. reflexivity. Qed.

Lemma run_pageOp {A} (id : PageID) (op : Page -> result (Page * A)) (s : TBTree)
    (pg0 pg1 : Page) (a : A) :
  wb_Get (wb s) id = Ok pg0 -> op pg0 = Ok (pg1, a) ->
  pageOp id op s = (Ok a, set_wb (wb_store (wb s) id (TreePage pg1)) s).
Proof.
  intros Hget Hop. unfold pageOp, bind, getMemPage, lift, storePage, modify, ret.
  rewrite Hget, Hop. reflexivity.
Qed.

Lemma run_updPage (id : PageID) (f : Page -> Page) (s : TBTree) (pg0 : Page) :
  wb_Get (wb s) id = Ok pg0 ->
  updPage id f s = (Ok tt, set_wb (wb_store (wb s) id (TreePage (f pg0))) s).
Proof.
  intros Hget. unfold updPage, bind, getMemPage, storePage, modify. rewrite Hget. reflexivity.
Qed.

Section FirstInsert.
Context {LY : Layout}.

Lemma insertEmpty_run (e : Entry) (s : TBTree) (pg : Page) (x : Entry * bool) :
  (length (wbPages (wb s)) < wbMaxPages (wb s))%nat ->
  Z.of_nat (length (wbPages (wb s))) < 2 ^ 63 ->
  InsertEntry emptyLeaf e = Ok (pg, x) ->
  insertEmpty e s =
    (Ok (mkInsertResult false (memPageID (length (wbPages (wb s)))) 0 PageNone),
     set_depth (depth s + 1)
       (set_wb (mkWriteBuffer (wbPages (wb s) ++ [TreePage (SetAsRoot pg)])
                  (wbMaxPages (wb s))) s)).
Proof.
  intros Hroom Hsmall Hentry. unfold insertEmpty.
  erewrite bind_run; [|unfold withWB, wb_AllocLeafPage; rewrite wb_alloc_Ok by exact Hroom;
                        reflexivity].
  erewrite bind_run;
    [|eapply run_pageOp; [cbn [wb set_wb]; apply wb_Get_last; exact Hsmall|exact Hentry]].
  cbn [wb set_wb]. rewrite wb_store_last.
  erewrite bind_run;
    [|eapply run_updPage; cbn [wb set_wb]; apply wb_Get_last; exact Hsmall].
  cbn [wb set_wb]. rewrite wb_store_last. reflexivity.
Qed.

(** X17: the first insert into an empty tree.  With the root at
    [PageNone], the lock free and room in the write buffer, [Insert]
    allocates one leaf at the end of the arena, puts the entry in it,
    marks it as the root page and makes it the root of the tree: the
    root id is the in-memory id of that page, the pages already in the
    arena are untouched, the depth grows by one, the root timestamp is
    the timestamp of the entry and the tree is marked mutated. *)
Theorem Insert_into_empty_tree (e : Entry) (t : TBTree) (pg : Page) (x : Entry * bool) :
  Ts e <> 0 -> rootTs t <= Ts e -> mtx t = false ->
  rootID t = PageNone ->
  0 <= depth t -> wb_Grow (wb t) (depth t + 2) = true ->
  Z.of_nat (length (wbPages (wb t))) < 2 ^ 63 ->
  InsertEntry emptyLeaf e = Ok (pg, x) ->
  let t' := snd (Insert e t) in
  fst (Insert e t) = Ok tt /\
  rootID t' = memPageID (length (wbPages (wb t))) /\
  wbPages (wb t') = wbPages (wb t) ++ [TreePage (SetAsRoot pg)] /\
  wb_Get (wb t') (rootID t') = Ok (SetAsRoot pg) /\
  depth t' = depth t + 1 /\ rootTs t' = Ts e /\ mutated t' = true /\ mtx t' = false.
Proof.
  intros H0 Hts Hlock Hroot Hdepth Hgrow Hsmall Hentry.
  assert (Hroom : (length (wbPages (wb t)) < wbMaxPages (wb t))%nat).
  { unfold wb_Grow in Hgrow. apply Z.leb_le in Hgrow. lia. }
  rewrite Insert_unfold.
  destruct (Z.eqb_spec (Ts e) 0); [contradiction|].
  destruct (Z.ltb_spec (Ts e) (rootTs t)); [lia|].
  rewrite Insert_locked_unfold, Hlock.
  assert (Hbody : Insert_body e (set_mtx true t)
    = (Ok tt, set_mutated true (set_rootTs (Ts e)
         (set_rootID (memPageID (length (wbPages (wb t))))
            (set_depth (depth t + 1)
               (set_wb (mkWriteBuffer (wbPages (wb t) ++ [TreePage (SetAsRoot pg)])
                          (wbMaxPages (wb t)))
                  (set_mtx true t))))))).
  { unfold Insert_body. unfold bind at 1. unfold canAccommodateWrite, gets.
    cbn [wb depth set_mtx]. rewrite Hgrow. cbn [negb].
    unfold bind at 1. unfold rootPageID, gets. cbn [rootID set_mtx]. rewrite Hroot.
    unfold bind at 1. unfold descentFuel at 1. cbn [insert].
    change (PageNone =? PageNone) with true. cbn match.
    erewrite bind_run; [|apply (insertEmpty_run e (set_mtx true t) pg x); assumption].
    reflexivity. }
  rewrite Hbody. cbv zeta. cbn [fst snd].
  split; [reflexivity|]. split; [reflexivity|]. split; [reflexivity|].
  split; [|repeat split].
  cbn [wb rootID set_mtx set_mutated set_rootTs set_rootID set_depth set_wb].
  apply wb_Get_last. exact Hsmall.
Qed.

End FirstInsert.

(** *** Flushing only appends *)

Lemma grows_refl (a : Appendable) : grows a a.
Proof. unfold grows. reflexivity. Qed.

Lemma grows_trans (a b c : Appendable) : grows a b -> grows b c -> grows a c.
Proof. unfold grows. intros Hab Hbc. etransitivity; eassumption. Qed.

Lemma grows_Append (a : Appendable) (bs : list Z) : grows a (snd (app_Append a bs)).
Proof.
  unfold grows, app_Append. destruct (appClosed a); cbn; [reflexivity|].
  apply prefix_app_r. reflexivity.
Qed.

Lemma appendOnly_keeps {A} (m : M A) :
  keeps (fun t => (treeApp t, historyApp t)) m -> appendOnly m.
Proof.
  intros Hk t. specialize (Hk t). injection Hk as -> ->. split; apply grows_refl.
Qed.

Lemma appendOnly_bind {A B} (m : M A) (k : A -> M B) :
  appendOnly m -> (forall a, appendOnly (k a)) -> appendOnly (bind m k).
Proof.
  intros Hm Hk t. unfold bind. specialize (Hm t).
  destruct (m t) as [[a| | |] t1]; cbn in *; [|assumption..].
  destruct Hm as [Ht Hh]. destruct (Hk a t1) as [Ht' Hh'].
  split; eapply grows_trans; eassumption.
Qed.

Lemma appendOnly_defer {A} (f : TBTree -> TBTree) (m : M A) :
  (forall t, treeApp (f t) = treeApp t /\ historyApp (f t) = historyApp t) ->
  appendOnly m -> appendOnly (defer f m).
Proof.
  intros Hf Hm t. unfold defer. specialize (Hm t).
  destruct (m t) as [r t1]; cbn in *. destruct (Hf t1) as [-> ->]. exact Hm.
Qed.

Lemma appendOnlyTo_bind {A B} (m : ST FS A) (k : A -> ST FS B) :
  appendOnlyTo m -> (forall a, appendOnlyTo (k a)) -> appendOnlyTo (bind m k).
Proof.
  intros Hm Hk s. unfold bind. specialize (Hm s).
  destruct (m s) as [[a| | |] s1]; cbn in *; [|assumption..].
  destruct Hm as (Ht & Hh & Hd). destruct (Hk a s1) as (Ht' & Hh' & Hd').
  repeat split; eapply grows_trans; eassumption.
Qed.

Lemma appendOnlyTo_ret {A} (a : A) : appendOnlyTo (ret a).
Proof. intros s. repeat split; apply grows_refl. Qed.

Lemma appendOnlyTo_failWith {A} (e : error) : appendOnlyTo (@failWith FS A e).
Proof. intros s. repeat split; apply grows_refl. Qed.

Lemma appendOnlyTo_diverge {A} : appendOnlyTo (@diverge FS A).
Proof. intros s. repeat split; apply grows_refl. Qed.

Lemma appendOnlyTo_onTree {A} (m : M A) : appendOnly m -> appendOnlyTo (onTree m).
Proof.
  intros Hm [t dst]. unfold onTree. specialize (Hm t). destruct (m t) as [r t1]; cbn in *.
  destruct Hm as [Ht Hh]. repeat split; [assumption..|apply grows_refl].
Qed.

Lemma appendOnlyTo_onDst {A} (m : ST Appendable A) :
  (forall a, grows a (snd (m a))) -> appendOnlyTo (onDst m).
Proof.
  intros Hm [t dst]. unfold onDst. specialize (Hm dst). destruct (m dst) as [r dst1]; cbn in *.
  repeat split; [apply grows_refl..|assumption].
Qed.

Lemma fold_left_invariant {A B} (P : A -> Prop) (f : A -> B -> A) (l : list B) (a : A) :
  P a -> (forall a x, P a -> P (f a x)) -> P (fold_left f l a).
Proof.
  intros Ha Hf. revert a Ha. induction l as [|x l IH]; intros a Ha; [exact Ha|].
  cbn. apply IH. apply Hf. exact Ha.
Qed.

Section FlushAppends.
Context {LY : Layout} {SL : SnapshotLayer}.

Lemma grows_appendPage (pg : Page) (tlog : Appendable) : grows tlog (snd (appendPage pg tlog)).
Proof.
  unfold appendPage. destruct (app_Size tlog); [|apply grows_refl..].
  destruct (Put pg (zeros PageSize)) as [n buf].
  destruct ((n <? 0) || (PageSize <? n)); [apply grows_refl|].
  pose proof (grows_Append tlog (take (Z.to_nat n) buf)) as Hg.
  destruct (app_Append tlog (take (Z.to_nat n) buf)) as [[| | |] tlog1]; exact Hg.
Qed.

Lemma appendOnly_getWritePage (pgID : PageID) : appendOnly (getWritePage pgID).
Proof. intros t. unfold getWritePage. destruct (isMemPage pgID); split; apply grows_refl. Qed.

Lemma appendOnly_currentPage (pageID : PageID) (pgCopy : Page) :
  appendOnly (currentPage pageID pgCopy).
Proof.
  unfold currentPage. destruct (isMemPage pageID); intros t; split; apply grows_refl.
Qed.

Lemma appendOnly_storePage (pageID : PageID) (pg : Page) : appendOnly (storePage pageID pg).
Proof. intros t. split; apply grows_refl. Qed.

Lemma flushTreeLog_appendOnly (fuel : nat) (pageID : PageID) (opts : flushOptions) :
  appendOnlyTo (flushTreeLog fuel pageID opts).
Proof.
  revert pageID. induction fuel as [|fuel IH]; intros pageID; [apply appendOnlyTo_diverge|].
  cbn [flushTreeLog].
  destruct (negb (isMemPage pageID) && negb (fullDump opts)); [apply appendOnlyTo_failWith|].
  apply appendOnlyTo_bind; [apply appendOnlyTo_onTree, appendOnly_getWritePage|]. intros pg.
  destruct (IsLeaf pg).
  - apply appendOnlyTo_bind; [apply appendOnlyTo_onDst, grows_appendPage|].
    intros x. apply appendOnlyTo_ret.
  - apply appendOnlyTo_bind.
    + apply fold_left_invariant; [apply appendOnlyTo_ret|].
      intros m i Hm. apply appendOnlyTo_bind; [exact Hm|].
      intros [[[pgCopy stale] bytes] pages].
      apply appendOnlyTo_bind; [apply appendOnlyTo_onTree, appendOnly_currentPage|]. intros pg0.
      destruct (negb (isMemPage (ChildPageAt pg0 i)) && negb (fullDump opts));
        [apply appendOnlyTo_ret|].
      apply appendOnlyTo_bind; [apply IH|]. intros res.
      apply appendOnlyTo_bind; [apply appendOnlyTo_onTree, appendOnly_currentPage|]. intros pg1.
      apply appendOnlyTo_bind; [|intros _; apply appendOnlyTo_ret].
      destruct (isMemPage pageID);
        [apply appendOnlyTo_onTree, appendOnly_storePage|apply appendOnlyTo_ret].
    + intros [[[pgCopy stale] bytes] pages].
      apply appendOnlyTo_bind; [apply appendOnlyTo_onTree, appendOnly_currentPage|]. intros pg0.
      apply appendOnlyTo_bind; [apply appendOnlyTo_onDst, grows_appendPage|].
      intros x. apply appendOnlyTo_ret.
Qed.

Lemma flushHistory_from_appendOnly (fuel : nat) (currPage : PageID) (last : list Z)
    (off n : Z) :
  appendOnly (flushHistory_from fuel currPage last off n).
Proof.
  revert currPage last off n. induction fuel as [|fuel IH]; intros currPage last off n;
    cbn [flushHistory_from]; destruct (currPage =? PageNone);
    try (intros t; split; apply grows_refl).
  apply appendOnly_bind; [intros t; split; apply grows_refl|]. intros hp.
  apply appendOnly_bind; [|intros x; apply IH].
  intros t. pose proof (grows_Append (historyApp t) (hpData hp)) as Hg.
  destruct (app_Append (historyApp t) (hpData hp)) as [r a]; cbn in *.
  split; [apply grows_refl|exact Hg].
Qed.

Lemma flushHistory_appendOnly : appendOnly flushHistory.
Proof.
  unfold flushHistory.
  apply appendOnly_bind; [intros t; split; apply grows_refl|]. intros currPage.
  destruct (currPage =? PageNone); [intros t; split; apply grows_refl|].
  apply appendOnly_bind; [intros t; split; apply grows_refl|]. intros fuel.
  apply appendOnly_bind; [apply flushHistory_from_appendOnly|]. intros [[last off] n].
  apply appendOnly_bind; [intros t; split; apply grows_refl|]. intros _.
  apply appendOnly_bind; [intros t; split; apply grows_refl|]. intros _.
  intros t; split; apply grows_refl.
Qed.

Lemma grows_commit (e : CommitEntry) (app : Appendable) : grows app (snd (commit e app)).
Proof.
  unfold commit. destruct (putCommitEntry CommitMagic e _) as [buf|]; [|apply grows_refl].
  pose proof (grows_Append app buf) as Hg.
  destruct (app_Append app buf) as [[| | |] app1]; exact Hg.
Qed.

Lemma appendOnly_logf (lvl : LogLevel) (fmt : string) (args : list LogArg) :
  appendOnly (logf lvl fmt args).
Proof. intros t. split; apply grows_refl. Qed.

Lemma appendOnly_modify (f : TBTree -> TBTree) :
  (forall t, treeApp (f t) = treeApp t /\ historyApp (f t) = historyApp t) ->
  appendOnly (modify f).
Proof. intros Hf t. cbn. destruct (Hf t) as [-> ->]. split; apply grows_refl. Qed.

Lemma appendOnly_gets {A} (f : TBTree -> A) : appendOnly (gets f).
Proof. intros t. split; apply grows_refl. Qed.

Lemma appendOnly_ret {A} (a : A) : appendOnly (@ret TBTree A a).
Proof. intros t. split; apply grows_refl. Qed.

Lemma appendOnly_failWith {A} (e : error) : appendOnly (@failWith TBTree A e).
Proof. intros t. split; apply grows_refl. Qed.

Lemma flushTo_appendOnly : appendOnlyTo flushTo.
Proof.
  unfold flushTo.
  apply appendOnlyTo_bind.
  { apply appendOnlyTo_onTree, appendOnly_bind; [apply appendOnly_gets|].
    intros t. apply appendOnly_logf. }
  intros _. apply appendOnlyTo_bind; [apply appendOnlyTo_onTree, flushHistory_appendOnly|].
  intros [[hbytes hsum] hoff].
  apply appendOnlyTo_bind; [apply appendOnlyTo_onTree, appendOnly_gets|]. intros root.
  apply appendOnlyTo_bind; [apply appendOnlyTo_onTree, appendOnly_gets|]. intros fuel.
  apply appendOnlyTo_bind; [apply flushTreeLog_appendOnly|]. intros res.
  apply appendOnlyTo_bind;
    [apply appendOnlyTo_onTree, appendOnly_modify; intros; split; reflexivity|]. intros _.
  apply appendOnlyTo_bind;
    [apply appendOnlyTo_onTree, appendOnly_modify; intros; split; reflexivity|]. intros _.
  apply appendOnlyTo_bind; [apply appendOnlyTo_onTree, appendOnly_gets|]. intros t.
  apply appendOnlyTo_bind; [apply appendOnlyTo_onDst, grows_commit|]. intros _.
  apply appendOnlyTo_bind; [apply appendOnlyTo_onTree, appendOnly_logf|]. intros _.
  apply appendOnlyTo_ret.
Qed.

Lemma maybeSync_appendOnly (n : Z) : appendOnly (maybeSync n).
Proof.
  unfold maybeSync.
  apply appendOnly_bind; [apply appendOnly_modify; intros; split; reflexivity|]. intros _.
  apply appendOnly_bind; [apply appendOnly_gets|]. intros t.
  destruct (unsyncedBytes t <? wrap32 (syncThld t)); [apply appendOnly_ret|].
  apply appendOnly_bind; [apply appendOnly_modify; intros; split; reflexivity|]. intros _.
  apply appendOnly_bind.
  { destruct (app_Sync (historyApp t)); (apply appendOnly_ret || apply appendOnly_logf). }
  intros _. apply appendOnly_bind.
  { destruct (app_Sync (treeApp t)); (apply appendOnly_ret || apply appendOnly_logf). }
  intros _.
  apply appendOnly_bind; apply appendOnly_modify || intros _;
    try (intros; split; reflexivity).
  apply appendOnly_modify; intros; split; reflexivity.
Qed.

Lemma flushToTreeLog_appendOnly : appendOnly flushToTreeLog.
Proof.
  unfold flushToTreeLog.
  apply appendOnly_bind; [apply appendOnly_gets|]. intros mut.
  destruct (negb mut); [apply appendOnly_logf|].
  apply appendOnly_bind.
  { intros t. pose proof (flushTo_appendOnly (t, treeApp t)) as (Ht & Hh & Hd).
    destruct (flushTo (t, treeApp t)) as [r [t1 dst]]; cbn in *.
    split; assumption. }
  intros [hbytes res].
  do 6 (apply appendOnly_bind;
    [apply appendOnly_modify; intros; split; reflexivity|intros _]).
  apply maybeSync_appendOnly.
Qed.

Lemma appendOnly_Lock : appendOnly Lock.
Proof. intros t. unfold Lock. destruct (mtx t); split; apply grows_refl. Qed.

Lemma appendOnly_TryLock : appendOnly TryLock.
Proof. intros t. unfold TryLock. destruct (mtx t); split; apply grows_refl. Qed.

(** X18: flushing only appends.  However [Flush], [TryFlush] and
    [FlushReset] end (nil, an error, a panic), whatever was in the tree
    log and in the history log before the call is still there, at the
    same offsets, after it: no committed byte is overwritten or cut
    off. *)
Theorem Flush_only_appends (t : TBTree) :
  (grows (treeApp t) (treeApp (snd (Flush t))) /\
   grows (historyApp t) (historyApp (snd (Flush t)))) /\
  (grows (treeApp t) (treeApp (snd (TryFlush t))) /\
   grows (historyApp t) (historyApp (snd (TryFlush t)))) /\
  (grows (treeApp t) (treeApp (snd (FlushReset t))) /\
   grows (historyApp t) (historyApp (snd (FlushReset t)))).
Proof.
  split; [|split].
  - revert t. change (appendOnly Flush). unfold Flush.
    apply appendOnly_bind; [apply appendOnly_Lock|]. intros _.
    apply appendOnly_defer; [intros; split; reflexivity|apply flushToTreeLog_appendOnly].
  - revert t. change (appendOnly TryFlush). unfold TryFlush.
    apply appendOnly_bind; [apply appendOnly_TryLock|]. intros locked.
    destruct (negb locked); [apply appendOnly_failWith|].
    apply appendOnly_defer; [intros; split; reflexivity|apply flushToTreeLog_appendOnly].
  - revert t. change (appendOnly FlushReset). unfold FlushReset.
    apply appendOnly_bind; [apply appendOnly_Lock|]. intros _.
    apply appendOnly_defer; [intros; split; reflexivity|].
    intros t. pose proof (flushToTreeLog_appendOnly t) as Hf.
    unfold bind, attempt, modify, lift.
    destruct (flushToTreeLog t) as [[u|e|msg|] t1]; cbn in *; exact Hf.
Qed.

End FlushAppends.

(** *** What a successful flush wrote *)

Lemma onTree_Ok {LY : Layout} {SL : SnapshotLayer} {A} (m : M A) (t t' : TBTree)
    (dst dst' : Appendable) (a : A) :
  onTree m (t, dst) = (Ok a, (t', dst')) -> m t = (Ok a, t') /\ dst' = dst.
Proof. unfold onTree. destruct (m t) as [r t1]. intros [= -> -> ->]. split; reflexivity. Qed.

Lemma onDst_Ok {LY : Layout} {SL : SnapshotLayer} {A} (m : ST Appendable A) (t t' : TBTree)
    (dst dst' : Appendable) (a : A) :
  onDst m (t, dst) = (Ok a, (t', dst')) -> m dst = (Ok a, dst') /\ t' = t.
Proof. unfold onDst. destruct (m dst) as [r d1]. intros [= -> -> ->]. split; reflexivity. Qed.

Section FlushAccounts.
Context {LY : Layout} {SL : SnapshotLayer}.
Hypothesis HPut : PutInPlace.

Lemma appendPage_Ok (pg : Page) (tlog tlog' : Appendable) (n : Z) (pgID : PageID) :
  appendPage pg tlog = (Ok (n, pgID), tlog') ->
  exists added,
    tlog' = mkApp (appData tlog ++ added) false /\
    Z.of_nat (length added) = n /\
    pgID = wrap64 (Z.of_nat (length (appData tlog'))).
Proof.
  unfold appendPage, app_Size, app_Append.
  destruct (appClosed tlog); [discriminate|].
  pose proof (HPut pg (zeros PageSize)) as Hlen.
  destruct (Put pg (zeros PageSize)) as [m buf]. cbn [snd] in Hlen.
  destruct (Z.ltb_spec m 0); [discriminate|].
  destruct (Z.ltb_spec PageSize m); [discriminate|]. cbn [orb].
  intros [= <- <- <-]. exists (take (Z.to_nat m) buf).
  assert (Hz : length (zeros PageSize) = Z.to_nat PageSize)
    by (unfold zeros; apply length_replicate).
  assert (Htake : Z.of_nat (length (take (Z.to_nat m) buf)) = m)
    by (rewrite length_take, Hlen, Hz; lia).
  split; [reflexivity|]. split; [exact Htake|].
  cbn [appData]. rewrite length_app, Nat2Z.inj_add, Htake.
  unfold wrap64. rewrite <- Zplus_mod. reflexivity.
Qed.

Lemma flushTreeLog_Ok (fuel : nat) :
  forall (pageID : PageID) (opts : flushOptions) (t t' : TBTree) (dst dst' : Appendable)
         (res : flushRes),
    flushTreeLog fuel pageID opts (t, dst) = (Ok res, (t', dst')) ->
    exists added,
      dst' = mkApp (appData dst ++ added) false /\
      Z.of_nat (length added) = bytesWritten res /\
      frRootID res = wrap64 (Z.of_nat (length (appData dst'))) /\
      1 <= pagesFlushed res.
Proof.
  induction fuel as [|fuel IH]; intros pageID opts t t' dst dst' res Hrun; [discriminate|].
  cbn [flushTreeLog] in Hrun.
  destruct (negb (isMemPage pageID) && negb (fullDump opts)); [discriminate|].
  apply bind_Ok in Hrun. destruct Hrun as (pg & [t1 dst1] & Hget & Hrun).
  apply onTree_Ok in Hget. destruct Hget as [Hget ->].
  destruct (IsLeaf pg).
  - apply bind_Ok in Hrun. destruct Hrun as ([n pgID] & [t2 dst2] & Happ & Hret).
    apply onDst_Ok in Happ. destruct Happ as [Happ ->].
    injection Hret as <- <- <-.
    destruct (appendPage_Ok _ _ _ _ _ Happ) as (added & -> & Hlen & Hid).
    exists added. cbn [bytesWritten frRootID pagesFlushed fst snd]. repeat split; try assumption.
    lia.
  - apply bind_Ok in Hrun. destruct Hrun as (acc & [t2 dst2] & Hloop & Hrun).
    assert (Hinv : exists added,
              appData dst2 = appData dst ++ added /\
              Z.of_nat (length added) = snd (fst acc) /\ 0 <= snd acc).
    { match type of Hloop with
      | fold_left ?f ?l ?m0 _ = _ =>
          pose proof (fold_left_invariant
            (fun m : ST FS ChildLoop => forall s acc s', m s = (Ok acc, s') ->
               exists added, appData (snd s') = appData (snd s) ++ added /\
                 Z.of_nat (length added) = snd (fst acc) /\ 0 <= snd acc) f l m0) as Hfold
      end.
      refine (Hfold _ _ (t1, dst) acc (t2, dst2) Hloop); clear Hloop Hrun Hfold.
      - intros s acc0 s' [= <- <-]. exists []. rewrite app_nil_r. cbn. repeat split; lia.
      - intros m i Hm s acc' s' Hstep.
        apply bind_Ok in Hstep. destruct Hstep as (acc0 & s1 & Hm0 & Hstep).
        destruct (Hm _ _ _ Hm0) as (added1 & Hd1 & Hl1 & Hp1).
        destruct acc0 as [[[pgCopy stale] bytes] pages]. cbn [fst snd] in *.
        destruct s1 as [ta da].
        apply bind_Ok in Hstep. destruct Hstep as (pg0 & [tb db] & Hcur & Hstep).
        apply onTree_Ok in Hcur. destruct Hcur as [_ ->].
        destruct (negb (isMemPage (ChildPageAt pg0 i)) && negb (fullDump opts)).
        + injection Hstep as <- <-. exists added1. cbn [fst snd]. auto.
        + apply bind_Ok in Hstep. destruct Hstep as (r & [tc dc] & Hchild & Hstep).
          apply IH in Hchild. destruct Hchild as (added2 & -> & Hl2 & _ & Hp2).
          apply bind_Ok in Hstep. destruct Hstep as (pg1 & [td dd] & Hcur & Hstep).
          apply onTree_Ok in Hcur. destruct Hcur as [_ ->].
          apply bind_Ok in Hstep. destruct Hstep as (u & [te de] & Hstore & Hstep).
          assert (de = mkApp (appData da ++ added2) false) as ->.
          { destruct (isMemPage pageID).
            - apply onTree_Ok in Hstore. apply Hstore.
            - injection Hstore as _ _ <-. reflexivity. }
          injection Hstep as <- <-. cbn [fst snd appData] in *.
          exists (added1 ++ added2). rewrite Hd1, app_assoc, length_app.
          repeat split; lia. }
    destruct Hinv as (added1 & Hd1 & Hl1 & Hp1).
    destruct acc as [[[pgCopy stale] bytes] pages]. cbn [fst snd] in *.
    apply bind_Ok in Hrun. destruct Hrun as (pg0 & [t3 dst3] & Hcur & Hrun).
    apply onTree_Ok in Hcur. destruct Hcur as [_ ->].
    apply bind_Ok in Hrun. destruct Hrun as ([n pgID] & [t4 dst4] & Happ & Hret).
    apply onDst_Ok in Happ. destruct Happ as [Happ ->].
    injection Hret as <- <- <-.
    destruct (appendPage_Ok _ _ _ _ _ Happ) as (added2 & -> & Hlen & Hid).
    exists (added1 ++ added2). cbn [bytesWritten frRootID pagesFlushed fst snd appData].
    rewrite Hd1, app_assoc, length_app. repeat split; try lia.
    rewrite Hid. cbn [appData]. rewrite ?Hd1. reflexivity.
Qed.

End FlushAccounts.

Lemma keepsTo_bind {X A B} (v : TBTree -> X) (m : ST FS A) (k : A -> ST FS B) :
  keepsTo v m -> (forall a, keepsTo v (k a)) -> keepsTo v (bind m k).
Proof.
  intros Hm Hk s. unfold bind. specialize (Hm s).
  destruct (m s) as [[a| | |] s1]; cbn in *; [|assumption..].
  rewrite (Hk a s1). exact Hm.
Qed.

Lemma keepsTo_ret {X A} (v : TBTree -> X) (a : A) : keepsTo v (ret a).
Proof. intros s. reflexivity. Qed.

Lemma keepsTo_failWith {X A} (v : TBTree -> X) (e : error) : keepsTo v (@failWith FS A e).
Proof. intros s. reflexivity. Qed.

Lemma keepsTo_diverge {X A} (v : TBTree -> X) : keepsTo v (@diverge FS A).
Proof. intros s. reflexivity. Qed.

Lemma keepsTo_onTree {X A} (v : TBTree -> X) (m : M A) : keeps v m -> keepsTo v (onTree m).
Proof.
  intros Hm [t dst]. unfold onTree. specialize (Hm t). destruct (m t) as [r t1]. exact Hm.
Qed.

Lemma keepsTo_onDst {X A} (v : TBTree -> X) (m : ST Appendable A) : keepsTo v (onDst m).
Proof. intros [t dst]. unfold onDst. destruct (m dst) as [r d1]. reflexivity. Qed.

Section FlushFrame.
Context {LY : Layout} {SL : SnapshotLayer}.

Lemma keeps_getWritePage {X} (v : TBTree -> X) (pgID : PageID) : keeps v (getWritePage pgID).
Proof. intros t. unfold getWritePage. destruct (isMemPage pgID); reflexivity. Qed.

Lemma keeps_currentPage {X} (v : TBTree -> X) (pageID : PageID) (pgCopy : Page) :
  keeps v (currentPage pageID pgCopy).
Proof. unfold currentPage. destruct (isMemPage pageID); intros t; reflexivity. Qed.

Lemma flushTreeLog_keeps {X} (v : TBTree -> X) (fuel : nat) (pageID : PageID)
    (opts : flushOptions) :
  (forall w t, v (set_wb w t) = v t) ->
  keepsTo v (flushTreeLog fuel pageID opts).
Proof.
  intros Hv. revert pageID. induction fuel as [|fuel IH]; intros pageID; [apply keepsTo_diverge|].
  cbn [flushTreeLog].
  destruct (negb (isMemPage pageID) && negb (fullDump opts)); [apply keepsTo_failWith|].
  apply keepsTo_bind; [apply keepsTo_onTree, keeps_getWritePage|]. intros pg.
  destruct (IsLeaf pg).
  - apply keepsTo_bind; [apply keepsTo_onDst|]. intros x. apply keepsTo_ret.
  - apply keepsTo_bind.
    + apply fold_left_invariant; [apply keepsTo_ret|].
      intros m i Hm. apply keepsTo_bind; [exact Hm|].
      intros [[[pgCopy stale] bytes] pages].
      apply keepsTo_bind; [apply keepsTo_onTree, keeps_currentPage|]. intros pg0.
      destruct (negb (isMemPage (ChildPageAt pg0 i)) && negb (fullDump opts));
        [apply keepsTo_ret|].
      apply keepsTo_bind; [apply IH|]. intros res.
      apply keepsTo_bind; [apply keepsTo_onTree, keeps_currentPage|]. intros pg1.
      apply keepsTo_bind; [|intros _; apply keepsTo_ret].
      destruct (isMemPage pageID); [|apply keepsTo_ret].
      apply keepsTo_onTree. unfold storePage. apply keeps_modify. intros; apply Hv.
    + intros [[[pgCopy stale] bytes] pages].
      apply keepsTo_bind; [apply keepsTo_onTree, keeps_currentPage|]. intros pg0.
      apply keepsTo_bind; [apply keepsTo_onDst|]. intros x. apply keepsTo_ret.
Qed.

(** What [flushHistory] leaves alone: all but the history log and the
    head of the history chain. *)
Lemma flushHistory_from_keeps {X} (v : TBTree -> X) (fuel : nat) (currPage : PageID)
    (last : list Z) (off n : Z) :
  (forall a t, v (set_historyApp a t) = v t) ->
  keeps v (flushHistory_from fuel currPage last off n).
Proof.
  intros Hv. revert currPage last off n.
  induction fuel as [|fuel IH]; intros currPage last off n;
    cbn [flushHistory_from]; destruct (currPage =? PageNone);
    try (intros t; reflexivity).
  apply keeps_bind; [apply keeps_getHistoryPage|]. intros hp.
  apply keeps_bind; [|intros x; apply IH].
  intros t. destruct (app_Append (historyApp t) (hpData hp)) as [r a]. apply Hv.
Qed.

Lemma flushHistory_keeps {X} (v : TBTree -> X) :
  (forall a t, v (set_historyApp a t) = v t) ->
  (forall p t, v (set_headHistoryPageID p t) = v t) ->
  keeps v flushHistory.
Proof.
  intros Hv Hh. unfold flushHistory.
  apply keeps_bind; [apply keeps_gets|]. intros currPage.
  destruct (currPage =? PageNone); [apply keeps_ret|].
  apply keeps_bind; [apply keeps_gets|]. intros fuel.
  apply keeps_bind; [apply flushHistory_from_keeps; exact Hv|]. intros [[last off] n].
  apply keeps_bind; [apply keeps_modify; intros; apply Hh|]. intros _.
  apply keeps_bind; [intros t; reflexivity|]. intros _. apply keeps_ret.
Qed.

Lemma flushHistory_Ok (t t' : TBTree) (n sum off : Z) :
  flushHistory t = (Ok (n, sum, off), t') -> is_uint 32 sum /\ is_uint 64 off.
Proof.
  unfold flushHistory. intros Hrun.
  apply bind_Ok in Hrun. destruct Hrun as (currPage & t1 & _ & Hrun).
  destruct (currPage =? PageNone).
  - injection Hrun as <- <- <- <-. unfold is_uint. lia.
  - apply bind_Ok in Hrun. destruct Hrun as (fuel & t2 & _ & Hrun).
    apply bind_Ok in Hrun. destruct Hrun as ([[last o] k] & t3 & _ & Hrun).
    apply bind_Ok in Hrun. destruct Hrun as (u & t4 & _ & Hrun).
    apply bind_Ok in Hrun. destruct Hrun as (u' & t5 & _ & Hrun).
    injection Hrun as <- <- <- <-. split; [apply computeChecksum_uint|].
    unfold is_uint, wrap64. apply Z.mod_pos_bound. lia.
Qed.

Lemma flushTo_keeps {X} (v : TBTree -> X) :
  (forall w t, v (set_wb w t) = v t) ->
  (forall a t, v (set_historyApp a t) = v t) ->
  (forall p t, v (set_headHistoryPageID p t) = v t) ->
  (forall l t, v (set_logged l t) = v t) ->
  (forall n t, v (set_stalePages n t) = v t) ->
  (forall n t, v (set_numPages n t) = v t) ->
  keepsTo v flushTo.
Proof.
  intros Hwb Hha Hhead Hlog Hst Hnp. unfold flushTo.
  apply keepsTo_bind.
  { apply keepsTo_onTree, keeps_bind; [apply keeps_gets|].
    intros t. unfold logf. apply keeps_modify. intros; apply Hlog. }
  intros _. apply keepsTo_bind; [apply keepsTo_onTree, flushHistory_keeps; assumption|].
  intros [[hbytes hsum] hoff].
  apply keepsTo_bind; [apply keepsTo_onTree, keeps_gets|]. intros root.
  apply keepsTo_bind; [apply keepsTo_onTree, keeps_gets|]. intros fuel.
  apply keepsTo_bind; [apply flushTreeLog_keeps; assumption|]. intros res.
  apply keepsTo_bind; [apply keepsTo_onTree, keeps_modify; intros; apply Hst|]. intros _.
  apply keepsTo_bind; [apply keepsTo_onTree, keeps_modify; intros; apply Hnp|]. intros _.
  apply keepsTo_bind; [apply keepsTo_onTree, keeps_gets|]. intros t.
  apply keepsTo_bind; [apply keepsTo_onDst|]. intros _.
  apply keepsTo_bind; [|intros _; apply keepsTo_ret].
  apply keepsTo_onTree. unfold logf. apply keeps_modify. intros; apply Hlog.
Qed.

Lemma flushTo_keeps_mtx (s : TBTree) :
  mtx (fst (snd (flushTo (s, treeApp s)))) = mtx s.
Proof.
  apply (flushTo_keeps mtx); intros; reflexivity.
Qed.

End FlushFrame.

Lemma findLastValidPage_at_end {LY : Layout} (t : TBTree) (data : list Z) (crc : Z)
    (e : CommitEntry) :
  treeApp t = mkApp (data ++ commitLayout CommitMagic crc e) false ->
  CommitEntry_wf e ->
  crc = computeChecksum (drop 4 (commitLayout CommitMagic crc e)) ->
  findLastValidPage t = Ok (stamped crc e, Z.of_nat (length data)).
Proof.
  intros Hlog Hwf Hcrc. unfold findLastValidPage, app_Size. rewrite Hlog.
  cbn [appClosed appData rbind]. rewrite length_app.
  replace (length (commitLayout CommitMagic crc e)) with CommitEntrySize by reflexivity.
  replace (Z.of_nat (length data + CommitEntrySize) - Z.of_nat CommitEntrySize)
    with (Z.of_nat (length data)) by lia.
  cbn [findLastValidPage_from].
  destruct (Z.ltb_spec (Z.of_nat (length data)) 0); [lia|].
  unfold app_ReadAt. cbn [appClosed appData].
  destruct (Z.ltb_spec (Z.of_nat (length data)) 0); [lia|].
  destruct (Z.ltb_spec (Z.of_nat CommitEntrySize) 0); [lia|]. cbn [orb].
  rewrite length_app.
  replace (length (commitLayout CommitMagic crc e)) with CommitEntrySize by reflexivity.
  destruct (Z.ltb_spec (Z.of_nat (length data + CommitEntrySize))
              (Z.of_nat (length data) + Z.of_nat CommitEntrySize)); [lia|].
  cbn [rbind]. rewrite !Nat2Z.id, drop_app_length.
  replace CommitEntrySize with (length (commitLayout CommitMagic crc e)) at 1 by reflexivity.
  rewrite firstn_all, (readCommitEntry_layout CommitMagic crc e Hwf Hcrc). reflexivity.
Qed.

Section FlushCommits.
Context {LY : Layout} {SL : SnapshotLayer}.
Hypothesis HPut : PutInPlace.

Lemma commit_Ok (e : CommitEntry) (app app' : Appendable) :
  commit e app = (Ok tt, app') ->
  exists crc, app' = mkApp (appData app ++ commitLayout CommitMagic crc e) false /\
              crc = computeChecksum (drop 4 (commitLayout CommitMagic crc e)).
Proof.
  unfold commit.
  destruct (putCommitEntry_layout CommitMagic e (zeros (Z.of_nat CommitEntrySize)) eq_refl)
    as (crc & -> & Hcrc).
  unfold app_Append, app_Flush. destruct (appClosed app); [discriminate|].
  cbn [appClosed]. intros [= <-]. exists crc. split; [reflexivity|exact Hcrc].
Qed.

Lemma flushTo_Ok (t t' : TBTree) (dst dst' : Appendable) (h : Z) (res : flushRes) :
  counters_wf t ->
  flushTo (t, dst) = (Ok (h, res), (t', dst')) ->
  exists added crc ce,
    dst' = mkApp ((appData dst ++ added) ++ commitLayout CommitMagic crc ce) false /\
    crc = computeChecksum (drop 4 (commitLayout CommitMagic crc ce)) /\
    CommitEntry_wf ce /\
    frRootID res = wrap64 (Z.of_nat (length (appData dst ++ added))) /\
    Z.of_nat (length added) = bytesWritten res /\
    CTs ce = rootTs t /\ IndexedEntryCount ce = indexedEntryCount t /\
    StalePages ce = wrap32 (stalePages t + frStalePages res) /\
    TotalPages ce = wrap64 (pagesFlushed res) /\ 1 <= pagesFlushed res /\
    rootTs t' = rootTs t /\ indexedEntryCount t' = indexedEntryCount t /\
    stalePages t' = wrap32 (stalePages t + frStalePages res) /\
    numPages t' = wrap64 (numPages t + wrap64 (pagesFlushed res)) /\
    mtx t' = mtx t /\ mutated t' = mutated t /\ treeApp t' = treeApp t.
Proof.
  intros (Hts & Hidx) Hrun. unfold flushTo in Hrun.
  apply bind_Ok in Hrun. destruct Hrun as (u0 & [ta da] & Hlog & Hrun).
  apply onTree_Ok in Hlog. destruct Hlog as [Hlog ->].
  assert (Ha : committed ta = committed t).
  { apply bind_Ok in Hlog. destruct Hlog as (t0 & t1 & [= <- <-] & [= _ <-]). reflexivity. }
  clear Hlog.
  apply bind_Ok in Hrun. destruct Hrun as ([[hbytes hsum] hoff] & [tb db] & Hhist & Hrun).
  apply onTree_Ok in Hhist. destruct Hhist as [Hhist ->].
  assert (Hb : committed tb = committed ta).
  { pose proof (flushHistory_keeps committed ltac:(reflexivity) ltac:(reflexivity) ta) as Hk.
    rewrite Hhist in Hk. exact Hk. }
  apply flushHistory_Ok in Hhist. destruct Hhist as [Hsum Hoff].
  apply bind_Ok in Hrun. destruct Hrun as (root & [tc dc] & Hroot & Hrun).
  apply onTree_Ok in Hroot. destruct Hroot as [[= <- <-] ->].
  apply bind_Ok in Hrun. destruct Hrun as (fuel & [td dd] & Hfuel & Hrun).
  apply onTree_Ok in Hfuel. destruct Hfuel as [[= <- <-] ->].
  apply bind_Ok in Hrun. destruct Hrun as (res0 & [te de] & Hflush & Hrun).
  assert (He : committed te = committed tb).
  { pose proof (flushTreeLog_keeps committed (descentFuel tb) (rootID tb)
                  (mkFlushOptions false) ltac:(reflexivity) (tb, dst)) as Hk.
    rewrite Hflush in Hk. exact Hk. }
  apply (flushTreeLog_Ok HPut) in Hflush.
  destruct Hflush as (added & -> & Hadded & Hid & Hpages).
  apply bind_Ok in Hrun. destruct Hrun as (u1 & [tf df] & Hst & Hrun).
  apply onTree_Ok in Hst. destruct Hst as [[= _ <-] ->].
  apply bind_Ok in Hrun. destruct Hrun as (u2 & [tg dg] & Hnp & Hrun).
  apply onTree_Ok in Hnp. destruct Hnp as [[= _ <-] ->].
  apply bind_Ok in Hrun. destruct Hrun as (t5 & [th dh] & Hget & Hrun).
  apply onTree_Ok in Hget. destruct Hget as [[= <- <-] ->].
  apply bind_Ok in Hrun. destruct Hrun as (u3 & [ti di] & Hcommit & Hrun).
  apply onDst_Ok in Hcommit. destruct Hcommit as [Hcommit ->].
  destruct u3. apply commit_Ok in Hcommit. destruct Hcommit as (crc & -> & Hcrc).
  apply bind_Ok in Hrun. destruct Hrun as (u4 & [tj dj] & Hlog & Hrun).
  apply onTree_Ok in Hlog. destruct Hlog as [[= _ <-] ->].
  injection Hrun as <- <- <- <-.
  unfold committed in Ha, Hb, He. rewrite Hb, Ha in He.
  injection He as Hrts Hcount Hstale Hnum Hmtx Hmut Htree _ _.
  cbn [rootTs indexedEntryCount stalePages numPages mtx mutated treeApp
       set_logged set_numPages set_stalePages] in *.
  eexists added, crc, _. split; [reflexivity|]. split; [exact Hcrc|].
  cbn [CTs IndexedEntryCount StalePages TotalPages HLogLastEntryOff HLogLastEntryChecksum
       appData] in *.
  rewrite Hrts, Hcount, Hstale, Hnum, Hmtx, Hmut, Htree.
  split.
  { unfold CommitEntry_wf.
    cbn [CTs IndexedEntryCount StalePages TotalPages HLogLastEntryOff HLogLastEntryChecksum].
    repeat split; try (apply Hts || apply Hidx || apply Hsum || apply Hoff);
      unfold wrap64, wrap32; apply Z.mod_pos_bound; lia. }
  repeat split; try assumption; try reflexivity.
Qed.

End FlushCommits.

Section FlushTheorems.
Context {LY : Layout} {SL : SnapshotLayer}.

Lemma maybeSync_keeps (n : Z) : keeps besideSync (maybeSync n).
Proof.
  unfold maybeSync.
  apply keeps_bind; [apply keeps_modify; intros; reflexivity|]. intros _.
  apply keeps_bind; [apply keeps_gets|]. intros t.
  destruct (unsyncedBytes t <? wrap32 (syncThld t)); [apply keeps_ret|].
  apply keeps_bind; [apply keeps_modify; intros; reflexivity|]. intros _.
  apply keeps_bind.
  { destruct (app_Sync (historyApp t)); try apply keeps_ret.
    unfold logf. apply keeps_modify. intros; reflexivity. }
  intros _. apply keeps_bind.
  { destruct (app_Sync (treeApp t)); try apply keeps_ret.
    unfold logf. apply keeps_modify. intros; reflexivity. }
  intros _. apply keeps_bind; [apply keeps_modify; intros; reflexivity|]. intros _.
  apply keeps_modify. intros; reflexivity.
Qed.

Lemma maybeSync_total (n : Z) : total (maybeSync n).
Proof.
  unfold maybeSync.
  apply total_bind; [apply total_modify|]. intros _.
  apply total_bind; [intros t; eexists; reflexivity|]. intros t.
  destruct (unsyncedBytes t <? wrap32 (syncThld t)); [intros s; eexists; reflexivity|].
  apply total_bind; [apply total_modify|]. intros _.
  apply total_bind.
  { destruct (app_Sync (historyApp t)); intros s; eexists; reflexivity. }
  intros _. apply total_bind.
  { destruct (app_Sync (treeApp t)); intros s; eexists; reflexivity. }
  intros _. apply total_bind; [apply total_modify|]. intros _. apply total_modify.
Qed.

Hypothesis HPut : PutInPlace.

(** X19: what a successful [flushTreeLog] returns.  The destination
    log has only grown, by exactly [bytesWritten] bytes; the id returned
    for the flushed page is the size of the log after the flush, the
    image of the page being the last thing appended; at least one page
    was flushed. *)
Theorem flushTreeLog_accounts (fuel : nat) (pageID : PageID) (opts : flushOptions)
    (t t' : TBTree) (dst dst' : Appendable) (res : flushRes) :
  flushTreeLog fuel pageID opts (t, dst) = (Ok res, (t', dst')) ->
  exists added,
    dst' = mkApp (appData dst ++ added) false /\
    Z.of_nat (length added) = bytesWritten res /\
    frRootID res = wrap64 (Z.of_nat (length (appData dst'))) /\
    1 <= pagesFlushed res.
Proof. exact (flushTreeLog_Ok HPut fuel pageID opts t t' dst dst' res). Qed.

Lemma flushToTreeLog_Ok (s s' : TBTree) :
  mutated s = true -> counters_wf s ->
  flushToTreeLog s = (Ok tt, s') ->
  exists added crc ce,
    treeApp s' = mkApp ((appData (treeApp s) ++ added) ++ commitLayout CommitMagic crc ce) false /\
    crc = computeChecksum (drop 4 (commitLayout CommitMagic crc ce)) /\
    CommitEntry_wf ce /\
    rootID s' = wrap64 (Z.of_nat (length (appData (treeApp s) ++ added))) /\
    lastSnapshotID s' = rootID s' /\ lastSnapshotTs s' = rootTs s' /\
    rootTs s' = rootTs s /\ indexedEntryCount s' = indexedEntryCount s /\
    CTs ce = rootTs s /\ IndexedEntryCount ce = indexedEntryCount s /\
    StalePages ce = stalePages s' /\
    TotalPages ce = wrap64 (numPages s' - numPages s) /\
    mutated s' = false /\ mtx s' = mtx s /\
    headHistoryPageID s' = PageNone /\ tailHistoryPageID s' = PageNone.
Proof.
  intros Hmut Hwf Hrun. unfold flushToTreeLog in Hrun.
  apply bind_Ok in Hrun. destruct Hrun as (mut & s0 & [= <- <-] & Hrun).
  rewrite Hmut in Hrun. cbn [negb] in Hrun.
  apply bind_Ok in Hrun. destruct Hrun as ([hbytes res] & s1 & Hto & Hrun).
  destruct (flushTo (s, treeApp s)) as [r [t1 dst1]] eqn:Hflush.
  injection Hto as -> <-.
  apply (flushTo_Ok HPut) in Hflush; [|exact Hwf].
  destruct Hflush as (added & crc & ce & -> & Hcrc & Hce & Hid & _ & Hcts & Hcidx & Hcst &
                      Hctot & _ & Hrts & Hidx & Hst & Hnum & Hmtx & _ & _).
  do 6 (apply bind_Ok in Hrun; destruct Hrun as (? & ? & [= _ <-] & Hrun)).
  match type of Hrun with
  | maybeSync ?n ?st = _ => pose proof (maybeSync_keeps n st) as Hk
  end.
  rewrite Hrun in Hk. cbn [snd] in Hk. unfold besideSync, rootView in Hk.
  injection Hk as Htree _ _ Hrid Hrts' Hmut' Hmtx' Hsid Hsts Hidx' Hnum' Hst' Hhead Htail _ _ _.
  cbn in Htree, Hrid, Hrts', Hmut', Hmtx', Hsid, Hsts, Hidx', Hnum', Hst', Hhead, Htail.
  exists added, crc, ce.
  rewrite Htree, Hrid, Hrts', Hmut', Hmtx', Hsid, Hsts, Hidx', Hnum', Hst', Hhead, Htail.
  split; [reflexivity|]. split; [exact Hcrc|]. split; [exact Hce|].
  split; [exact Hid|]. split; [reflexivity|]. split; [reflexivity|].
  split; [exact Hrts|]. split; [exact Hidx|]. split; [exact Hcts|]. split; [exact Hcidx|].
  split; [rewrite Hst; exact Hcst|].
  split.
  { rewrite Hctot, Hnum. unfold wrap64. rewrite Zminus_mod_idemp_l.
    replace (numPages s + pagesFlushed res mod 2 ^ 64 - numPages s)
      with (pagesFlushed res mod 2 ^ 64) by lia.
    rewrite Z.mod_mod by lia. reflexivity. }
  repeat split; assumption.
Qed.

End FlushTheorems.

Lemma isMemPage_small (pgID : PageID) : 0 <= pgID < 2 ^ 63 -> isMemPage pgID = false.
Proof.
  intros Hid. unfold isMemPage. apply Z.testbit_false; [lia|].
  rewrite Z.div_small by lia. reflexivity.
Qed.

Section FlushResults.
Context {LY : Layout} {SL : SnapshotLayer}.

Lemma Flush_unfold (t : TBTree) :
  mtx t = false ->
  Flush t = (fst (flushToTreeLog (set_mtx true t)),
             set_mtx false (snd (flushToTreeLog (set_mtx true t)))).
Proof.
  intros Hfree. unfold Flush, bind, Lock, defer. rewrite Hfree.
  destruct (flushToTreeLog (set_mtx true t)) as [[[]| | |] t1]; reflexivity.
Qed.

Lemma flushToTreeLog_clean (s : TBTree) :
  mutated s = false -> flushToTreeLog s = (Ok tt, withLog notNeeded s).
Proof.
  intros Hclean. unfold flushToTreeLog, bind, gets. rewrite Hclean. reflexivity.
Qed.

Lemma flushToTreeLog_settles (s s' : TBTree) :
  flushToTreeLog s = (Ok tt, s') -> mutated s' = false /\ mtx s' = mtx s.
Proof.
  destruct (mutated s) eqn:Hmut.
  - unfold flushToTreeLog. intros Hrun.
    apply bind_Ok in Hrun. destruct Hrun as (mut & s0 & [= <- <-] & Hrun).
    rewrite Hmut in Hrun. cbn [negb] in Hrun.
    apply bind_Ok in Hrun. destruct Hrun as ([hbytes res] & s1 & Hto & Hrun).
    pose proof (flushTo_keeps_mtx s) as Hlock.
    destruct (flushTo (s, treeApp s)) as [r [t1 dst1]]. injection Hto as -> <-.
    cbn [fst snd] in Hlock.
    do 6 (apply bind_Ok in Hrun; destruct Hrun as (? & ? & [= _ <-] & Hrun)).
    match type of Hrun with
    | maybeSync ?n ?st = _ => pose proof (maybeSync_keeps n st) as Hk
    end.
    rewrite Hrun in Hk. cbn [snd] in Hk. unfold besideSync, rootView in Hk.
    injection Hk as _ _ _ _ _ Hmut' Hmtx' _ _ _ _ _ _ _ _ _ _.
    cbn in Hmut', Hmtx'. split; [exact Hmut'|]. rewrite Hmtx'. exact Hlock.
  - rewrite (flushToTreeLog_clean s Hmut). intros [= <-]. split; [exact Hmut|reflexivity].
Qed.

End FlushResults.

Section FlushMain.
Context {LY : Layout} {SL : SnapshotLayer}.

(** X20: a flush that succeeded leaves nothing to flush.  After
    [Flush] returned nil on a tree whose lock was free, the tree is not
    marked mutated and the lock is free again, and the next [Flush]
    returns nil having changed nothing but the logger, which receives
    one line saying that no flush is needed. *)
Theorem Flush_twice (t t1 : TBTree) :
  mtx t = false -> Flush t = (Ok tt, t1) ->
  mutated t1 = false /\ mtx t1 = false /\
  Flush t1 = (Ok tt, withLog notNeeded t1).
Proof.
  intros Hfree Hrun. rewrite (Flush_unfold t Hfree) in Hrun.
  destruct (flushToTreeLog (set_mtx true t)) as [r s1] eqn:Hflush. cbn [fst snd] in Hrun.
  injection Hrun as -> <-.
  apply flushToTreeLog_settles in Hflush. destruct Hflush as [Hmut _].
  assert (Hfree1 : mtx (set_mtx false s1) = false) by reflexivity.
  split; [exact Hmut|]. split; [reflexivity|].
  rewrite (Flush_unfold _ Hfree1), flushToTreeLog_clean by exact Hmut. reflexivity.
Qed.

(** X21: the three flush entry points differ in the lock and the
    write buffer only.  With the lock free, [TryFlush] does what [Flush]
    does; [FlushReset] does what [Flush] does and then, when the flush
    returned, with nil or with an error, empties the write buffer and
    returns the outcome of the flush, while a panic of the flush leaves
    the write buffer as the flush left it.  With the lock held,
    [TryFlush] returns [ErrTreeLocked] and leaves the tree as it is. *)
Theorem flush_entry_points (t : TBTree) :
  (mtx t = false ->
   TryFlush t = Flush t /\
   FlushReset t =
     (match fst (Flush t) with
      | Ok _ | Err _ =>
          (fst (Flush t), set_wb (wb_Reset (wb (snd (Flush t)))) (snd (Flush t)))
      | Panic _ | Diverged => Flush t
      end)) /\
  (mtx t = true -> TryFlush t = (Err ErrTreeLocked, t)).
Proof.
  split.
  - intros Hfree. rewrite (Flush_unfold t Hfree). split.
    + unfold TryFlush, bind, TryLock, defer. rewrite Hfree. cbn [negb].
      destruct (flushToTreeLog (set_mtx true t)) as [[[]| | |] t1]; reflexivity.
    + unfold FlushReset, bind, Lock, defer, attempt, modify, lift. rewrite Hfree.
      destruct (flushToTreeLog (set_mtx true t)) as [[[]| | |] t1]; reflexivity.
  - intros Hheld. unfold TryFlush, bind, TryLock. rewrite Hheld. reflexivity.
Qed.

(** X22: [maybeSync n] adds [n] to the count of unsynced bytes, as a
    32-bit number.  While the count is below the sync threshold, taken
    as a 32-bit number too, that is all it does, and nothing is logged;
    otherwise, once the sync it starts has run, the count is reset to 0
    and the snapshot counter, raised for the time of the sync, is back
    at its value.  It never fails and never changes what the logs, the
    write buffer or the root hold. *)
Theorem maybeSync_spec (n : Z) (t : TBTree) :
  is_uint 64 (snapshotCount t) ->
  let t' := snd (maybeSync n t) in
  fst (maybeSync n t) = Ok tt /\
  besideSync t' = besideSync t /\
  snapshotCount t' = snapshotCount t /\
  unsyncedBytes t' =
    (if wrap32 (unsyncedBytes t + n) <? wrap32 (syncThld t)
     then wrap32 (unsyncedBytes t + n) else 0) /\
  ((wrap32 (unsyncedBytes t + n) <? wrap32 (syncThld t)) = true -> logged t' = logged t).
Proof.
  intros Hcount. cbv zeta.
  split; [destruct (maybeSync_total n t) as ([] & Hok); exact Hok|].
  split; [apply maybeSync_keeps|].
  unfold maybeSync, bind, modify, gets. cbn [unsyncedBytes syncThld set_unsyncedBytes].
  destruct (wrap32 (unsyncedBytes t + n) <? wrap32 (syncThld t));
    [split; [reflexivity|split; reflexivity]|].
  cbn [historyApp treeApp set_unsyncedBytes set_snapshotCount].
  destruct (app_Sync (historyApp t)); destruct (app_Sync (treeApp t)); cbn;
    (split; [|split; [reflexivity|discriminate]]); unfold wrap64, is_uint in *;
    rewrite Zplus_mod_idemp_l;
    replace (snapshotCount t + 1 + (2 ^ 64 - 1)) with (snapshotCount t + 1 * 2 ^ 64) by lia;
    rewrite Z.mod_add by lia; apply Z.mod_small; lia.
Qed.

(** X23: a snapshot that is already there is used again.  When a
    snapshot has been flushed, the lock is free and the timestamp asked
    for is 0 or not above the timestamp of the last snapshot,
    [SnapshotAtTs] and [SnapshotMustIncludeTs] do not flush, even if
    the tree holds unflushed inserts: both open a read snapshot on the
    last flushed root, labelled with the timestamp asked for by
    [SnapshotAtTs] (with the timestamp of the last snapshot when 0 is
    asked for) and with the timestamp of the last snapshot by
    [SnapshotMustIncludeTs]. *)
Theorem SnapshotAtTs_reuses_last_snapshot (t : TBTree) (ts : Z) :
  mtx t = false -> lastSnapshotID t <> PageNone ->
  0 <= ts <= rootTs t -> ts <= lastSnapshotTs t ->
  ensureLatestSnapshotContainsTs ts t = (Ok (lastSnapshotID t, lastSnapshotTs t), t) /\
  SnapshotAtTs ts t
    = newReadSnapshot (lastSnapshotID t) (if ts =? 0 then lastSnapshotTs t else ts) t /\
  SnapshotMustIncludeTs ts t = newReadSnapshot (lastSnapshotID t) (lastSnapshotTs t) t.
Proof.
  intros Hfree Hsnap Hts Hlast.
  assert (Hensure : ensureLatestSnapshotContainsTs ts t
                    = (Ok (lastSnapshotID t, lastSnapshotTs t), t)).
  { unfold ensureLatestSnapshotContainsTs, bind, Lock, defer, lastSnapshotRootID, gets.
    rewrite Hfree. cbn [lastSnapshotID lastSnapshotTs rootTs set_mtx].
    destruct (Z.eqb_spec (lastSnapshotID t) PageNone); [contradiction|].
    destruct (Z.ltb_spec (lastSnapshotTs t) ts); [lia|]. rewrite andb_false_r. cbn [orb].
    destruct (Z.ltb_spec (rootTs t) ts); [lia|]. cbn.
    clear -Hfree. destruct t; cbn in *; subst; reflexivity. }
  split; [exact Hensure|].
  unfold SnapshotAtTs, SnapshotMustIncludeTs, bind. rewrite Hensure. split; reflexivity.
Qed.

End FlushMain.

Section FlushCommitTheorem.
Context {LY : Layout} {SL : SnapshotLayer}.
Hypothesis HPut : PutInPlace.

(** X24: what [Flush] commits is what recovery finds.  After [Flush]
    returned nil on a mutated tree, the tree log is the log before the
    flush, the pages flushed, and one commit entry, which is the last 42
    bytes; the root id is the offset of that entry, a persistent id,
    and is the last snapshot root too; the timestamp of the last
    snapshot is the root timestamp, which the flush did not change; and
    [findLastValidPage] on the tree returns, at the root id, a commit
    entry holding the root timestamp, the indexed entry count, the
    count of stale pages of the tree and the number of pages this flush
    wrote. *)
Theorem Flush_commit_is_recoverable (t t' : TBTree) :
  mtx t = false -> mutated t = true -> counters_wf t ->
  Flush t = (Ok tt, t') ->
  Z.of_nat (length (appData (treeApp t'))) < 2 ^ 63 ->
  exists ce,
    findLastValidPage t' = Ok (ce, rootID t') /\
    rootID t' = Z.of_nat (length (appData (treeApp t'))) - Z.of_nat CommitEntrySize /\
    isMemPage (rootID t') = false /\
    lastSnapshotID t' = rootID t' /\ lastSnapshotTs t' = rootTs t' /\
    CTs ce = rootTs t' /\ IndexedEntryCount ce = indexedEntryCount t' /\
    StalePages ce = stalePages t' /\ TotalPages ce = wrap64 (numPages t' - numPages t) /\
    rootTs t' = rootTs t /\ indexedEntryCount t' = indexedEntryCount t /\
    mutated t' = false /\ mtx t' = false.
Proof.
  intros Hfree Hmut Hwf Hrun Hsize. rewrite (Flush_unfold t Hfree) in Hrun.
  destruct (flushToTreeLog (set_mtx true t)) as [r s1] eqn:Hflush. cbn [fst snd] in Hrun.
  injection Hrun as -> <-.
  apply (flushToTreeLog_Ok HPut) in Hflush; [|exact Hmut|exact Hwf].
  destruct Hflush as (added & crc & ce & Hlog & Hcrc & Hce & Hid & Hsid & Hsts & Hrts & Hidx &
                      Hcts & Hcidx & Hcst & Hctot & Hmut' & _ & _ & _).
  cbn [treeApp rootID lastSnapshotID lastSnapshotTs rootTs indexedEntryCount stalePages
       numPages mutated mtx set_mtx] in *.
  rewrite Hlog in Hsize. cbn [appData] in Hsize. rewrite length_app in Hsize.
  replace (length (commitLayout CommitMagic crc ce)) with CommitEntrySize in Hsize
    by reflexivity.
  assert (Hroot : rootID s1 = Z.of_nat (length (appData (treeApp t) ++ added))).
  { rewrite Hid. unfold wrap64. apply Z.mod_small. lia. }
  exists (stamped crc ce).
  split.
  { rewrite Hroot. apply (findLastValidPage_at_end (set_mtx false s1) _ crc ce);
      [exact Hlog|exact Hce|exact Hcrc]. }
  split.
  { rewrite Hroot, Hlog. cbn [appData]. rewrite (length_app (_ ++ _)).
    replace (length (commitLayout CommitMagic crc ce)) with CommitEntrySize by reflexivity.
    lia. }
  split; [apply isMemPage_small; rewrite Hroot; lia|].
  cbn [stamped CTs IndexedEntryCount StalePages TotalPages].
  repeat split; try assumption; congruence.
Qed.

End FlushCommitTheorem.

Section AdvanceLock.
Context {LY : Layout} {SL : SnapshotLayer}.

(** X25: [Advance] on a tree whose lock is held.  The two timestamp
    checks come before the lock: a timestamp equal to the root timestamp
    returns nil and one below it [ErrInvalidTimestamp] without looking at
    the lock; only a timestamp above it needs the lock and gets
    [ErrTreeLocked].  The tree is unchanged in all three cases; and
    whatever the lock, [Advance] never lowers the root timestamp and
    leaves the lock as it found it. *)
Theorem Advance_on_locked_tree (t : TBTree) (ts entryCount : Z) :
  (mtx t = true ->
   Advance ts entryCount t =
     (if ts =? rootTs t then Ok tt
      else if ts <? rootTs t then Err ErrInvalidTimestamp else Err ErrTreeLocked, t)) /\
  rootTs t <= rootTs (snd (Advance ts entryCount t)) /\
  mtx (snd (Advance ts entryCount t)) = mtx t.
Proof.
  unfold Advance, bind, gets, TryLock, Unlock, modify, failWith, ret.
  destruct (Z.eqb_spec ts (rootTs t)); [cbn; repeat split; lia|].
  destruct (Z.ltb_spec ts (rootTs t)); [cbn; repeat split; lia|].
  destruct (mtx t) eqn:Hlock; cbn; [repeat split; [lia|exact Hlock]|].
  split; [discriminate|]. split; [lia|reflexivity].
Qed.

End AdvanceLock.

Section CloseProperties.
Context {LY : Layout} {SL : SnapshotLayer}.

Lemma Close_unfold (t : TBTree) :
  mtx t = false ->
  Close t =
  if to_int64 (snapshotCount t) >? 0 then (Err ErrActiveSnapshots, t)
  else
    match flushToTreeLog (set_mtx true t) with
    | (Ok _, s1) =>
        (Ok (MultiErr_Append
               (MultiErr_Append
                  (MultiErr_Append
                     (MultiErr_Append NewMultiErr (app_Sync (historyApp s1)))
                     (app_Sync (treeApp s1)))
                  (fst (app_Close (historyApp s1))))
               (fst (app_Close (treeApp s1)))),
         set_mtx false
           (set_treeApp (snd (app_Close (treeApp s1)))
              (set_historyApp (snd (app_Close (historyApp s1))) s1)))
    | (Err e, s1) => (Err e, set_mtx false s1)
    | (Panic msg, s1) => (Panic msg, set_mtx false s1)
    | (Diverged, s1) => (Diverged, set_mtx false s1)
    end.
Proof.
  intros Hfree. unfold Close, Lock. unfold bind at 1. rewrite Hfree. unfold defer.
  unfold bind at 1. unfold ActiveSnapshots, gets. cbn [snapshotCount set_mtx].
  destruct (to_int64 (snapshotCount t) >? 0).
  - cbn. rewrite <- Hfree at 1. destruct t; reflexivity.
  - unfold bind at 1.
    destruct (flushToTreeLog (set_mtx true t)) as [[[]|e|msg|] s1]; try reflexivity.
    unfold bind, gets, historyApp_Close, treeApp_Close, ret, Reduce.
    cbn [historyApp treeApp set_historyApp].
    destruct (app_Close (historyApp s1)) as [rh ah]. cbn [treeApp set_historyApp].
    destruct (app_Close (treeApp s1)) as [rt at_]. reflexivity.
Qed.

(** X26: [Close] gives up at its first two steps.  With the lock free
    and a positive count of active snapshots it returns
    [ErrActiveSnapshots] and leaves the tree as it is, nothing flushed
    and no log closed; and when the flush it starts with fails, it
    returns the error of the flush at once: the logs are neither synced
    nor closed. *)
Theorem Close_stops_early (t : TBTree) :
  mtx t = false ->
  (0 < snapshotCount t < 2 ^ 63 -> Close t = (Err ErrActiveSnapshots, t)) /\
  (forall e s1,
     snapshotCount t = 0 -> flushToTreeLog (set_mtx true t) = (Err e, s1) ->
     Close t = (Err e, set_mtx false s1) /\
     appClosed (treeApp (snd (Close t))) = appClosed (treeApp s1) /\
     appClosed (historyApp (snd (Close t))) = appClosed (historyApp s1)).
Proof.
  intros Hfree. split.
  - intros Hactive. rewrite (Close_unfold t Hfree), to_int64_small by lia.
    destruct (Z.gtb_spec (snapshotCount t) 0); [reflexivity|lia].
  - intros e s1 Hnone Hflush. rewrite (Close_unfold t Hfree), Hnone, Hflush.
    repeat split.
Qed.

(** X27: [Close] on a tree with nothing to flush, no active snapshot
    and both logs open returns nil and closes both logs, whose content
    is unchanged; a second [Close] does not fail at once but goes through
    all four steps and returns the four [ErrAlreadyClosed] errors of the
    two syncs and the two closes, aggregated. *)
Theorem Close_closes_both_logs (t : TBTree) :
  mtx t = false -> snapshotCount t = 0 -> mutated t = false ->
  appClosed (treeApp t) = false -> appClosed (historyApp t) = false ->
  let t' := snd (Close t) in
  fst (Close t) = Ok [] /\
  treeApp t' = mkApp (appData (treeApp t)) true /\
  historyApp t' = mkApp (appData (historyApp t)) true /\
  mtx t' = false /\
  fst (Close t') = Ok [ErrAlreadyClosed; ErrAlreadyClosed; ErrAlreadyClosed; ErrAlreadyClosed].
Proof.
  intros Hfree Hnone Hclean Htree Hhist. cbv zeta.
  rewrite (Close_unfold t Hfree), Hnone. change (to_int64 0 >? 0) with false. cbv iota.
  rewrite flushToTreeLog_clean by exact Hclean.
  unfold app_Sync, app_Close.
  cbn [historyApp treeApp withLog set_logged set_mtx]. rewrite Htree, Hhist.
  cbn [fst snd MultiErr_Append NewMultiErr treeApp historyApp set_mtx set_treeApp
       set_historyApp mtx].
  split; [reflexivity|]. split; [reflexivity|]. split; [reflexivity|]. split; [reflexivity|].
  rewrite Close_unfold by reflexivity.
  cbn [snapshotCount set_mtx set_treeApp set_historyApp withLog set_logged]. rewrite Hnone.
  change (to_int64 0 >? 0) with false. cbv iota.
  rewrite flushToTreeLog_clean by exact Hclean. reflexivity.
Qed.

End CloseProperties.

(** *** The root after an insert *)

Lemma returns_bind {A B} (m : M A) (k : A -> M B) (Q : A -> Prop) (P : B -> Prop) :
  returns m Q -> (forall a, Q a -> returns (k a) P) -> returns (bind m k) P.
Proof.
  intros Hm Hk t b. unfold bind. specialize (Hm t).
  destruct (m t) as [[a| | |] t1]; cbn in *; try discriminate.
  apply (Hk a (Hm a eq_refl)).
Qed.

Lemma returns_any {A} (m : M A) : returns m (fun _ => True).
Proof. intros t a _. exact I. Qed.

Lemma returns_then {A B} (m : M A) (k : A -> M B) (P : B -> Prop) :
  (forall a, returns (k a) P) -> returns (bind m k) P.
Proof. intros Hk. apply returns_bind with (Q := fun _ => True); [apply returns_any|auto]. Qed.

Lemma returns_ret {A} (a : A) (P : A -> Prop) : P a -> returns (ret a) P.
Proof. intros Ha t b [= <-]. exact Ha. Qed.

Lemma returns_failWith {A} (e : error) (P : A -> Prop) : returns (failWith e) P.
Proof. intros t a. discriminate. Qed.

Lemma returns_panic {A} (msg : string) (P : A -> Prop) : returns (panic msg) P.
Proof. intros t a. discriminate. Qed.

Lemma returns_diverge {A} (P : A -> Prop) : returns (@diverge TBTree A) P.
Proof. intros t a. discriminate. Qed.

Lemma returns_run {A} (m : M A) (P : A -> Prop) (t t' : TBTree) (a : A) :
  returns m P -> m t = (Ok a, t') -> P a.
Proof. intros Hm Hrun. apply (Hm t a). rewrite Hrun. reflexivity. Qed.

Lemma wb_Get_Ok_mem (w : WriteBuffer) (pgID : PageID) (pg : Page) :
  wb_Get w pgID = Ok pg -> isMemPage pgID = true.
Proof. unfold wb_Get. destruct (isMemPage pgID); [reflexivity|discriminate]. Qed.

Lemma pageOp_Ok_mem {A} (pgID : PageID) (op : Page -> result (Page * A)) (t t' : TBTree)
    (a : A) :
  pageOp pgID op t = (Ok a, t') -> isMemPage pgID = true.
Proof.
  unfold pageOp. intros Hrun. apply bind_Ok in Hrun.
  destruct Hrun as (pg & t1 & Hget & _). unfold getMemPage in Hget.
  injection Hget as Hget _. apply wb_Get_Ok_mem in Hget. exact Hget.
Qed.

Lemma wb_alloc_Ok_mem (w w' : WriteBuffer) (mp : MemPage) (pgID : PageID) :
  Z.of_nat (wbMaxPages w) <= 2 ^ 63 ->
  wb_alloc w mp = (Ok pgID, w') -> isMemPage pgID = true.
Proof.
  intros Hmax. unfold wb_alloc.
  destruct (Nat.ltb_spec (length (wbPages w)) (wbMaxPages w)); [|discriminate].
  intros [= <- _]. apply isMemPage_memPageID. lia.
Qed.

Section RootInMemory.
Context {LY : Layout}.

Lemma GetOrDup_Ok_mem (pgID nid : PageID) (pg : Page) (t t' : TBTree) :
  arenaAddressable t -> GetOrDup pgID t = (Ok (pg, nid), t') -> isMemPage nid = true.
Proof.
  unfold arenaAddressable, GetOrDup, wb_GetOrDup. intros Hmax.
  destruct (isMemPage pgID) eqn:Hmem.
  - destruct (wb_Get (wb t) pgID); intros [= _ <- _]. exact Hmem.
  - destruct (Nat.ltb_spec (length (wbPages (wb t))) (wbMaxPages (wb t))); [|discriminate].
    cbn [negb]. destruct (dupPage t pgID); intros [= _ <- _].
    apply isMemPage_memPageID. lia.
Qed.

Lemma splitLeafPage_returns (pgID : PageID) (e : Entry) :
  returns (splitLeafPage pgID e) (fun res => newPageID res = pgID).
Proof.
  unfold splitLeafPage. do 6 (apply returns_then; intros ?).
  destruct (Page_splitLeafPage _ _ _) as [pg' sp'].
  do 2 (apply returns_then; intros ?). apply returns_ret. reflexivity.
Qed.

Lemma insertLeaf_returns (pgID : PageID) (e : Entry) (d : Z) :
  returns (insertLeaf pgID e d) (fun res => newPageID res = pgID).
Proof.
  unfold insertLeaf. apply returns_then. intros [[prev replaced]|err|msg|].
  - do 2 (apply returns_then; intros ?). apply returns_ret. reflexivity.
  - destruct err; try apply returns_failWith. apply splitLeafPage_returns.
  - apply returns_panic.
  - apply returns_diverge.
Qed.

Lemma insertInnerPage_returns (pgID : PageID) (res : insertResult) :
  returns (insertInnerPage pgID res)
    (fun z => snd z = true -> newPageID (fst z) = pgID).
Proof.
  unfold insertInnerPage. apply returns_then. intros sk. apply returns_then.
  intros [idx|err|msg|]; try (apply returns_ret; discriminate).
  destruct err; try (apply returns_ret; discriminate).
  do 4 (apply returns_then; intros ?).
  destruct (Page_splitInnerPage _ _ _ _ _) as [pg' sp'].
  do 2 (apply returns_then; intros ?). apply returns_ret. reflexivity.
Qed.

Lemma insert_Ok_mem (fuel : nat) (pgID : PageID) (e : Entry) (d : Z) (t t' : TBTree)
    (res : insertResult) :
  arenaAddressable t ->
  insert fuel pgID e d t = (Ok res, t') -> isMemPage (newPageID res) = true.
Proof.
  intros Hmax Hrun. destruct fuel as [|fuel]; [discriminate|]. cbn [insert] in Hrun.
  destruct (pgID =? PageNone).
  - unfold insertEmpty in Hrun. apply bind_Ok in Hrun.
    destruct Hrun as (nid & t1 & Halloc & Hrest).
    assert (Hnid : isMemPage nid = true).
    { unfold withWB, wb_AllocLeafPage in Halloc.
      destruct (wb_alloc (wb t) (TreePage emptyLeaf)) as [r w] eqn:Ha.
      injection Halloc as -> _. eapply wb_alloc_Ok_mem; eassumption. }
    enough (Hres : newPageID res = nid) by (rewrite Hres; exact Hnid).
    revert Hrest. apply (returns_run _ (fun r => newPageID r = nid)).
    do 3 (apply returns_then; intros ?). apply returns_ret. reflexivity.
  - apply bind_Ok in Hrun. destruct Hrun as ([pg nid] & t1 & Hdup & Hrest).
    pose proof (GetOrDup_Ok_mem _ _ _ _ _ Hmax Hdup) as Hnid.
    enough (Hres : newPageID res = nid) by (rewrite Hres; exact Hnid).
    revert Hrest. apply (returns_run _ (fun r => newPageID r = nid)).
    destruct (IsLeaf pg); [apply insertLeaf_returns|].
    apply returns_then. intros [idx child]. apply returns_then. intros res1.
    apply returns_bind with (Q := fun early => forall r, early = Some r -> newPageID r = nid).
    + destruct (split res1); [|apply returns_ret; discriminate].
      eapply returns_bind; [apply insertInnerPage_returns|].
      intros [r1 splitted] Hz. cbn [fst snd] in *. destruct splitted.
      * apply returns_ret. intros r [= <-]. apply Hz. reflexivity.
      * apply returns_ret. discriminate.
    + intros [r|] Hearly.
      * apply returns_ret. apply Hearly. reflexivity.
      * apply returns_then. intros _. apply returns_ret. reflexivity.
Qed.

(** X28: an insert that succeeded leaves its root in the write
    buffer.  When the arena of the write buffer is addressable by
    in-memory ids and [Insert] returns nil, the root id of the tree is
    an in-memory id, which is what the flush of the tree requires of
    the page it starts from. *)
Theorem Insert_root_in_memory (e : Entry) (t : TBTree) :
  arenaAddressable t -> fst (Insert e t) = Ok tt ->
  isMemPage (rootID (snd (Insert e t))) = true.
Proof.
  intros Hmax. rewrite Insert_unfold.
  destruct (Ts e =? 0); [discriminate|]. destruct (Ts e <? rootTs t); [discriminate|].
  rewrite Insert_locked_unfold. destruct (mtx t); [discriminate|]. cbn [fst snd].
  destruct (Insert_body e (set_mtx true t)) as [r s'] eqn:Hbody. cbn [fst snd].
  intros ->. unfold Insert_body, canAccommodateWrite, rootPageID, gets in Hbody.
  apply bind_Ok in Hbody. destruct Hbody as (ok & s0 & [= <- <-] & Hbody).
  destruct (negb _); [discriminate|].
  apply bind_Ok in Hbody. destruct Hbody as (root & s1 & [= <- <-] & Hbody).
  apply bind_Ok in Hbody. destruct Hbody as (fuel & s2 & [= <- <-] & Hbody).
  apply bind_Ok in Hbody. destruct Hbody as (res & s3 & Hins & Hbody).
  apply insert_Ok_mem in Hins; [|exact Hmax].
  apply bind_Ok in Hbody. destruct Hbody as (u & s4 & Hroot & Hbody).
  assert (Hmem : isMemPage (rootID s4) = true).
  { destruct (split res).
    - do 2 (apply bind_Ok in Hroot; destruct Hroot as (? & ? & _ & Hroot)).
      apply bind_Ok in Hroot. destruct Hroot as (newRootID & s5 & _ & Hroot).
      apply bind_Ok in Hroot. destruct Hroot as (sk & s6 & _ & Hroot).
      apply bind_Ok in Hroot. destruct Hroot as (idx & s7 & Hop & Hroot).
      apply pageOp_Ok_mem in Hop.
      apply bind_Ok in Hroot. destruct Hroot as (u1 & s8 & _ & Hroot).
      injection Hroot as _ <-. exact Hop.
    - injection Hroot as _ <-. exact Hins. }
  apply bind_Ok in Hbody. destruct Hbody as (u2 & s5 & [= _ <-] & [= <-]).
  exact Hmem.
Qed.

End RootInMemory.

(** *** Recovery from a commit entry *)

Section RecoveryProperties.
Context {LY : Layout}.

Lemma readPage_depends_on_treeApp (t1 t2 : TBTree) (dst : list Z) (pgID : PageID) :
  treeApp t1 = treeApp t2 -> readPage t1 dst pgID = readPage t2 dst pgID.
Proof. intros Heq. unfold readPage. rewrite Heq. reflexivity. Qed.

Lemma findLastValidPage_depends_on_treeApp (t1 t2 : TBTree) :
  treeApp t1 = treeApp t2 -> findLastValidPage t1 = findLastValidPage t2.
Proof. intros Heq. unfold findLastValidPage. rewrite Heq. reflexivity. Qed.

Lemma treeApp_SetOffset_end (s : TBTree) :
  appClosed (treeApp s) = false ->
  treeApp_SetOffset (Z.of_nat (length (appData (treeApp s)))) s
  = (Ok tt, set_treeApp (mkApp (appData (treeApp s)) false) s).
Proof.
  intros Hopen. unfold treeApp_SetOffset, app_SetOffset. rewrite Hopen.
  destruct (Z.ltb_spec (Z.of_nat (length (appData (treeApp s)))) 0); [lia|].
  rewrite Z.ltb_irrefl. cbn [orb]. rewrite Nat2Z.id, firstn_all. reflexivity.
Qed.

Lemma historyApp_SetOffset_run (s : TBTree) (off : Z) :
  appClosed (historyApp s) = false ->
  0 <= off <= Z.of_nat (length (appData (historyApp s))) ->
  historyApp_SetOffset off s
  = (Ok tt, set_historyApp (mkApp (take (Z.to_nat off) (appData (historyApp s))) false) s).
Proof.
  intros Hopen Hoff. unfold historyApp_SetOffset, app_SetOffset. rewrite Hopen.
  destruct (Z.ltb_spec off 0); [lia|].
  destruct (Z.ltb_spec (Z.of_nat (length (appData (historyApp s)))) off); [lia|].
  reflexivity.
Qed.

(** X29: [OpenWith] recovers the tree from the commit entry the tree
    log ends with.  When the last 42 bytes of the tree log are a commit
    entry and the page that ends where the entry starts reads back as a
    root page, the tree opens with that page as its root and as its last
    snapshot, with the timestamp, the indexed entry count and the page
    counters of the entry; the tree log is kept as it is, and the
    history log is cut at the offset the entry records. *)
Theorem OpenWith_recovers_commit (path : string) (ta ha : Appendable) (opts : Options)
    (data : list Z) (crc : Z) (ce : CommitEntry) (buf : list Z) :
  optInvalid opts = None -> appClosed ha = false ->
  ta = mkApp (data ++ commitLayout CommitMagic crc ce) false ->
  CommitEntry_wf ce ->
  crc = computeChecksum (drop 4 (commitLayout CommitMagic crc ce)) ->
  Z.of_nat (length data) < 2 ^ 63 ->
  readPage (set_treeApp ta blankTree) (zeros PageSize) (Z.of_nat (length data)) = Ok buf ->
  IsRoot (PageFromBytes buf) = true ->
  HLogLastEntryOff ce <= Z.of_nat (length (appData ha)) ->
  Z.of_nat (length (appData ha)) < 2 ^ 63 ->
  exists t,
    OpenWith path (Some ta) (Some ha) opts = (Ok t, Some (historyApp t)) /\
    rootID t = Z.of_nat (length data) /\ lastSnapshotID t = Z.of_nat (length data) /\
    rootTs t = CTs ce /\ lastSnapshotTs t = CTs ce /\
    indexedEntryCount t = IndexedEntryCount ce /\
    numPages t = TotalPages ce /\ stalePages t = StalePages ce /\
    treeApp t = ta /\
    historyApp t = mkApp (take (Z.to_nat (HLogLastEntryOff ce)) (appData ha)) false /\
    mutated t = false /\ mtx t = false.
Proof.
  intros Hvalid Hha Hta Hwf Hcrc Hsmall Hread Hroot Hhoff Hhsize.
  unfold OpenWith. rewrite Hvalid.
  set (t0 := {| mtx := false; path := path; id := optID opts; mutated := false;
                logged := []; wb := optWB opts; rootID := 0; lastSnapshotID := 0;
                rootTs := 0; lastSnapshotTs := 0; indexedEntryCount := 0;
                headHistoryPageID := PageNone; tailHistoryPageID := PageNone;
                bufferedHistoryData := 0; treeApp := ta; historyApp := ha;
                numPages := 0; stalePages := 0; nSplits := 0; depth := 0;
                snapshotCount := 0; maxActiveSnapshots := optMaxActiveSnapshots opts;
                syncThld := optSyncThld opts; unsyncedBytes := 0;
                readOnly := optReadOnly opts |}).
  assert (Hfind : findLastValidPage t0 = Ok (stamped crc ce, Z.of_nat (length data)))
    by (apply findLastValidPage_at_end; [exact Hta|exact Hwf|exact Hcrc]).
  assert (Hpage : readPage t0 (zeros PageSize) (wrap64 (Z.of_nat (length data))) = Ok buf).
  { unfold wrap64. rewrite Z.mod_small by lia.
    rewrite (readPage_depends_on_treeApp t0 (set_treeApp ta blankTree)) by reflexivity.
    exact Hread. }
  destruct Hwf as (_ & Hoff & _).
  assert (Hrun : recoverRootPage t0 =
    (Ok tt,
     set_stalePages (StalePages ce) (set_numPages (TotalPages ce)
       (set_indexedEntryCount (IndexedEntryCount ce) (set_lastSnapshotTs (CTs ce)
          (set_lastSnapshotID (Z.of_nat (length data)) (set_rootID (Z.of_nat (length data))
             (set_rootTs (CTs ce)
                (set_historyApp
                   (mkApp (take (Z.to_nat (HLogLastEntryOff ce)) (appData ha)) false)
                   t0))))))))).
  { unfold recoverRootPage. unfold bind at 1. unfold gets. rewrite Hfind.
    unfold bind at 1. unfold lift. rewrite Hpage. rewrite Hroot. cbn [negb].
    replace (Z.of_nat (length data) + Z.of_nat CommitEntrySize)
      with (Z.of_nat (length (appData (treeApp t0)))).
    2:{ subst t0 ta. cbn [treeApp appData]. rewrite length_app.
        replace (length (commitLayout CommitMagic crc ce)) with CommitEntrySize by reflexivity.
        lia. }
    erewrite bind_run; [|apply treeApp_SetOffset_end; subst t0 ta; reflexivity].
    unfold is_uint in Hoff.
    cbn [stamped HLogLastEntryOff]. rewrite (to_int64_small (HLogLastEntryOff ce)) by lia.
    erewrite bind_run;
      [|apply historyApp_SetOffset_run;
        [exact Hha|subst t0; cbn [historyApp set_treeApp]; lia]].
    replace (wrap64 (Z.of_nat (length data))) with (Z.of_nat (length data))
      by (unfold wrap64; symmetry; apply Z.mod_small; lia).
    subst t0 ta. reflexivity. }
  rewrite Hrun. eexists. split; [reflexivity|]. repeat split.
Qed.

End RecoveryProperties.

(** *** The properties on the reference layout *)

Lemma RPut_in_place : PutInPlace.
Proof.
  intros pg buf. cbn [Put layout]. unfold RPut. cbn [snd].
  rewrite length_take, length_app, length_drop. lia.
Qed.

Lemma findMagic_spec_witness :
  findMagic 0x7462 [9; 0x74; 0x62; 0x62] = 2 /\
  magicEndsAt 0x7462 [9; 0x74; 0x62; 0x62] 2 = true /\
  magicEndsAt 0x7462 [9; 0x74; 0x62; 0x62] 1 = false.
Proof.
  pose proof (findMagic_spec 0x7462 [9; 0x74; 0x62; 0x62]) as Hspec.
  cbv zeta in Hspec. destruct Hspec as (_ & Hat & _).
  split; [reflexivity|]. split; [|reflexivity].
  apply Hat. vm_compute. discriminate.
Defined.

Lemma findLastValidPage_sound_witness :
  let data := appData (treeApp flushedTree) in
  let e := mkCommitEntry 2852034549 3 0 1705074730 1 0 0 in
  findLastValidPage flushedTree = Ok (e, 4096) /\
  readCommitEntry (slice data 4096 CommitEntrySize) = Ok e /\
  Checksum e = computeChecksum (drop ChecksumSize (slice data 4096 CommitEntrySize)).
Proof.
  cbv zeta.
  assert (Hfound : findLastValidPage flushedTree
                   = Ok (mkCommitEntry 2852034549 3 0 1705074730 1 0 0, 4096))
    by (vm_compute; reflexivity).
  split; [exact Hfound|].
  exact (proj2 (findLastValidPage_sound flushedTree _ 4096 Hfound)).
Defined.

Lemma commit_then_findLastValidPage_witness :
  appClosed emptyApp = false /\ CommitEntry_wf sampleCommitEntry /\
  exists crc app',
    commit sampleCommitEntry emptyApp = (Ok tt, app') /\
    app' = mkApp (appData emptyApp ++ commitLayout CommitMagic crc sampleCommitEntry) false /\
    findLastValidPage (set_treeApp app' blankTree) = Ok (stamped crc sampleCommitEntry, 0).
Proof.
  assert (Hwf : CommitEntry_wf sampleCommitEntry)
    by (unfold CommitEntry_wf, is_uint; cbn; lia).
  split; [reflexivity|]. split; [exact Hwf|].
  exact (commit_then_findLastValidPage blankTree sampleCommitEntry emptyApp eq_refl Hwf).
Defined.

Lemma OpenWith_without_commit_entry_witness :
  exists t,
    OpenWith "/data/index" (Some emptyApp) (Some (mkApp [1; 2; 3] false)) freshOptions
    = (Ok t, Some (mkApp [] false)) /\
    rootID t = PageNone /\ rootTs t = 0 /\ historyApp t = mkApp [] false.
Proof.
  destruct (OpenWith_without_commit_entry "/data/index" emptyApp (mkApp [1; 2; 3] false)
              freshOptions eq_refl eq_refl eq_refl)
    as (t & Hopen & Hroot & _ & Hts & _ & _ & _ & _ & Hhist & _).
  { vm_compute. lia. }
  exists t. repeat split; assumption.
Defined.

Lemma snapshotTs_iff_witness :
  snapshotTs (dir "tree_9") = Some 9 /\ snapshotTs (dir "tree") = None.
Proof.
  split.
  - apply snapshotTs_iff. split; [reflexivity|]. exists "9"%string. split; reflexivity.
  - destruct (snapshotTs (dir "tree")) as [ts|] eqn:Hts; [|reflexivity].
    apply snapshotTs_iff in Hts. destruct Hts as (_ & digits & Hname & _). discriminate Hname.
Defined.

Lemma Open_without_snapshots_witness :
  candidates [] = [] /\
  Open "/data/index" freshOptions emptyWorld
  = (fst (OpenWith "/data/index" (Some emptyApp) (Some emptyApp) freshOptions), emptyWorld).
Proof.
  split; [reflexivity|].
  exact (Open_without_snapshots "/data/index" freshOptions emptyWorld [] emptyApp emptyApp
           eq_refl eq_refl eq_refl eq_refl eq_refl).
Defined.

Lemma Open_first_snapshot_witness :
  snapshotTs (dir "tree_4") = Some 4 /\
  Open "/data/index" snapshotOptions emptyWorld
  = (fst (OpenWith "/data/index" (Some emptyApp) (Some emptyApp) snapshotOptions), emptyWorld).
Proof.
  split; [reflexivity|].
  exact (Open_first_snapshot "/data/index" snapshotOptions emptyWorld [dir "tree"] []
           (dir "tree_4") 4 emptyApp emptyApp _ _
           eq_refl eq_refl eq_refl eq_refl eq_refl eq_refl eq_refl).
Defined.

Lemma readPage_id_check_witness :
  is_uint 64 4096 /\
  readPage flushedTree (zeros PageSize) 0 = Err ErrInvalidPageID /\
  readPage flushedTree (zeros PageSize) PageNone = Err ErrInvalidPageID /\
  readPage flushedTree (zeros PageSize) 4096
  = (buf <- readPageToBuf (zeros PageSize) (treeApp flushedTree) (to_int64 (to_int64 4096 - PageSize)) ;;
     match expandToFixedPage buf with
     | Some buf => Ok buf
     | None => Err ErrCorruptedPage
     end).
Proof.
  assert (H0 : is_uint 64 0) by (unfold is_uint; lia).
  assert (Hnone : is_uint 64 PageNone) by (unfold is_uint, PageNone; lia).
  assert (H36 : is_uint 64 4096) by (unfold is_uint; lia).
  split; [exact H36|].
  split; [apply (readPage_id_check flushedTree (zeros PageSize) 0 H0); left; reflexivity|].
  split; [apply (readPage_id_check flushedTree (zeros PageSize) PageNone Hnone); right;
          unfold PageNone; lia|].
  apply (readPage_id_check flushedTree (zeros PageSize) 4096 H36). lia.
Defined.

Lemma getRevision_follows_chain_witness :
  chainAt (historyApp flushedTree) 19 [secondRevision; firstRevision] /\
  getRevision flushedTree 19 2 = Ok (mkHistoryEntry OffsetNone 1 "1").
Proof.
  assert (Hchain : chainAt (historyApp flushedTree) 19 ([secondRevision] ++ [firstRevision])).
  { cbn [chainAt app]. unfold recordAt, HistoryEntry_wf, is_uint.
    repeat split; try reflexivity; try (vm_compute; discriminate). }
  split; [exact Hchain|].
  apply (getRevision_follows_chain flushedTree 19 [secondRevision] firstRevision eq_refl);
    [reflexivity|exact Hchain].
Defined.

Lemma GetRevision_versions_witness :
  GetRevision "a" 3 flushedTree = (Ok ("3"%string, 3), flushedTree) /\
  GetRevision "a" 4 flushedTree = (Err ErrKeyRevisionNotFound, flushedTree) /\
  GetRevision "a" 1 flushedTree = (Ok ("1"%string, 1), flushedTree).
Proof.
  assert (Hchain : chainAt (historyApp flushedTree) 19 ([secondRevision] ++ [firstRevision])).
  { cbn [chainAt app]. unfold recordAt, HistoryEntry_wf, is_uint.
    repeat split; try reflexivity; try (vm_compute; discriminate). }
  assert (Hversions : forall version, version < 2 ^ 62 -> _)
    by exact (fun version Hv =>
                GetRevision_versions "a" version flushedTree _ 4096 (mkEntry "a" "3" 3 19 2)
                  eq_refl eq_refl ltac:(cbn; lia) Hv).
  split; [apply (Hversions 3); [lia|reflexivity]|].
  split; [apply (Hversions 4); [lia|cbn; lia]|].
  apply (proj2 (proj2 (Hversions 1 ltac:(lia))) ltac:(cbn; lia) [secondRevision] firstRevision);
    [reflexivity|reflexivity|exact Hchain].
Defined.

Lemma GetRevision_without_snapshot_witness :
  lastSnapshotID sampleTree = PageNone /\
  GetRevision "a" 1 sampleTree = (Err ErrInvalidPageID, sampleTree) /\
  @GetRevision hostileLayout "a" 1 sampleTree = (Err ErrCacheExhausted, sampleTree).
Proof.
  split; [reflexivity|].
  split; [exact (GetRevision_without_snapshot "a" 1 sampleTree eq_refl)|].
  exact (@GetRevision_without_snapshot hostileLayout "a" 1 sampleTree eq_refl).
Defined.

Lemma Insert_guards_witness :
  Insert (entry "b" "1" 0) (set_mtx true sampleTree)
  = (Err ErrInvalidTimestamp, set_mtx true sampleTree) /\
  Insert (entry "b" "1" 4) (set_mtx true sampleTree)
  = (Err ErrTreeLocked, set_mtx true sampleTree) /\
  Insert (entry "b" "1" 4) blankTree = (Err ErrWriteBufferFull, blankTree).
Proof.
  split; [apply (Insert_guards (entry "b" "1" 0) (set_mtx true sampleTree)); left; reflexivity|].
  split; [apply (Insert_guards (entry "b" "1" 4) (set_mtx true sampleTree));
          [discriminate|cbn; lia|reflexivity]|].
  apply (Insert_guards (entry "b" "1" 4) blankTree);
    [discriminate|cbn; lia|reflexivity|reflexivity].
Defined.

Lemma Insert_publishes_root_last_witness :
  fst (Insert (entry "b" "1" 4) sampleTree) = Ok tt /\
  rootTs (snd (Insert (entry "b" "1" 4) sampleTree)) = 4 /\
  fst (Insert (entry "b" "1" 4) blankTree) <> Ok tt /\
  rootID (snd (Insert (entry "b" "1" 4) blankTree)) = PageNone.
Proof.
  assert (Hok : fst (Insert (entry "b" "1" 4) sampleTree) = Ok tt) by (vm_compute; reflexivity).
  assert (Hfull : fst (Insert (entry "b" "1" 4) blankTree) <> Ok tt)
    by (vm_compute; discriminate).
  split; [exact Hok|].
  split; [exact (proj1 (proj1 (Insert_publishes_root_last (entry "b" "1" 4) sampleTree) Hok))|].
  split; [exact Hfull|].
  exact (proj1 (proj1 (proj2 (Insert_publishes_root_last (entry "b" "1" 4) blankTree)) Hfull)).
Defined.

Lemma Insert_into_empty_tree_witness :
  let t := treeOf freshTree in
  let t' := snd (Insert (entry "a" "1" 1) t) in
  rootID t = PageNone /\
  fst (Insert (entry "a" "1" 1) t) = Ok tt /\
  rootID t' = memPageID 0 /\
  wb_Get (wb t') (rootID t')
  = Ok (SetAsRoot (withEntries emptyLeaf [mkEntry "a" "1" 1 OffsetNone 0])) /\
  depth t' = 1 /\ rootTs t' = 1 /\ mutated t' = true.
Proof.
  cbv zeta. split; [reflexivity|].
  destruct (Insert_into_empty_tree (entry "a" "1" 1) (treeOf freshTree)
              (withEntries emptyLeaf [mkEntry "a" "1" 1 OffsetNone 0])
              (entry "a" "1" 1, false))
    as (Hok & Hroot & _ & Hget & Hdepth & Hts & Hmut & _);
    [discriminate|vm_compute; discriminate|reflexivity|reflexivity|vm_compute; discriminate|
     reflexivity|vm_compute; reflexivity|vm_compute; reflexivity|].
  repeat split; assumption.
Defined.

Lemma flushTreeLog_accounts_witness :
  let run := flushTreeLog (descentFuel sampleTree) (rootID sampleTree) (mkFlushOptions false)
               (sampleTree, emptyApp) in
  fst run = Ok (mkFlushRes 1 4096 4096 0) /\
  exists added,
    snd (snd run) = mkApp (appData emptyApp ++ added) false /\
    Z.of_nat (length added) = 4096.
Proof.
  cbv zeta.
  destruct (flushTreeLog (descentFuel sampleTree) (rootID sampleTree) (mkFlushOptions false)
              (sampleTree, emptyApp)) as [r [t' dst']] eqn:Hrun.
  pose proof (f_equal fst Hrun) as Hres. vm_compute in Hres. subst r.
  split; [reflexivity|].
  destruct (flushTreeLog_accounts RPut_in_place _ _ _ _ _ _ _ _ Hrun)
    as (added & Hdst & Hlen & _).
  exists added. split; assumption.
Defined.

Lemma Flush_twice_witness :
  Flush sampleTree = (Ok tt, flushedTree) /\
  mutated flushedTree = false /\
  Flush flushedTree = (Ok tt, withLog notNeeded flushedTree).
Proof.
  assert (Hflush : Flush sampleTree = (Ok tt, flushedTree)) by (vm_compute; reflexivity).
  split; [exact Hflush|].
  destruct (Flush_twice sampleTree flushedTree eq_refl Hflush) as (Hclean & _ & Hagain).
  split; assumption.
Defined.

Lemma flush_entry_points_witness :
  TryFlush sampleTree = Flush sampleTree /\
  (fst (Flush sampleTree) = Ok tt /\
   FlushReset sampleTree
   = (Ok tt, set_wb (wb_Reset (wb (snd (Flush sampleTree)))) (snd (Flush sampleTree)))) /\
  (fst (@Flush hostileLayout sampleTree) = Panic "slice bounds out of range" /\
   @FlushReset hostileLayout sampleTree = @Flush hostileLayout sampleTree /\
   length (wbPages (wb (snd (@FlushReset hostileLayout sampleTree)))) = 2%nat) /\
  TryFlush (set_mtx true sampleTree) = (Err ErrTreeLocked, set_mtx true sampleTree).
Proof.
  assert (Hok : fst (Flush sampleTree) = Ok tt) by (vm_compute; reflexivity).
  assert (Hpanic : fst (@Flush hostileLayout sampleTree) = Panic "slice bounds out of range")
    by (vm_compute; reflexivity).
  split; [exact (proj1 (proj1 (flush_entry_points sampleTree) eq_refl))|].
  split.
  { split; [exact Hok|].
    pose proof (proj2 (proj1 (flush_entry_points sampleTree) eq_refl)) as Hreset.
    rewrite Hok in Hreset. exact Hreset. }
  split.
  { pose proof (proj2 (proj1 (@flush_entry_points hostileLayout sampleTree) eq_refl))
      as Hreset.
    rewrite Hpanic in Hreset.
    split; [exact Hpanic|]. split; [exact Hreset|].
    rewrite Hreset. vm_compute. reflexivity. }
  exact (proj2 (flush_entry_points (set_mtx true sampleTree)) eq_refl).
Defined.

Lemma maybeSync_spec_witness :
  is_uint 64 (snapshotCount sampleTree) /\
  fst (maybeSync 100 sampleTree) = Ok tt /\
  unsyncedBytes (snd (maybeSync 100 sampleTree)) = 100 /\
  unsyncedBytes (snd (maybeSync (2 ^ 20) sampleTree)) = 0.
Proof.
  assert (Hcount : is_uint 64 (snapshotCount sampleTree)) by (unfold is_uint; cbn; lia).
  split; [exact Hcount|].
  destruct (maybeSync_spec 100 sampleTree Hcount) as (Hok & _ & _ & Hbelow & _).
  destruct (maybeSync_spec (2 ^ 20) sampleTree Hcount) as (_ & _ & _ & Hreached & _).
  split; [exact Hok|]. split; [rewrite Hbelow|rewrite Hreached]; reflexivity.
Defined.

Lemma SnapshotAtTs_reuses_last_snapshot_witness :
  lastSnapshotID flushedTree <> PageNone /\
  SnapshotAtTs 2 flushedTree = newReadSnapshot 4096 2 flushedTree /\
  SnapshotAtTs 0 flushedTree = newReadSnapshot 4096 3 flushedTree /\
  SnapshotMustIncludeTs 2 flushedTree = newReadSnapshot 4096 3 flushedTree.
Proof.
  assert (Hsnap : lastSnapshotID flushedTree <> PageNone) by (vm_compute; discriminate).
  split; [exact Hsnap|].
  destruct (SnapshotAtTs_reuses_last_snapshot flushedTree 2 eq_refl Hsnap) as (_ & Hat & Hmust);
    [vm_compute; split; discriminate|vm_compute; discriminate|].
  destruct (SnapshotAtTs_reuses_last_snapshot flushedTree 0 eq_refl Hsnap) as (_ & Hzero & _);
    [vm_compute; split; discriminate|vm_compute; discriminate|].
  repeat split; assumption.
Defined.

Lemma Flush_commit_is_recoverable_witness :
  mutated sampleTree = true /\ counters_wf sampleTree /\
  Flush sampleTree = (Ok tt, flushedTree) /\
  exists ce,
    findLastValidPage flushedTree = Ok (ce, rootID flushedTree) /\
    rootID flushedTree = 4096 /\ CTs ce = 3 /\ TotalPages ce = 1.
Proof.
  assert (Hwf : counters_wf sampleTree) by (unfold counters_wf, is_uint; cbn; lia).
  assert (Hflush : Flush sampleTree = (Ok tt, flushedTree)) by (vm_compute; reflexivity).
  split; [reflexivity|]. split; [exact Hwf|]. split; [exact Hflush|].
  destruct (Flush_commit_is_recoverable RPut_in_place sampleTree flushedTree
              eq_refl eq_refl Hwf Hflush)
    as (ce & Hfound & Hroot & _ & _ & _ & Hts & _ & _ & Hpages & _);
    [vm_compute; reflexivity|].
  exists ce. split; [exact Hfound|]. split; [reflexivity|].
  split; [rewrite Hts; reflexivity|rewrite Hpages; reflexivity].
Defined.

Lemma Advance_on_locked_tree_witness :
  Advance 3 9 (set_mtx true sampleTree) = (Ok tt, set_mtx true sampleTree) /\
  Advance 2 9 (set_mtx true sampleTree) = (Err ErrInvalidTimestamp, set_mtx true sampleTree) /\
  Advance 5 9 (set_mtx true sampleTree) = (Err ErrTreeLocked, set_mtx true sampleTree).
Proof.
  split; [exact (proj1 (Advance_on_locked_tree (set_mtx true sampleTree) 3 9) eq_refl)|].
  split; [exact (proj1 (Advance_on_locked_tree (set_mtx true sampleTree) 2 9) eq_refl)|].
  exact (proj1 (Advance_on_locked_tree (set_mtx true sampleTree) 5 9) eq_refl).
Defined.

Lemma Close_stops_early_witness :
  Close (set_snapshotCount 1 sampleTree)
  = (Err ErrActiveSnapshots, set_snapshotCount 1 sampleTree) /\
  fst (Close (set_treeApp (mkApp [] true) sampleTree)) = Err ErrAlreadyClosed /\
  appClosed (historyApp (snd (Close (set_treeApp (mkApp [] true) sampleTree)))) = false.
Proof.
  split.
  - apply (Close_stops_early (set_snapshotCount 1 sampleTree) eq_refl). cbn. lia.
  - destruct (flushToTreeLog (set_mtx true (set_treeApp (mkApp [] true) sampleTree)))
      as [r s1] eqn:Hflush.
    pose proof (f_equal fst Hflush) as Hr. vm_compute in Hr. subst r.
    pose proof (f_equal (fun x => appClosed (historyApp (snd x))) Hflush) as Hopen.
    vm_compute in Hopen.
    destruct (proj2 (Close_stops_early (set_treeApp (mkApp [] true) sampleTree) eq_refl)
                ErrAlreadyClosed s1 eq_refl Hflush) as (Hclose & _ & Hhist).
    split; [rewrite Hclose; reflexivity|].
    rewrite Hhist. symmetry. exact Hopen.
Defined.

Lemma Close_closes_both_logs_witness :
  fst (Close flushedTree) = Ok [] /\
  treeApp (snd (Close flushedTree)) = mkApp (appData (treeApp flushedTree)) true /\
  historyApp (snd (Close flushedTree)) = mkApp (appData (historyApp flushedTree)) true /\
  fst (Close (snd (Close flushedTree)))
  = Ok [ErrAlreadyClosed; ErrAlreadyClosed; ErrAlreadyClosed; ErrAlreadyClosed].
Proof.
  destruct (Close_closes_both_logs flushedTree eq_refl eq_refl eq_refl eq_refl eq_refl)
    as (Hok & Htree & Hhist & _ & Hagain).
  repeat split; assumption.
Defined.

Lemma Insert_root_in_memory_witness :
  arenaAddressable sampleTree /\
  fst (Insert (entry "b" "1" 4) sampleTree) = Ok tt /\
  isMemPage (rootID (snd (Insert (entry "b" "1" 4) sampleTree))) = true.
Proof.
  assert (Harena : arenaAddressable sampleTree) by (unfold arenaAddressable; cbn; lia).
  assert (Hok : fst (Insert (entry "b" "1" 4) sampleTree) = Ok tt) by (vm_compute; reflexivity).
  split; [exact Harena|]. split; [exact Hok|].
  exact (Insert_root_in_memory (entry "b" "1" 4) sampleTree Harena Hok).
Defined.

Lemma OpenWith_recovers_commit_witness :
  exists t,
    OpenWith "/data/index" (Some (treeApp flushedTree)) (Some (historyApp flushedTree))
      freshOptions = (Ok t, Some (historyApp t)) /\
    rootID t = 4096 /\ rootTs t = 3 /\ numPages t = 1 /\
    treeApp t = treeApp flushedTree /\ historyApp t = mkApp [] false.
Proof.
  assert (Hwf : CommitEntry_wf (mkCommitEntry 0 3 0 1705074730 1 0 0))
    by (unfold CommitEntry_wf, is_uint; cbn; lia).
  destruct (OpenWith_recovers_commit "/data/index" (treeApp flushedTree)
              (historyApp flushedTree) freshOptions
              (take 4096 (appData (treeApp flushedTree))) 2852034549
              (mkCommitEntry 0 3 0 1705074730 1 0 0)
              (encodePage (SetAsRoot (withEntries emptyLeaf [mkEntry "a" "3" 3 19 2])))
              eq_refl eq_refl)
    as (t & Hopen & Hroot & _ & Hts & _ & _ & Hpages & _ & Htree & Hhist & _);
    [vm_compute; reflexivity|exact Hwf|vm_compute; reflexivity|vm_compute; reflexivity|
     vm_compute; reflexivity|vm_compute; reflexivity|vm_compute; discriminate|
     vm_compute; reflexivity|].
  exists t. repeat split; assumption.
Defined.

(** The directory of the order of recovery with two snapshots worth
    recovering: [tree_1] holds the log flushed after the first insert of
    seed scenario 3, [tree_3] the log flushed after the third.
    [OpenWith] recovers the root at timestamp 1 from the one and at
    timestamp 3 from the other; [Open] returns the tree of [tree_1]. *)
Example Open_prefers_older_snapshot :
  let older := treeApp flushedOnce in
  let newer := treeApp flushedTree in
  let history := appData (historyApp flushedTree) in
  let opts := staleFirstOptions older newer history in
  (exists t1,
     fst (OpenWith "/data/index" (Some older) (Some (mkApp history false)) opts) = Ok t1 /\
     rootTs t1 = 1) /\
  (exists t3,
     fst (OpenWith "/data/index" (Some newer) (Some (mkApp history false)) opts) = Ok t3 /\
     rootTs t3 = 3) /\
  (exists t,
     Open "/data/index" opts emptyWorld = (Ok t, emptyWorld) /\
     rootTs t = 1 /\ treeApp t = older).
Proof.
  cbv zeta. split; [|split].
  - eexists. split; [vm_compute; reflexivity|]. reflexivity.
  - eexists. split; [vm_compute; reflexivity|]. reflexivity.
  - eexists. split; [vm_compute; reflexivity|]. split; reflexivity.
Qed.
